(** * TextWriter: a shallow embedding of [src/TextWriter.ts]

    The class writes a text into a page element one character at a time,
    pausing between characters.  The embedding has three layers:

    - the page ([Node], [Document]): a tree of elements with references,
      and the handful of DOM calls the class makes;
    - asynchronous functions ([Async], [Task]): a computation runs
      synchronously to its next [await], where it hands a continuation
      back to the event loop;
    - the class itself ([TextWriter] and its methods), written method by
      method after the source.

    Numbers are IEEE binary64 floats, as in JavaScript.  A string is a
    [string], one [ascii] per code unit, so that the code units above 255
    are left out.  The HTML and CSS parsers of the platform are modelled
    on the strings the class builds: the two shapes of markup it inserts,
    read in the context of the element they are given to, and the one
    selector it asks for. *)

From Stdlib Require Import String Ascii List Bool Arith Lia Floats.
Import ListNotations.
Open Scope string_scope.

(* ================================================================= *)
(** ** Strings *)

(** [s.charAt(i)]: the one-character string at index [i], or the empty
    string when [i] is out of range. *)
Definition charAt (s : string) (i : nat) : string :=
  match String.get i s with
  | Some c => String c EmptyString
  | None => EmptyString
  end.

(** The characters of [s], each as a one-character string, left to right. *)
Fixpoint chars (s : string) : list string :=
  match s with
  | EmptyString => []
  | String c rest => String c EmptyString :: chars rest
  end.

(** JavaScript truthiness of a string: every string but the empty one. *)
Definition truthyString (s : string) : bool :=
  negb (String.eqb s EmptyString).

(** JavaScript truthiness of a number: every number but [0], [-0] and NaN. *)
Definition truthyNumber (x : float) : bool :=
  negb (PrimFloat.eqb x 0%float) && PrimFloat.eqb x x.

(* ================================================================= *)
(** ** The page *)

Module Dom.

(** A reference to an element (the identity of a DOM object). *)
Definition Ref := nat.

#[warnings="-register-all"]
Inductive Node : Type :=
| Element (ref : Ref) (tagName : string) (id : string) (childNodes : list Node)
| Text (data : string).

(** The attached tree and the next unused reference. *)
Record Document : Type := mkDocument {
  root : Node;
  nextRef : Ref
}.

Fixpoint firstSome {A : Type} (l : list (option A)) : option A :=
  match l with
  | [] => None
  | Some a :: _ => Some a
  | None :: rest => firstSome rest
  end.

(** The element a reference denotes: the first one in tree order. *)
Fixpoint findElement (r : Ref) (n : Node) : option Node :=
  match n with
  | Text _ => None
  | Element r' _ _ cs =>
      if Nat.eqb r' r then Some n else firstSome (map (findElement r) cs)
  end.

Definition childNodesOf (r : Ref) (n : Node) : option (list Node) :=
  match findElement r n with
  | Some (Element _ _ _ cs) => Some cs
  | _ => None
  end.

(** [element.id] *)
Definition idOf (r : Ref) (n : Node) : option string :=
  match findElement r n with
  | Some (Element _ _ i _) => Some i
  | _ => None
  end.

(** [element.localName] *)
Definition tagOf (r : Ref) (n : Node) : option string :=
  match findElement r n with
  | Some (Element _ t _ _) => Some t
  | _ => None
  end.

(** Replace the child list of the element [r].  An element that is not
    in the tree is detached: a change to it is never seen again (the class
    re-attaches nothing), so the tree is left as it is. *)
Fixpoint updateChildren (r : Ref) (f : list Node -> list Node) (n : Node) : Node :=
  match n with
  | Text d => Text d
  | Element r' t i cs =>
      if Nat.eqb r' r then Element r' t i (f cs)
      else Element r' t i (map (updateChildren r f) cs)
  end.

(** [document.getElementById(id)] *)
Fixpoint elementById (id : string) (n : Node) : option Ref :=
  match n with
  | Text _ => None
  | Element r _ i cs =>
      if String.eqb i id then Some r else firstSome (map (elementById id) cs)
  end.

Definition getElementById (id : string) (d : Document) : option Ref :=
  if String.eqb id EmptyString then None else elementById id (root d).

Definition hasTag (tag : string) (n : Node) : bool :=
  match n with
  | Element _ t _ _ => String.eqb t tag
  | Text _ => false
  end.

(** [tag:last-of-type] on a child [c] followed by the siblings [later]. *)
Definition lastOfType (tag : string) (c : Node) (later : list Node) : bool :=
  hasTag tag c && negb (existsb (hasTag tag) later).

Definition refOf (n : Node) : option Ref :=
  match n with
  | Element r _ _ _ => Some r
  | Text _ => None
  end.

(** The children loop of [queryLastOfType]: [inside] tells whether the
    children are in the scope of the selector; [below] searches under one
    child. *)
Definition queryChildren (tag : string) (inside : bool)
    (below : Node -> option Ref) : list Node -> option Ref :=
  fix go (l : list Node) : option Ref :=
    match l with
    | [] => None
    | c :: later =>
        if inside && lastOfType tag c later then refOf c
        else match below c with
             | Some r => Some r
             | None => go later
             end
    end.

(** [querySelector] for the two selectors of the class: the first proper
    descendant of [n], in tree order, that is a [tag] element, the last of
    its siblings with that tag, and inside the scope.  The scope starts
    below an element whose id satisfies [scope] (or at [n] itself when
    [inside] is set). *)
Fixpoint queryLastOfType (scope : string -> bool) (tag : string)
    (inside : bool) (n : Node) : option Ref :=
  match n with
  | Text _ => None
  | Element _ _ i cs =>
      queryChildren tag (inside || scope i)
        (queryLastOfType scope tag (inside || scope i)) cs
  end.

(** *** Names *)

Definition isLower (c : ascii) : bool :=
  let n := nat_of_ascii c in ((97 <=? n) && (n <=? 122))%nat.

Definition isUpper (c : ascii) : bool :=
  let n := nat_of_ascii c in ((65 <=? n) && (n <=? 90))%nat.

Definition isDigit (c : ascii) : bool :=
  let n := nat_of_ascii c in ((48 <=? n) && (n <=? 57))%nat.

Fixpoint allChars (p : ascii -> bool) (s : string) : bool :=
  match s with
  | EmptyString => true
  | String c rest => p c && allChars p rest
  end.

(** The characters that start a CSS identifier, and those that go on
    with it, among the ASCII ones. *)
Definition identStart (c : ascii) : bool :=
  isLower c || isUpper c || Ascii.eqb c "_"%char.

Definition identChar (c : ascii) : bool :=
  identStart c || isDigit c || Ascii.eqb c "-"%char.

(** A string that [#] or nothing can precede in a selector as it stands:
    an identifier of CSS written without escapes, in ASCII.  It does not
    start with a digit, nor with a hyphen followed by a digit, and is not
    a hyphen alone. *)
Definition cssIdentifier (s : string) : bool :=
  match s with
  | EmptyString => false
  | String c rest =>
      if Ascii.eqb c "-"%char then
        match rest with
        | EmptyString => false
        | String c' _ =>
            (identStart c' || Ascii.eqb c' "-"%char) && allChars identChar rest
        end
      else identStart c && allChars identChar rest
  end.

(** The outcome of a [querySelector] call: the selector text may be
    rejected, otherwise the first match or [null]. *)
Inductive QueryResult : Type :=
| InvalidSelector
| Matched (r : option Ref).

(** [document.querySelector('#' + id + ' ' + tag + ':last-of-type')].
    The text is the selector meant when [id] and [tag] are identifiers.
    With any other [id] or [tag] the text is no selector ([#1box], a lone
    [#]) or a selector for something else ([#a b], [#a.b]); it is read as
    no selector.  Ids and tag names are compared as they are: the
    document is taken in no-quirks mode, and the page holds the names of
    its elements in lower case. *)
Definition documentQuerySelector (id tag : string) (d : Document) : QueryResult :=
  if cssIdentifier id && cssIdentifier tag
  then Matched (queryLastOfType (String.eqb id) tag false (root d))
  else InvalidSelector.

(** [e.querySelector(tag + ':last-of-type')] *)
Definition elementQuerySelector (e : Ref) (tag : string) (d : Document) : option Ref :=
  match findElement e (root d) with
  | Some n => queryLastOfType (fun _ => false) tag true n
  | None => None
  end.

(** *** Markup

    [insertAdjacentHTML] is given a string, which the HTML parser reads
    in the context of the target.  The class builds two shapes:
    [<tag></tag>] and [<span>c</span>] with [c] one character; these are
    the strings the fragment parser below reads.  Any other string is
    outside the model and inserts nothing.  All elements are HTML
    elements: a page with [svg] or [math] content is outside the model
    too. *)

Definition plainName (t : string) : bool :=
  match t with
  | EmptyString => false
  | String c rest => isLower c && allChars (fun x => isLower x || isDigit x) rest
  end.

(** Start tags the parser drops inside a [body] (with their end tags):
    parts of a table outside a table, and the elements a document has
    once. *)
Definition droppedTags : list string :=
  ["caption"; "col"; "colgroup"; "frame"; "head"; "tbody"; "td"; "tfoot"; "th";
   "thead"; "tr"; "html"; "body"; "frameset"].

(** Elements whose content the parser reads as text, not as markup. *)
Definition rawTextTags : list string :=
  ["title"; "textarea"; "style"; "script"; "xmp"; "iframe"; "noembed"; "noframes";
   "noscript"; "plaintext"].

(** Elements in which the parser follows rules of their own. *)
Definition ownModeTags : list string :=
  ["table"; "caption"; "colgroup"; "tbody"; "thead"; "tfoot"; "tr"; "select";
   "template"; "frameset"; "svg"; "math"].

(** Void elements: they take no end tag and no content. *)
Definition voidTags : list string :=
  ["area"; "base"; "basefont"; "bgsound"; "br"; "embed"; "hr"; "img"; "input";
   "keygen"; "link"; "meta"; "param"; "source"; "track"; "wbr"].

(** Names that [<tag></tag>] does not turn, in every browser and
    wherever the target is, into one empty element of that name which
    takes markup as children: the lists above, [image] (read as [img]),
    [form] (dropped inside a form), the elements of a [select], and names
    that parsers have read in different ways over time. *)
Definition specialTags : list string :=
  droppedTags ++ rawTextTags ++ ownModeTags ++ voidTags
  ++ ["image"; "form"; "option"; "optgroup"; "isindex"; "menuitem"; "command"].

Definition validTag (t : string) : bool :=
  plainName t && negb (existsb (String.eqb t) specialTags).

(** How the parser reads a string given to an element of this name. *)
Inductive ContentModel : Type :=
| Markup     (* tags and text, by the rules of [body] *)
| RawText    (* text only *)
| OwnMode    (* by rules of the element's own *).

Definition contentModel (context : string) : ContentModel :=
  if existsb (String.eqb context) rawTextTags then RawText
  else if existsb (String.eqb context) ownModeTags then OwnMode
  else Markup.

(** The text before the first [stop] and the text after it. *)
Fixpoint splitAt (stop : ascii) (s : string) : option (string * string) :=
  match s with
  | EmptyString => None
  | String c rest =>
      if Ascii.eqb c stop then Some (EmptyString, rest)
      else match splitAt stop rest with
           | Some (before, after) => Some (String c before, after)
           | None => None
           end
  end.

Fixpoint stripSuffix (suffix s : string) : option string :=
  if String.eqb s suffix then Some EmptyString
  else match s with
       | EmptyString => None
       | String c rest =>
           match stripSuffix suffix rest with
           | Some before => Some (String c before)
           | None => None
           end
       end.

(** The name and the content of [<name>content</name>], when the string
    is [<name></name>] or [<span>c</span>]. *)
Definition parseFragment (html : string) : option (string * string) :=
  match html with
  | String "<"%char rest =>
      match splitAt ">"%char rest with
      | Some (name, body) =>
          if plainName name then
            match stripSuffix ("</" ++ name ++ ">") body with
            | Some content =>
                if String.eqb content EmptyString
                   || (String.eqb name "span" && (String.length content <=? 1)%nat)
                then Some (name, content)
                else None
            | None => None
            end
          else None
      | None => None
      end
  | _ => None
  end.

(** The input stream of the parser: a carriage return, with the line feed
    that follows it if any, is read as one line feed. *)
Fixpoint newlines (s : string) : string :=
  match s with
  | EmptyString => EmptyString
  | String c rest =>
      if Ascii.eqb c "013"%char then
        String "010"%char
               match rest with
               | EmptyString => EmptyString
               | String c' rest' =>
                   if Ascii.eqb c' "010"%char then newlines rest' else newlines rest
               end
      else String c (newlines rest)
  end.

Fixpoint withoutNull (s : string) : string :=
  match s with
  | EmptyString => EmptyString
  | String c rest =>
      if Ascii.eqb c "000"%char then withoutNull rest else String c (withoutNull rest)
  end.

(** The text a [body] keeps of the characters between two tags: line
    ends are normalized and U+0000 is dropped.  The other characters stay
    as they are; one [<] or [&] alone before an end tag is text. *)
Definition characterData (content : string) : string :=
  withoutNull (newlines content).

Definition textNodes (content : string) : list Node :=
  if String.eqb (characterData content) EmptyString then []
  else [Text (characterData content)].

(** The nodes [<name>content</name>] makes by the rules of [body], the
    first new element under the reference [start]. *)
Definition fragmentNodes (start : Ref) (name content : string) : list Node :=
  if existsb (String.eqb name) droppedTags then []
  else if String.eqb name "image" then [Element start "img" EmptyString []]
  else if String.eqb name "br"
  then [Element start "br" EmptyString []; Element (S start) "br" EmptyString []]
  else if String.eqb name "plaintext"
  then [Element start name EmptyString [Text "</plaintext>"]]
  else [Element start name EmptyString (textNodes content)].

(** [target.insertAdjacentHTML('beforeend', html)] in an HTML document
    (an XML document would refuse markup that is not well formed).  An
    element that reads its content as text is given the string as text (a
    U+0000 in it
    would become U+FFFD, which the strings here do not have: it is kept).
    The rules of tables, [select], [template] and foreign content are not
    followed: under such a target the tree is left as it is, as under a
    detached one. *)
Definition insertAdjacentHTML (target : Ref) (html : string) (d : Document) : Document :=
  match tagOf target (root d) with
  | Some context =>
      match contentModel context with
      | Markup =>
          match parseFragment html with
          | Some (name, content) =>
              mkDocument
                (updateChildren target
                   (fun cs => (cs ++ fragmentNodes (nextRef d) name content)%list)
                   (root d))
                (List.length (fragmentNodes (nextRef d) name content) + nextRef d)
          | None => d
          end
      | RawText =>
          mkDocument
            (updateChildren target (fun cs => (cs ++ [Text (newlines html)])%list) (root d))
            (nextRef d)
      | OwnMode => d
      end
  | None => d
  end.

(** [target.insertAdjacentText('beforeend', text)] *)
Definition insertAdjacentText (target : Ref) (text : string) (d : Document) : Document :=
  mkDocument (updateChildren target (fun cs => (cs ++ [Text text])%list) (root d)) (nextRef d).

(** [target.innerHTML = ''] *)
Definition clearInnerHTML (target : Ref) (d : Document) : Document :=
  mkDocument (updateChildren target (fun _ => []) (root d)) (nextRef d).

End Dom.
Import Dom.

(* ================================================================= *)
(** ** The writer, the world and asynchronous functions *)

(** The fields of a [TextWriter] object. *)
Record TextWriter : Type := mkTextWriter {
  textDestinationContainer : option Ref;  (* undefined or null: [None] *)
  animationDelay : float;
  htmlWrapperTag : option string;         (* null: [None] *)
  scrollToTextEnabled : bool
}.

(** A call to the platform, as the class makes it. *)
Inductive Call : Type :=
| CallInsertAdjacentHTML (target : Ref) (html : string)
| CallInsertAdjacentText (target : Ref) (text : string)
| CallSetInnerHTML (target : Ref) (html : string)
| CallScrollIntoView (target : Ref)
| CallSetTimeout (ms : float).

(** Everything a method can read or change: the object, the page, and the
    calls made so far, oldest first. *)
Record World : Type := mkWorld {
  this : TextWriter;
  document : Document;
  calls : list Call
}.

Inductive Exn : Type :=
| TypeError     (* a property or method of null or undefined *)
| SyntaxError   (* JSON.parse on malformed text, an invalid selector *).

(** What an [await] waits for. *)
Inductive Wait : Type :=
| Microtask            (* a value that is no promise: resumed in a later microtask *)
| Timeout (ms : float) (* a promise resolved by [setTimeout(..., ms)] *).

(** An asynchronous function after its synchronous start: its promise is
    resolved, rejected, or the function is parked at an [await].  The
    continuation is given the world it finds when it is resumed, runs to
    the next [await] and returns the world it leaves. *)
#[warnings="-register-all"]
Inductive Async (A : Type) : Type :=
| Resolved (a : A)
| Rejected (e : Exn)
| Awaiting (w : Wait) (k : World -> World * Async A).

Arguments Resolved {A} a.
Arguments Rejected {A} e.
Arguments Awaiting {A} w k.

Definition Task (A : Type) : Type := World -> World * Async A.

Definition ret {A : Type} (a : A) : Task A :=
  fun w => (w, Resolved a).

Definition throw {A : Type} (e : Exn) : Task A :=
  fun w => (w, Rejected e).

Fixpoint bindAsync {A B : Type} (p : Async A) (f : A -> Task B) (w : World)
    : World * Async B :=
  match p with
  | Resolved a => f a w
  | Rejected e => (w, Rejected e)
  | Awaiting wt k =>
      (w, Awaiting wt (fun w' => let (w'', p') := k w' in bindAsync p' f w''))
  end.

Definition bind {A B : Type} (t : Task A) (f : A -> Task B) : Task B :=
  fun w => let (w', p) := t w in bindAsync p f w'.

Declare Scope task_scope.
Delimit Scope task_scope with task.
Notation "x <- t ;; k" := (bind t (fun x => k))
  (at level 61, t at next level, right associativity) : task_scope.
Notation "t ;; k" := (bind t (fun _ => k))
  (at level 61, right associativity) : task_scope.
Open Scope task_scope.

Definition gets {A : Type} (f : World -> A) : Task A :=
  fun w => (w, Resolved (f w)).

Definition modify (f : World -> World) : Task unit :=
  fun w => (f w, Resolved tt).

Definition logCall (c : Call) (w : World) : World :=
  mkWorld (this w) (document w) (calls w ++ [c]).

Definition onDocument (f : Document -> Document) (w : World) : World :=
  mkWorld (this w) (f (document w)) (calls w).

Definition onThis (f : TextWriter -> TextWriter) (w : World) : World :=
  mkWorld (f (this w)) (document w) (calls w).

(** What [await] may be applied to in this class. *)
Inductive Awaitable : Type :=
| ValueTrue                      (* the boolean [true] *)
| PromiseTimeout (ms : float)    (* [new Promise(r => setTimeout(r, ms))] *).

(** [new Promise(r => setTimeout(r, ms))]: the executor runs at once and
    sets the timer. *)
Definition newTimeoutPromise (ms : float) : Task Awaitable :=
  modify (logCall (CallSetTimeout ms)) ;; ret (PromiseTimeout ms).

(** [await v]: the function is parked whatever [v] is. *)
Definition await (v : Awaitable) : Task unit :=
  fun w =>
    (w, Awaiting (match v with
                  | ValueTrue => Microtask
                  | PromiseTimeout ms => Timeout ms
                  end)
                 (fun w' => (w', Resolved tt))).

(** [await f(...)] for an asynchronous [f]: the callee runs first, the
    caller is resumed in a microtask after the callee's promise resolves.
    When the callee's promise is rejected the caller's is rejected with
    it; the microtask turn in between is not shown. *)
Definition awaitPromise {A : Type} (t : Task A) : Task A :=
  a <- t ;; await ValueTrue ;; ret a.

(** [for (let i = start; i < start + count; i++) body(i)] *)
Fixpoint forRange (start count : nat) (body : nat -> Task unit) : Task unit :=
  match count with
  | O => ret tt
  | S count' => body start ;; forRange (S start) count' body
  end.

(** [for (var x in items) body(items[x])] on an array. *)
Definition forIn {A : Type} (body : A -> Task unit) : list A -> Task unit :=
  fix go (l : list A) : Task unit :=
    match l with
    | [] => ret tt
    | x :: rest => body x ;; go rest
    end.

(** The result of running an asynchronous function to completion. *)
Definition Outcome (A : Type) : Type := (Exn + A)%type.

(** Run to completion with nothing else scheduled in between: each
    continuation is resumed in the world the previous one left. *)
Fixpoint runAsync {A : Type} (p : Async A) (w : World) : World * Outcome A :=
  match p with
  | Resolved a => (w, inr a)
  | Rejected e => (w, inl e)
  | Awaiting _ k => let (w', p') := k w in runAsync p' w'
  end.

Definition run {A : Type} (t : Task A) (w : World) : World * Outcome A :=
  let (w', p) := t w in runAsync p w'.

(** *** Platform calls as the class makes them *)

Module Page.

(** [target.insertAdjacentHTML('beforeend', html)] *)
Definition insertAdjacentHTML (target : option Ref) (html : string) : Task unit :=
  match target with
  | None => throw TypeError
  | Some r =>
      modify (fun w =>
        logCall (CallInsertAdjacentHTML r html)
                (onDocument (Dom.insertAdjacentHTML r html) w))
  end.

(** [target.insertAdjacentText('beforeend', text)] *)
Definition insertAdjacentText (target : option Ref) (text : string) : Task unit :=
  match target with
  | None => throw TypeError
  | Some r =>
      modify (fun w =>
        logCall (CallInsertAdjacentText r text)
                (onDocument (Dom.insertAdjacentText r text) w))
  end.

(** [target.innerHTML = ''] *)
Definition clearInnerHTML (target : option Ref) : Task unit :=
  match target with
  | None => throw TypeError
  | Some r =>
      modify (fun w =>
        logCall (CallSetInnerHTML r EmptyString)
                (onDocument (Dom.clearInnerHTML r) w))
  end.

(** [target.scrollIntoView()] *)
Definition scrollIntoView (target : option Ref) : Task unit :=
  match target with
  | None => throw TypeError
  | Some r => modify (logCall (CallScrollIntoView r))
  end.

(** [target.id]; the id of an element that left the page is not kept, and
    reads as the empty string. *)
Definition id (target : option Ref) : Task string :=
  match target with
  | None => throw TypeError
  | Some r =>
      i <- gets (fun w => idOf r (root (document w))) ;;
      ret (match i with Some s => s | None => EmptyString end)
  end.

(** [document.querySelector('#' + id + ' ' + tag + ':last-of-type')] *)
Definition documentQuerySelector (id tag : string) : Task (option Ref) :=
  q <- gets (fun w => Dom.documentQuerySelector id tag (document w)) ;;
  match q with
  | InvalidSelector => throw SyntaxError
  | Matched r => ret r
  end.

(** [e.querySelector(tag + ':last-of-type')] *)
Definition querySelector (e : option Ref) (tag : string) : Task (option Ref) :=
  match e with
  | None => throw TypeError
  | Some r => gets (fun w => Dom.elementQuerySelector r tag (document w))
  end.

End Page.

(** *** JSON

    [JSON.parse] and [JSON.stringify] belong to the platform. *)

Inductive Stringified : Type :=
| Serialized (s : string)
| Undefined      (* nothing to serialize, as for [undefined] or a function *)
| Throws         (* a TypeError, as for a cyclic value *).

Class JSON : Type := {
  JsValue : Type;
  JSON_parse : string -> option JsValue;        (* [None]: SyntaxError *)
  JSON_stringify : JsValue -> nat -> Stringified (* value, space *)
}.

(** The argument of [writeJson]: [string|JSON|Event]. *)
Inductive JsonArg {J : JSON} : Type :=
| ArgString (s : string)
| ArgValue (v : JsValue).

(** The argument of [write]: [string|Array<string>]; at run time the
    function accepts arrays of whatever it accepts. *)
#[warnings="-register-all"]
Inductive Content : Type :=
| Str (s : string)
| Arr (items : list Content).

(* ================================================================= *)
(** ** The class *)

(** [setDestination(destinationId)] *)
Definition setDestination (destinationId : string) (w : World) : World :=
  onThis (fun o => mkTextWriter (getElementById destinationId (document w))
                                (animationDelay o) (htmlWrapperTag o)
                                (scrollToTextEnabled o)) w.

(** [setAnimationDelay(animationDelay)] *)
Definition setAnimationDelay (delay : float) (w : World) : World :=
  onThis (fun o => mkTextWriter (textDestinationContainer o) delay
                                (htmlWrapperTag o) (scrollToTextEnabled o)) w.

(** [setHtmlWrapperTag(htmlWrapperTag)] *)
Definition setHtmlWrapperTag (tag : option string) (w : World) : World :=
  onThis (fun o => mkTextWriter (textDestinationContainer o) (animationDelay o)
                                tag (scrollToTextEnabled o)) w.

(** [new TextWriter(destinationId, scrollToTextEnabled)] on a page. *)
Definition newTextWriter (destinationId : string) (scroll : bool) (d : Document) : World :=
  let w := mkWorld (mkTextWriter None 100%float None false) d [] in
  let w := setDestination destinationId w in
  onThis (fun o => mkTextWriter (textDestinationContainer o) (animationDelay o)
                                (htmlWrapperTag o) scroll) w.

(** The template literal [`<${tag}></${tag}>`] of [getTargetElement]. *)
Definition wrapperMarkup (tag : string) : string := "<" ++ tag ++ "></" ++ tag ++ ">".

(** The template literal [`<span>${char}</span>`] of [writeHtmlChar]. *)
Definition spanMarkup (char : string) : string := "<span>" ++ char ++ "</span>".

(** [getTargetElement()] *)
Definition getTargetElement : Task (option Ref) :=
  container <- gets (fun w => textDestinationContainer (this w)) ;;
  wrapper <- gets (fun w => htmlWrapperTag (this w)) ;;
  match wrapper with
  | Some tag =>
      if truthyString tag then
        Page.insertAdjacentHTML container (wrapperMarkup tag) ;;
        i <- Page.id container ;;
        Page.documentQuerySelector i tag
      else ret container
  | None => ret container
  end.

(** [scrollToText()] *)
Definition scrollToText : Task unit :=
  enabled <- gets (fun w => scrollToTextEnabled (this w)) ;;
  if (enabled : bool) then
    container <- gets (fun w => textDestinationContainer (this w)) ;;
    Page.scrollIntoView container
  else ret tt.

(** [writeHtmlChar(char, target)] *)
Definition writeHtmlChar (char : string) (target : option Ref) : Task unit :=
  Page.insertAdjacentHTML target (spanMarkup char) ;;
  scrollToText.

(** [writeChar(char, target)] *)
Definition writeChar (char : string) (target : option Ref) : Task unit :=
  Page.insertAdjacentText target char ;;
  scrollToText.

(** [sleepAnimationDelay(multiplier)]: [true], or a promise on a timer. *)
Definition sleepAnimationDelay (multiplier : float) : Task Awaitable :=
  delay <- gets (fun w => animationDelay (this w)) ;;
  if PrimFloat.eqb (PrimFloat.mul delay multiplier) 0%float then ret ValueTrue
  else newTimeoutPromise (PrimFloat.mul delay multiplier).

(** [writeJson(text, animationMultiplier)] *)
Definition writeJson {J : JSON} (text : JsonArg) (animationMultiplier : float)
    : Task unit :=
  toWrite <- match text with
             | ArgString s =>
                 match JSON_parse s with
                 | Some v => ret v
                 | None => throw SyntaxError
                 end
             | ArgValue v => ret v
             end ;;
  toWrite <- match JSON_stringify toWrite 2 with
             | Serialized s => ret (Some s)
             | Undefined => ret None
             | Throws => throw TypeError
             end ;;
  container <- gets (fun w => textDestinationContainer (this w)) ;;
  Page.insertAdjacentHTML container "<pre></pre>" ;;
  targetElement <- Page.querySelector container "pre" ;;
  match toWrite with
  | None => throw TypeError   (* [toWrite.length] on undefined *)
  | Some toWrite =>
      forRange 0 (String.length toWrite) (fun i =>
        v <- sleepAnimationDelay animationMultiplier ;;
        await v ;;
        writeChar (charAt toWrite i) targetElement)
  end.

(** [write(text, animationMultiplier, delay, replace)] *)
Fixpoint write (text : Content) (animationMultiplier delay : float)
    (replace : bool) {struct text} : Task unit :=
  (if truthyNumber delay
   then p <- newTimeoutPromise delay ;; await p
   else ret tt) ;;
  match text with
  | Arr items =>
      forIn (fun x => awaitPromise (write x animationMultiplier 0%float replace))
            items
  | Str toWrite =>
      targetElement <- getTargetElement ;;
      (if replace then Page.clearInnerHTML targetElement else ret tt) ;;
      forRange 0 (String.length toWrite) (fun i =>
        v <- sleepAnimationDelay animationMultiplier ;;
        await v ;;
        writeHtmlChar (charAt toWrite i) targetElement)
  end.

(** [skipAnimation()] *)
Definition skipAnimation : Task unit :=
  delay <- gets (fun w => animationDelay (this w)) ;;
  modify (setAnimationDelay 0%float) ;;
  p <- newTimeoutPromise delay ;;
  await p ;;
  modify (setAnimationDelay delay).

(** Default arguments. *)
Definition write_animationMultiplier : float := 1%float.
Definition write_delay : float := 0%float.
Definition write_replace : bool := false.
Definition writeJson_animationMultiplier : float := 0x1.999999999999ap-2%float. (* 0.4 *)

(* ================================================================= *)
(** ** A small JSON, to run the class on

    Enough of JSON to evaluate [writeJson] on examples: [null], booleans,
    non-negative integers, strings of plain characters (no quote, no
    backslash, no control character), arrays and objects.  The results
    about [writeJson] are proved for any [JSON]; this one only serves to
    compute. *)

Module MiniJSON.

#[warnings="-register-all"]
Inductive value : Type :=
| VNull
| VBool (b : bool)
| VNumber (n : nat)
| VString (s : string)
| VArray (items : list value)
| VObject (members : list (string * value)).

Definition dquote : ascii := "034"%char.
Definition newline : ascii := "010"%char.

Definition quote (s : string) : string :=
  String dquote (s ++ String dquote EmptyString).

Definition digitChar (d : nat) : ascii := ascii_of_nat (48 + d).

(** Decimal digits of [n], with [fuel] an upper bound on their number. *)
Fixpoint decimalFrom (fuel n : nat) (acc : string) : string :=
  match fuel with
  | O => acc
  | S fuel' =>
      let acc' := String (digitChar (n mod 10)) acc in
      if (n <? 10)%nat then acc' else decimalFrom fuel' (n / 10) acc'
  end.

Definition decimal (n : nat) : string := decimalFrom (S n) n EmptyString.

Fixpoint join (sep : string) (l : list string) : string :=
  match l with
  | [] => EmptyString
  | [x] => x
  | x :: rest => x ++ sep ++ join sep rest
  end.

Fixpoint spaces (n : nat) : string :=
  match n with
  | O => EmptyString
  | S n' => String " "%char (spaces n')
  end.

(** [JSON.stringify]'s layout: [gap] is the indentation unit and [indent]
    the current indentation. *)
Fixpoint serialize (gap indent : string) (v : value) : string :=
  let inner := indent ++ gap in
  let pretty := negb (String.eqb gap EmptyString) in
  let wrap (opening closing : string) (parts : list string) : string :=
    if pretty then
      opening ++ String newline inner
        ++ join ("," ++ String newline inner) parts
        ++ String newline indent ++ closing
    else opening ++ join "," parts ++ closing in
  match v with
  | VNull => "null"
  | VBool true => "true"
  | VBool false => "false"
  | VNumber n => decimal n
  | VString s => quote s
  | VArray [] => "[]"
  | VArray items => wrap "[" "]" (map (serialize gap inner) items)
  | VObject [] => "{}"
  | VObject members =>
      wrap "{" "}"
        (map (fun kv : string * value =>
                quote (fst kv) ++ (if pretty then ": " else ":")
                  ++ serialize gap inner (snd kv))
             members)
  end.

Definition stringify (v : value) (space : nat) : Stringified :=
  Serialized (serialize (spaces (Nat.min space 10)) EmptyString v).

Definition isSpace (c : ascii) : bool :=
  let n := nat_of_ascii c in
  ((n =? 32) || (n =? 9) || (n =? 10) || (n =? 13))%nat.

Fixpoint skipSpaces (s : string) : string :=
  match s with
  | String c rest => if isSpace c then skipSpaces rest else s
  | EmptyString => s
  end.

Definition plainChar (c : ascii) : bool :=
  let n := nat_of_ascii c in
  ((32 <=? n) && negb (n =? 34) && negb (n =? 92))%nat.

(** The characters up to the closing quote. *)
Fixpoint stringBody (s : string) : option (string * string) :=
  match s with
  | EmptyString => None
  | String c rest =>
      if Ascii.eqb c dquote then Some (EmptyString, rest)
      else if plainChar c then
        match stringBody rest with
        | Some (body, after) => Some (String c body, after)
        | None => None
        end
      else None
  end.

Fixpoint digits (s : string) (acc : nat) : nat * string :=
  match s with
  | String c rest =>
      if isDigit c then digits rest (10 * acc + (nat_of_ascii c - 48)) else (acc, s)
  | EmptyString => (acc, s)
  end.

Definition expect (word : string) (v : value) (s : string) : option (value * string) :=
  if String.prefix word s
  then Some (v, substring (String.length word) (String.length s - String.length word) s)
  else None.

Fixpoint parseValue (fuel : nat) (s : string) : option (value * string) :=
  match fuel with
  | O => None
  | S fuel' =>
      match skipSpaces s with
      | EmptyString => None
      | String c rest =>
          if Ascii.eqb c "n"%char then expect "ull" VNull rest
          else if Ascii.eqb c "t"%char then expect "rue" (VBool true) rest
          else if Ascii.eqb c "f"%char then expect "alse" (VBool false) rest
          else if Ascii.eqb c dquote then
            match stringBody rest with
            | Some (body, after) => Some (VString body, after)
            | None => None
            end
          else if Ascii.eqb c "0"%char then Some (VNumber 0, rest)
          else if isDigit c then
            let (n, after) := digits (String c rest) 0 in Some (VNumber n, after)
          else if Ascii.eqb c "["%char then
            match skipSpaces rest with
            | String "]"%char after => Some (VArray [], after)
            | _ =>
                match parseItems fuel' rest with
                | Some (items, after) => Some (VArray items, after)
                | None => None
                end
            end
          else if Ascii.eqb c "{"%char then
            match skipSpaces rest with
            | String "}"%char after => Some (VObject [], after)
            | _ =>
                match parseMembers fuel' rest with
                | Some (members, after) => Some (VObject members, after)
                | None => None
                end
            end
          else None
      end
  end

with parseItems (fuel : nat) (s : string) : option (list value * string) :=
  match fuel with
  | O => None
  | S fuel' =>
      match parseValue fuel' s with
      | Some (v, after) =>
          match skipSpaces after with
          | String "]"%char after' => Some ([v], after')
          | String ","%char after' =>
              match parseItems fuel' after' with
              | Some (items, after'') => Some (v :: items, after'')
              | None => None
              end
          | _ => None
          end
      | None => None
      end
  end

with parseMembers (fuel : nat) (s : string)
    : option (list (string * value) * string) :=
  match fuel with
  | O => None
  | S fuel' =>
      match skipSpaces s with
      | String c rest =>
          if Ascii.eqb c dquote then
            match stringBody rest with
            | Some (key, after) =>
                match skipSpaces after with
                | String ":"%char after' =>
                    match parseValue fuel' after' with
                    | Some (v, after'') =>
                        match skipSpaces after'' with
                        | String "}"%char rest' => Some ([(key, v)], rest')
                        | String ","%char rest' =>
                            match parseMembers fuel' rest' with
                            | Some (members, rest'') => Some ((key, v) :: members, rest'')
                            | None => None
                            end
                        | _ => None
                        end
                    | None => None
                    end
                | _ => None
                end
            | None => None
            end
          else None
      | EmptyString => None
      end
  end.

Definition parse (s : string) : option value :=
  match parseValue (2 * String.length s + 2) s with
  | Some (v, after) =>
      match skipSpaces after with
      | EmptyString => Some v
      | _ => None
      end
  | None => None
  end.

End MiniJSON.

#[export] Instance miniJSON : JSON := {
  JsValue := MiniJSON.value;
  JSON_parse := MiniJSON.parse;
  JSON_stringify := MiniJSON.stringify
}.

(* ================================================================= *)
(** ** Vocabulary of the properties *)

(** The character units a page holds after [spanMarkup] was inserted for
    each of [cs] in turn, the first one under the reference [start]. *)
Fixpoint spanUnits (start : Ref) (cs : list string) : list Node :=
  match cs with
  | [] => []
  | c :: rest => Element start "span" EmptyString (textNodes c) :: spanUnits (S start) rest
  end.

(** The [insertAdjacentHTML] calls of a log, in order: target and markup. *)
Definition htmlInsertions (l : list Call) : list (Ref * string) :=
  flat_map (fun c => match c with
                     | CallInsertAdjacentHTML t html => [(t, html)]
                     | _ => []
                     end) l.

(** The [insertAdjacentText] calls of a log, in order: target and text. *)
Definition textInsertions (l : list Call) : list (Ref * string) :=
  flat_map (fun c => match c with
                     | CallInsertAdjacentText t text => [(t, text)]
                     | _ => []
                     end) l.

(** The elements whose [innerHTML] a log sets, in order. *)
Definition clears (l : list Call) : list Ref :=
  flat_map (fun c => match c with
                     | CallSetInnerHTML t _ => [t]
                     | _ => []
                     end) l.

(** The timers a log sets, in order. *)
Definition timers (l : list Call) : list float :=
  flat_map (fun c => match c with
                     | CallSetTimeout ms => [ms]
                     | _ => []
                     end) l.

(** The wrapper tag in force, if any: [if(this.htmlWrapperTag)]. *)
Definition wrapperInForce (o : TextWriter) : option string :=
  match htmlWrapperTag o with
  | Some tag => if truthyString tag then Some tag else None
  | None => None
  end.

(** The surface is resolved: the container is an element of the page
    with an id, and the wrapper tag, when one is in force, names an
    ordinary element ([validTag]). *)
Definition surfaceReady (w : World) : bool :=
  match textDestinationContainer (this w) with
  | Some c =>
      match idOf c (root (document w)) with
      | Some i => truthyString i
      | None => false
      end
  | None => false
  end
  && match wrapperInForce (this w) with
     | Some tag => validTag tag
     | None => true
     end.

(** The element [t] is on the page and reads a string it is given as
    markup, by the rules of [body]. *)
Definition takesMarkup (t : Ref) (d : Document) : bool :=
  match tagOf t (root d) with
  | Some context =>
      match contentModel context with
      | Markup => true
      | _ => false
      end
  | None => false
  end.

(** The writer can write: the surface is resolved, the container reads
    markup as markup, and, when a wrapper tag is in force, the id of the
    container is an identifier, so that [#id tag:last-of-type] is the
    selector meant. *)
Definition writable (w : World) : bool :=
  surfaceReady w
  && match textDestinationContainer (this w) with
     | Some c =>
         takesMarkup c (document w)
         && match wrapperInForce (this w), idOf c (root (document w)) with
            | Some _, Some i => cssIdentifier i
            | Some _, None => false
            | None, _ => true
            end
     | None => false
     end.

(** The calls one character step adds to the log around the insertion:
    the timer of [sleepAnimationDelay], if any, and the scroll, if any. *)
Definition sleepCalls (o : TextWriter) (multiplier : float) : list Call :=
  if PrimFloat.eqb (PrimFloat.mul (animationDelay o) multiplier) 0%float then []
  else [CallSetTimeout (PrimFloat.mul (animationDelay o) multiplier)].



Definition scrollCalls (o : TextWriter) : list Call :=
  if scrollToTextEnabled o then
    match textDestinationContainer o with
    | Some c => [CallScrollIntoView c]
    | None => []
    end
  else [].

(** One step of the loop of [write], run to its end. *)
Definition htmlCharStep (multiplier : float) (t : Ref) (w : World) (char : string) : World :=
  mkWorld (this w)
          (Dom.insertAdjacentHTML t (spanMarkup char) (document w))
          (calls w ++ sleepCalls (this w) multiplier
                   ++ [CallInsertAdjacentHTML t (spanMarkup char)]
                   ++ scrollCalls (this w)).

(** One step of the loop of [writeJson], run to its end. *)
Definition textCharStep (multiplier : float) (t : Ref) (w : World) (char : string) : World :=
  mkWorld (this w)
          (Dom.insertAdjacentText t char (document w))
          (calls w ++ sleepCalls (this w) multiplier
                   ++ [CallInsertAdjacentText t char]
                   ++ scrollCalls (this w)).

(** The waits met when a task is run to completion, in order. *)
Fixpoint waitsAsync {A : Type} (p : Async A) (w : World) : list Wait :=
  match p with
  | Awaiting wt k => wt :: (let (w', p') := k w in waitsAsync p' w')
  | _ => []
  end.

Definition waits {A : Type} (t : Task A) (w : World) : list Wait :=
  let (w', p) := t w in waitsAsync p w'.

(** A call that completes before it returns to its caller. *)
Definition completesSynchronously {A : Type} (t : Task A) (w : World) : Prop :=
  exists w' a, t w = (w', Resolved a).

(** A pause-free write of a string, after the words of the specification:
    resolve the target, clear it when asked, append every character as a
    wrapped unit, with no suspension anywhere. *)
Definition writeSynchronously (s : string) (replace : bool) : Task unit :=
  targetElement <- getTargetElement ;;
  (if replace then Page.clearInnerHTML targetElement else ret tt) ;;
  forIn (fun char => writeHtmlChar char targetElement) (chars s).

(** Every synchronous stretch of an asynchronous function, whatever
    world it is resumed in, relates the world it finds to the world it
    leaves by [R]. *)
Inductive Stretches {A : Type} (R : World -> World -> Prop) : Async A -> Prop :=
| StretchesResolved : forall a, Stretches R (Resolved a)
| StretchesRejected : forall e, Stretches R (Rejected e)
| StretchesAwaiting : forall wt k,
    (forall w, R w (fst (k w))) ->
    (forall w, Stretches R (snd (k w))) ->
    Stretches R (Awaiting wt k).

Definition TaskStretches {A : Type} (R : World -> World -> Prop) (t : Task A) : Prop :=
  forall w, R w (fst (t w)) /\ Stretches R (snd (t w)).

(** The configuration is left as found. *)
Definition sameThis (w w' : World) : Prop := this w' = this w.

(** The configuration is left as found, but for the delay. *)
Definition sameButDelay (w w' : World) : Prop :=
  textDestinationContainer (this w') = textDestinationContainer (this w)
  /\ htmlWrapperTag (this w') = htmlWrapperTag (this w)
  /\ scrollToTextEnabled (this w') = scrollToTextEnabled (this w).


(** Run the calls [call x] for the [x] of a list one after the other,
    each in the world the one before left, up to the first that fails. *)
Fixpoint runEach {X : Type} (call : X -> Task unit) (l : list X)
    (start : World * Outcome unit) : World * Outcome unit :=
  match l with
  | [] => start
  | x :: rest =>
      match start with
      | (w, inr _) => runEach call rest (run (call x) w)
      | (w, inl e) => (w, inl e)
      end
  end.

(** The strings of a list, one after the other. *)
Definition joined (L : list string) : string :=
  fold_right String.append EmptyString L.

(** Go on from the result of a run. *)
Definition andThen {A B : Type} (r : World * Outcome A)
    (f : A -> World -> World * Outcome B) : World * Outcome B :=
  match r with
  | (w, inr a) => f a w
  | (w, inl e) => (w, inl e)
  end.

(** The world the lead delay of [write] leaves. *)
Definition leadWorld (delay : float) (w : World) : World :=
  if truthyNumber delay then logCall (CallSetTimeout delay) w else w.

(** The world [getTargetElement] leaves. *)
Definition targetWorld (w : World) : World :=
  match wrapperInForce (this w), textDestinationContainer (this w) with
  | Some tag, Some c =>
      logCall (CallInsertAdjacentHTML c (wrapperMarkup tag))
              (onDocument (Dom.insertAdjacentHTML c (wrapperMarkup tag)) w)
  | _, _ => w
  end.

(** The world [if(replace) targetElement.innerHTML = ''] leaves. *)
Definition clearWorld (replace : bool) (t : Ref) (w : World) : World :=
  if replace
  then logCall (CallSetInnerHTML t EmptyString) (onDocument (Dom.clearInnerHTML t) w)
  else w.

(** The world of [writeJson] after the [pre] element is appended. *)
Definition preWorld (c : Ref) (w : World) : World :=
  logCall (CallInsertAdjacentHTML c "<pre></pre>")
          (onDocument (Dom.insertAdjacentHTML c "<pre></pre>") w).

(** The value [writeJson] serializes. *)
Definition jsonValue {J : JSON} (arg : JsonArg) : option JsValue :=
  match arg with
  | ArgString s => JSON_parse s
  | ArgValue v => Some v
  end.

(** The calls of one character step of [write] and of [writeJson]. *)
Definition htmlCharCalls (o : TextWriter) (m : float) (t : Ref) (ch : string) : list Call :=
  sleepCalls o m ++ [CallInsertAdjacentHTML t (spanMarkup ch)] ++ scrollCalls o.

Definition textCharCalls (o : TextWriter) (m : float) (t : Ref) (ch : string) : list Call :=
  sleepCalls o m ++ [CallInsertAdjacentText t ch] ++ scrollCalls o.

(** How a change of the children of an element shows on the element. *)
Definition withChildren (f : list Node -> list Node) (e : Node) : Node :=
  match e with
  | Element r t i cs => Element r t i (f cs)
  | Text d => Text d
  end.

(** An asynchronous function that never parks: it has resolved or
    rejected when it returns. *)
Definition NeverParks {A : Type} (t : Task A) : Prop :=
  forall w, match snd (t w) with
            | Awaiting _ _ => False
            | _ => True
            end.

(** *** Pages and writers to evaluate on *)

Module Examples.

(** [<body><div id="box"></div></body>] *)
Definition page : Document :=
  mkDocument (Element 0 "body" EmptyString [Element 1 "div" "box" []]) 2.

(** [<body><div id="box"><div><pre>old</pre></div></div></body>] *)
Definition pageWithPre : Document :=
  mkDocument
    (Element 0 "body" EmptyString
       [Element 1 "div" "box"
          [Element 2 "div" EmptyString [Element 3 "pre" EmptyString [Text "old"]]]])
    4.

(** [new TextWriter('box')] *)
Definition writer : World := newTextWriter "box" false page.

(** [new TextWriter('box')] after [setAnimationDelay(0)] *)
Definition instantWriter : World := setAnimationDelay 0%float writer.

(** [new TextWriter('box')] after [setHtmlWrapperTag('span')] *)
Definition spanWriter : World := setHtmlWrapperTag (Some "span") writer.

(** [new TextWriter('box')] after [setHtmlWrapperTag('p')] *)
Definition paragraphWriter : World := setHtmlWrapperTag (Some "p") writer.

(** [new TextWriter('box')] on the page that already holds a [pre]. *)
Definition preWriter : World := newTextWriter "box" false pageWithPre.

(** The text [{"a":1}] *)
Definition jsonText : string :=
  "{" ++ MiniJSON.quote "a" ++ ":1}".

End Examples.

Open Scope list_scope.

(* ================================================================= *)
(** ** Vocabulary of the further properties *)

(** The [scrollIntoView] calls of a log, in order. *)
Definition scrolls (l : list Call) : list Ref :=
  flat_map (fun c => match c with
                     | CallScrollIntoView t => [t]
                     | _ => []
                     end) l.

(** The timer of the lead delay, if any. *)
Definition leadCalls (delay : float) : list Call :=
  if truthyNumber delay then [CallSetTimeout delay] else [].

(** The insertion of the wrapper, if any. *)
Definition wrapperCalls (o : TextWriter) : list Call :=
  match wrapperInForce o, textDestinationContainer o with
  | Some tag, Some c => [CallInsertAdjacentHTML c (wrapperMarkup tag)]
  | _, _ => []
  end.

(** The clearing of the target, if any. *)
Definition clearCalls (replace : bool) (t : Ref) : list Call :=
  if replace then [CallSetInnerHTML t EmptyString] else [].

(** The world the first pause of the loop leaves, when there is a
    character to write. *)
Definition firstPauseWorld (s : string) (m : float) (w : World) : World :=
  match s with
  | EmptyString => w
  | String _ _ =>
      mkWorld (this w) (document w) (calls w ++ sleepCalls (this w) m)
  end.

(** JavaScript values beyond JSON data, to evaluate the failures on:
    [undefined], for which [JSON.stringify] returns [undefined], and an
    object that refers to itself, for which it throws. *)
Inductive EdgeValue : Type :=
| EdgeUndefined
| EdgeCyclic
| EdgeData (v : MiniJSON.value).

Definition edgeJSON : JSON := {|
  JsValue := EdgeValue;
  JSON_parse := fun s => option_map EdgeData (MiniJSON.parse s);
  JSON_stringify := fun v space =>
    match v with
    | EdgeUndefined => Undefined
    | EdgeCyclic => Throws
    | EdgeData d => MiniJSON.stringify d space
    end
|}.

(** The references of the elements of a tree, in tree order. *)
Fixpoint refs (n : Node) : list Ref :=
  match n with
  | Text _ => []
  | Element r _ _ cs => r :: flat_map refs cs
  end.

Fixpoint distinct (l : list Ref) : bool :=
  match l with
  | [] => true
  | x :: rest => negb (existsb (Nat.eqb x) rest) && distinct rest
  end.

(** A page as a browser holds it: no two elements are the same object,
    and the next reference is unused. *)
Definition wellFormed (d : Document) : bool :=
  distinct (refs (root d)) && forallb (fun r => (r <? nextRef d)%nat) (refs (root d)).

(** Two lookups find elements with the same tag and id, or both find
    nothing. *)
Definition sameHead (a b : option Node) : Prop :=
  match a, b with
  | Some (Element _ t i _), Some (Element _ u j _) => t = u /\ i = j
  | None, None => True
  | _, _ => False
  end.

(** No element named [tag] below one of the nodes is the last of its
    type among its siblings. *)
Definition noneNested (tag : string) (nodes : list Node) : bool :=
  forallb (fun x => match queryLastOfType (fun _ => false) tag true x with
                    | Some _ => false
                    | None => true
                    end) nodes.

(** The strings of a content, in the order a depth-first walk meets them. *)
Fixpoint flatten (text : Content) : list string :=
  match text with
  | Str s => [s]
  | Arr items => flat_map flatten items
  end.

(** What is left of the call [t], started in the world [w], run to its
    end from the world [w'] it is resumed in. *)
Definition resume {A : Type} (t : Task A) (w w' : World) : World * Outcome A :=
  runAsync (snd (t w)) w'.

(** The turns of two asynchronous functions that park on microtasks only:
    the microtask queue resumes them alternately, the first one first,
    until one has ended; the other then runs to its end. *)
Fixpoint runAlternately {A B : Type} (p : Async A) (q : Async B) (w : World)
    : World * (Outcome A * Outcome B) :=
  match p with
  | Resolved a => let (w', b) := runAsync q w in (w', (inr a, b))
  | Rejected e => let (w', b) := runAsync q w in (w', (inl e, b))
  | Awaiting _ k =>
      let (w1, p') := k w in
      match q with
      | Resolved b => let (w', a) := runAsync p' w1 in (w', (a, inr b))
      | Rejected e => let (w', a) := runAsync p' w1 in (w', (a, inl e))
      | Awaiting _ k' => let (w2, q') := k' w1 in runAlternately p' q' w2
      end
  end.

(** [t1(); t2()] in one script: each call runs to its first [await], then
    the two take turns. *)
Definition runTogether {A B : Type} (t1 : Task A) (t2 : Task B) (w : World)
    : World * (Outcome A * Outcome B) :=
  let (w1, p) := t1 w in
  let (w2, q) := t2 w1 in
  runAlternately p q w2.

Fixpoint interleave {X : Type} (a b : list X) : list X :=
  match a, b with
  | [], _ => b
  | _, [] => a
  | x :: a', y :: b' => x :: y :: interleave a' b'
  end.

(** What is left of a loop of [write] that appends the characters [cs]
    to [t], one per turn, when it is resumed by a writer that reads as
    [o]. *)
Inductive Appends (o : TextWriter) (m : float) (t : Ref)
    : list string -> Async unit -> Prop :=
| AppendsNone : Appends o m t [] (Resolved tt)
| AppendsOne : forall ch cs k,
    (forall w, this w = o -> fst (k w) = htmlCharStep m t w ch) ->
    (forall w, this w = o -> Appends o m t cs (snd (k w))) ->
    Appends o m t (ch :: cs) (Awaiting Microtask k).

(* ================================================================= *)
(** ** Facts about the page *)

Section NodeInduction.
Variable P : Node -> Prop.
Hypothesis PText : forall d, P (Text d).
Hypothesis PElement : forall r t i cs, Forall P cs -> P (Element r t i cs).

Fixpoint Node_induction (n : Node) : P n :=
  match n with
  | Text d => PText d
  | Element r t i cs =>
      PElement r t i cs
        ((fix all (l : list Node) : Forall P l :=
            match l with
            | [] => Forall_nil P
            | c :: rest => Forall_cons c (Node_induction c) (all rest)
            end) cs)
  end.
End NodeInduction.

Lemma firstSome_map_None {A B : Type} (f : A -> option B) (l : list A) :
  Forall (fun x => f x = None) l -> firstSome (map f l) = None.
Proof.
  induction 1 as [|x l Hx _ IH]; simpl; [reflexivity|].
  now rewrite Hx.
Qed.

Lemma firstSome_map_Some {A B : Type} (f : A -> option B) (l : list A) (b : B) :
  firstSome (map f l) = Some b -> exists x, In x l /\ f x = Some b.
Proof.
  induction l as [|x l IH]; simpl; [discriminate|].
  destruct (f x) as [b'|] eqn:E.
  - intros [= <-]. exists x. auto.
  - intros H. destruct (IH H) as (y & Hy & Hfy). exists y. auto.
Qed.

Lemma firstSome_map_In {A B : Type} (f : A -> option B) (l : list A) (x : A) :
  In x l -> f x <> None -> firstSome (map f l) <> None.
Proof.
  induction l as [|y l IH]; simpl; [tauto|].
  intros [->|Hin] Hx.
  - destruct (f x); [discriminate|contradiction].
  - destruct (f y); [discriminate|auto].
Qed.

(** The element found is an element bearing the reference asked for. *)
Lemma findElement_ref (r : Ref) (n e : Node) :
  findElement r n = Some e -> exists t i cs, e = Element r t i cs.
Proof.
  revert e. induction n as [d|r' t i cs IH] using Node_induction; simpl; intros e H.
  - discriminate.
  - destruct (Nat.eqb_spec r' r) as [->|Hne].
    + injection H as <-. eauto.
    + apply firstSome_map_Some in H. destruct H as (x & Hin & Hx).
      rewrite Forall_forall in IH. eauto.
Qed.

Lemma findElement_updateChildren (r : Ref) (f : list Node -> list Node) (n : Node) :
  findElement r (updateChildren r f n) = option_map (withChildren f) (findElement r n).
Proof.
  induction n as [d|r' t i cs IH] using Node_induction; simpl; [reflexivity|].
  destruct (Nat.eqb_spec r' r) as [->|Hne]; simpl.
  - now rewrite Nat.eqb_refl.
  - destruct (Nat.eqb_spec r' r) as [|_]; [contradiction|].
    induction IH as [|c rest Hc _ IHrest]; simpl; [reflexivity|].
    rewrite Hc. destruct (findElement r c); simpl; [reflexivity|exact IHrest].
Qed.

Lemma childNodesOf_updateChildren (r : Ref) (f : list Node -> list Node) (n : Node) :
  childNodesOf r (updateChildren r f n) = option_map f (childNodesOf r n).
Proof.
  unfold childNodesOf. rewrite findElement_updateChildren.
  destruct (findElement r n) as [[? ? ? ?|?]|]; reflexivity.
Qed.

Lemma idOf_updateChildren (r : Ref) (f : list Node -> list Node) (n : Node) :
  idOf r (updateChildren r f n) = idOf r n.
Proof.
  unfold idOf. rewrite findElement_updateChildren.
  destruct (findElement r n) as [[? ? ? ?|?]|]; reflexivity.
Qed.

Lemma idOf_Some_childNodesOf (r : Ref) (n : Node) (i : string) :
  idOf r n = Some i -> exists cs, childNodesOf r n = Some cs.
Proof.
  unfold idOf, childNodesOf.
  destruct (findElement r n) as [[? ? ? cs|?]|]; try discriminate. eauto.
Qed.

Lemma updateChildren_absent (c : Ref) (f : list Node -> list Node) (n : Node) :
  findElement c n = None -> updateChildren c f n = n.
Proof.
  induction n as [d|r t i cs IH] using Node_induction; simpl; [reflexivity|].
  destruct (Nat.eqb r c); [discriminate|]. intros H. f_equal.
  induction IH as [|x rest Hx _ IHrest]; simpl in *; [reflexivity|].
  destruct (findElement c x) eqn:E; [discriminate|].
  now rewrite Hx, IHrest.
Qed.

(** *** The selector finds the element just appended, or an earlier match *)

Lemma queryChildren_last (tag : string) (below : Node -> option Ref)
    (cs : list Node) (r : Ref) (i : string) (kids : list Node) :
  queryChildren tag true below (cs ++ [Element r tag i kids]) <> None.
Proof.
  induction cs as [|c cs IH]; simpl.
  - unfold lastOfType. simpl. rewrite String.eqb_refl. simpl. discriminate.
  - destruct (lastOfType tag c (cs ++ [Element r tag i kids])) eqn:E.
    + unfold lastOfType in E. apply andb_prop in E. destruct E as [E _].
      destruct c; [discriminate|discriminate E].
    + destruct (below c); [discriminate|exact IH].
Qed.

Lemma queryChildren_below (tag : string) (inside : bool)
    (below : Node -> option Ref) (l : list Node) (c : Node) :
  In c l -> below c <> None -> queryChildren tag inside below l <> None.
Proof.
  induction l as [|x l IH]; simpl; [tauto|].
  intros Hin Hc.
  destruct (inside && lastOfType tag x l) eqn:E.
  - apply andb_prop in E. destruct E as [_ E]. unfold lastOfType in E.
    apply andb_prop in E. destruct E as [E _].
    destruct x; [discriminate|discriminate E].
  - destruct Hin as [->|Hin].
    + destruct (below c); [discriminate|contradiction].
    + destruct (below x); [discriminate|auto].
Qed.

Lemma query_after_append (scope : string -> bool) (tag : string) (c new : Ref)
    (i0 newId : string) (kids : list Node) (n : Node) (inside : bool) :
  idOf c n = Some i0 -> scope i0 = true ->
  queryLastOfType scope tag inside
    (updateChildren c (fun cs => (cs ++ [Element new tag newId kids])%list) n) <> None.
Proof.
  revert inside.
  induction n as [d|r t i cs IH] using Node_induction; intros inside Hid Hscope.
  - discriminate.
  - unfold idOf in Hid. simpl in *.
    destruct (Nat.eqb_spec r c) as [->|Hne]; simpl.
    + injection Hid as ->. rewrite Hscope, orb_true_r.
      apply queryChildren_last.
    + destruct (firstSome (map (findElement c) cs)) as [e|] eqn:E; [|discriminate].
      apply firstSome_map_Some in E. destruct E as (x & Hin & Hx).
      rewrite Forall_forall in IH.
      apply queryChildren_below with
        (c := updateChildren c (fun cs0 => (cs0 ++ [Element new tag newId kids])%list) x).
      * now apply in_map.
      * apply IH; [exact Hin| |exact Hscope].
        unfold idOf. rewrite Hx. exact Hid.
Qed.

(** The selector returns an element of the tree it searched. *)
Lemma queryLastOfType_attached (scope : string -> bool) (tag : string) (n : Node) :
  forall inside r, queryLastOfType scope tag inside n = Some r ->
                   findElement r n <> None.
Proof.
  induction n as [d|r0 t i cs IH] using Node_induction; intros inside r H.
  - discriminate.
  - simpl in *. destruct (Nat.eqb r0 r); [discriminate|].
    revert H. generalize (inside || scope i). intros b.
    induction IH as [|c rest Hc _ IHrest]; simpl; [discriminate|].
    destruct (b && lastOfType tag c rest) eqn:E.
    + intros H. destruct c as [rc tc ic kc|]; [|discriminate].
      injection H as ->. simpl. now rewrite Nat.eqb_refl.
    + destruct (queryLastOfType scope tag b c) as [r'|] eqn:Q.
      * intros [= ->]. specialize (Hc _ _ Q).
        destruct (findElement r c); [discriminate|contradiction].
      * intros H. specialize (IHrest H).
        destruct (findElement r c); [discriminate|exact IHrest].
Qed.

(** *** Markup the fragment parser reads *)

Lemma allChars_impl (p q : ascii -> bool) (s : string) :
  (forall x, p x = true -> q x = true) -> allChars p s = true -> allChars q s = true.
Proof.
  intros Hpq. induction s as [|c s IH]; simpl; [reflexivity|].
  intros H. apply andb_prop in H. destruct H as [Hc Hs].
  now rewrite (Hpq _ Hc), IH.
Qed.

Lemma name_char_not_gt (x : ascii) :
  isLower x || isDigit x = true -> negb (Ascii.eqb x ">"%char) = true.
Proof.
  destruct (Ascii.eqb_spec x ">"%char) as [->|_]; [|reflexivity].
  vm_compute. discriminate.
Qed.

Lemma plainName_no_gt (t : string) :
  plainName t = true -> allChars (fun x => negb (Ascii.eqb x ">"%char)) t = true.
Proof.
  destruct t as [|c t]; simpl; [discriminate|]. intros H.
  apply andb_prop in H. destruct H as [Hc Ht].
  rewrite name_char_not_gt by (now rewrite Hc). simpl.
  revert Ht. apply allChars_impl. exact name_char_not_gt.
Qed.

Lemma validTag_plainName (t : string) : validTag t = true -> plainName t = true.
Proof. unfold validTag. intros H. now apply andb_prop in H. Qed.

(** A plain name is an identifier of CSS. *)
Lemma plainName_cssIdentifier (t : string) :
  plainName t = true -> cssIdentifier t = true.
Proof.
  destruct t as [|c t]; simpl; [discriminate|]. intros H.
  apply andb_prop in H. destruct H as [Hc Ht].
  assert (Hminus : Ascii.eqb c "-"%char = false).
  { destruct (Ascii.eqb_spec c "-"%char) as [->|_]; [|reflexivity].
    vm_compute in Hc. discriminate Hc. }
  rewrite Hminus. unfold identStart at 1. rewrite Hc. simpl.
  revert Ht. apply allChars_impl. intros x Hx. unfold identChar, identStart.
  apply orb_prop in Hx. destruct Hx as [-> | ->]; simpl; [reflexivity|].
  now rewrite !orb_true_r.
Qed.

Lemma splitAt_stop (stop : ascii) (t rest : string) :
  allChars (fun x => negb (Ascii.eqb x stop)) t = true ->
  splitAt stop (t ++ String stop rest) = Some (t, rest).
Proof.
  induction t as [|c t IH]; simpl.
  - now rewrite Ascii.eqb_refl.
  - intros H. apply andb_prop in H. destruct H as [Hc Ht].
    apply negb_true_iff in Hc. now rewrite Hc, IH.
Qed.

Lemma length_append (a b : string) :
  String.length (a ++ b) = String.length a + String.length b.
Proof. induction a as [|c a IH]; simpl; congruence. Qed.

Lemma eqb_longer (c suffix : string) :
  c <> EmptyString -> String.eqb (c ++ suffix) suffix = false.
Proof.
  intros Hc. apply String.eqb_neq. intros E.
  apply (f_equal String.length) in E. rewrite length_append in E.
  destruct c; [contradiction|simpl in E; lia].
Qed.

Lemma stripSuffix_unfold (suffix s : string) :
  stripSuffix suffix s
  = if String.eqb s suffix then Some EmptyString
    else match s with
         | EmptyString => None
         | String c rest =>
             match stripSuffix suffix rest with
             | Some before => Some (String c before)
             | None => None
             end
         end.
Proof. destruct s; reflexivity. Qed.

Lemma stripSuffix_app (suffix c : string) :
  stripSuffix suffix (c ++ suffix) = Some c.
Proof.
  induction c as [|a c IH]; rewrite stripSuffix_unfold.
  - simpl. now rewrite String.eqb_refl.
  - rewrite eqb_longer by discriminate. simpl. now rewrite IH.
Qed.

Lemma parseFragment_element (t c : string) :
  plainName t = true ->
  String.eqb c EmptyString || (String.eqb t "span" && (String.length c <=? 1)%nat) = true ->
  parseFragment (String "<"%char (t ++ String ">"%char (c ++ "</" ++ t ++ ">")))
  = Some (t, c).
Proof.
  intros Ht Hc. unfold parseFragment.
  rewrite splitAt_stop by (now apply plainName_no_gt).
  now rewrite Ht, stripSuffix_app, Hc.
Qed.

Lemma parseFragment_wrapper (tag : string) :
  plainName tag = true -> parseFragment (wrapperMarkup tag) = Some (tag, EmptyString).
Proof.
  intros Ht. now apply (parseFragment_element tag EmptyString Ht).
Qed.

Lemma parseFragment_span (char : string) :
  String.length char <= 1 -> parseFragment (spanMarkup char) = Some ("span", char).
Proof.
  intros Hc. apply (parseFragment_element "span" char); [reflexivity|].
  apply Nat.leb_le in Hc. rewrite Hc. now rewrite orb_true_r.
Qed.

Lemma existsb_eqb_false (t : string) (l : list string) (x : string) :
  existsb (String.eqb t) l = false -> In x l -> String.eqb t x = false.
Proof.
  intros H Hin. destruct (String.eqb t x) eqn:E; [|reflexivity].
  assert (existsb (String.eqb t) l = true)
    by (apply existsb_exists; exists x; auto).
  congruence.
Qed.

Lemma validTag_not_special (t x : string) :
  validTag t = true -> In x specialTags -> String.eqb t x = false.
Proof.
  unfold validTag. intros H Hin. apply andb_prop in H. destruct H as [_ H].
  apply negb_true_iff in H. now apply existsb_eqb_false with specialTags.
Qed.

Lemma existsb_eqb_sublist (t : string) (l l' : list string) :
  (forall x, In x l -> In x l') ->
  existsb (String.eqb t) l' = false -> existsb (String.eqb t) l = false.
Proof.
  intros Hsub H. destruct (existsb (String.eqb t) l) eqn:E; [|reflexivity].
  apply existsb_exists in E. destruct E as (x & Hx & Ex).
  now rewrite (existsb_eqb_false t l' x H (Hsub x Hx)) in Ex.
Qed.

(** An ordinary name makes an element that reads markup as markup. *)
Lemma validTag_contentModel (t : string) : validTag t = true -> contentModel t = Markup.
Proof.
  intros H. pose proof H as H'. unfold validTag in H'.
  apply andb_prop in H'. destruct H' as [_ H']. apply negb_true_iff in H'.
  unfold contentModel.
  rewrite (existsb_eqb_sublist t rawTextTags specialTags); [|
    intros x Hx; unfold specialTags; rewrite !in_app_iff; tauto|exact H'].
  rewrite (existsb_eqb_sublist t ownModeTags specialTags); [reflexivity|
    intros x Hx; unfold specialTags; rewrite !in_app_iff; tauto|exact H'].
Qed.

(** The markup of an ordinary name makes one element of that name. *)
Lemma fragmentNodes_valid (start : Ref) (t c : string) :
  validTag t = true ->
  fragmentNodes start t c = [Element start t EmptyString (textNodes c)].
Proof.
  intros H. pose proof H as H'. unfold validTag in H'.
  apply andb_prop in H'. destruct H' as [_ H']. apply negb_true_iff in H'.
  unfold fragmentNodes.
  rewrite (existsb_eqb_sublist t droppedTags specialTags); [|
    intros x Hx; unfold specialTags; rewrite !in_app_iff; tauto|exact H'].
  rewrite (validTag_not_special t "image" H) by (vm_compute; tauto).
  rewrite (validTag_not_special t "br" H) by (vm_compute; tauto).
  rewrite (validTag_not_special t "plaintext" H) by (vm_compute; tauto).
  reflexivity.
Qed.

(** *** The context of an insertion *)

Lemma tagOf_updateChildren (r : Ref) (f : list Node -> list Node) (n : Node) :
  tagOf r (updateChildren r f n) = tagOf r n.
Proof.
  unfold tagOf. rewrite findElement_updateChildren.
  destruct (findElement r n) as [[? ? ? ?|?]|]; reflexivity.
Qed.

(** What [insertAdjacentHTML] makes of the markup of an ordinary element
    under a target that reads markup. *)
Lemma insertAdjacentHTML_markup (t : Ref) (d : Document) (html name content : string) :
  takesMarkup t d = true ->
  parseFragment html = Some (name, content) ->
  validTag name = true ->
  Dom.insertAdjacentHTML t html d
  = mkDocument
      (updateChildren t
         (fun cs => cs ++ [Element (nextRef d) name EmptyString (textNodes content)])
         (root d))
      (S (nextRef d)).
Proof.
  unfold takesMarkup, Dom.insertAdjacentHTML. intros Ht Hparse Hvalid.
  destruct (tagOf t (root d)) as [context|]; [|discriminate].
  destruct (contentModel context); try discriminate.
  now rewrite Hparse, (fragmentNodes_valid _ _ _ Hvalid).
Qed.

Lemma insertAdjacentHTML_span (t : Ref) (d : Document) (ch : string) :
  takesMarkup t d = true ->
  String.length ch <= 1 ->
  Dom.insertAdjacentHTML t (spanMarkup ch) d
  = mkDocument
      (updateChildren t
         (fun cs => cs ++ [Element (nextRef d) "span" EmptyString (textNodes ch)])
         (root d))
      (S (nextRef d)).
Proof.
  intros Ht Hch.
  now apply insertAdjacentHTML_markup; [|apply parseFragment_span|].
Qed.

Lemma insertAdjacentHTML_wrapper (t : Ref) (d : Document) (tag : string) :
  takesMarkup t d = true ->
  validTag tag = true ->
  Dom.insertAdjacentHTML t (wrapperMarkup tag) d
  = mkDocument
      (updateChildren t
         (fun cs => cs ++ [Element (nextRef d) tag EmptyString []])
         (root d))
      (S (nextRef d)).
Proof.
  intros Ht Hvalid.
  now apply (insertAdjacentHTML_markup t d (wrapperMarkup tag) tag EmptyString);
    [|apply parseFragment_wrapper, validTag_plainName|].
Qed.

(** An insertion into an element leaves the tag and the id of that
    element. *)
Lemma findElement_insertAdjacentHTML (t : Ref) (html : string) (d : Document) :
  exists f, findElement t (root (Dom.insertAdjacentHTML t html d))
            = option_map (withChildren f) (findElement t (root d)).
Proof.
  assert (Hsame : findElement t (root d)
                  = option_map (withChildren (fun cs => cs)) (findElement t (root d))).
  { destruct (findElement t (root d)) as [[? ? ? ?|?]|]; reflexivity. }
  unfold Dom.insertAdjacentHTML.
  destruct (tagOf t (root d)) as [context|]; [|eauto].
  destruct (contentModel context); [|cbn [root]; eexists; apply findElement_updateChildren|eauto].
  destruct (parseFragment html) as [[name content]|]; [|eauto].
  cbn [root]; eexists; apply findElement_updateChildren.
Qed.

Lemma tagOf_insertAdjacentHTML (t : Ref) (html : string) (d : Document) :
  tagOf t (root (Dom.insertAdjacentHTML t html d)) = tagOf t (root d).
Proof.
  destruct (findElement_insertAdjacentHTML t html d) as [f Hf].
  unfold tagOf. rewrite Hf.
  destruct (findElement t (root d)) as [[? ? ? ?|?]|]; reflexivity.
Qed.

Lemma idOf_insertAdjacentHTML_same (t : Ref) (html : string) (d : Document) :
  idOf t (root (Dom.insertAdjacentHTML t html d)) = idOf t (root d).
Proof.
  destruct (findElement_insertAdjacentHTML t html d) as [f Hf].
  unfold idOf. rewrite Hf.
  destruct (findElement t (root d)) as [[? ? ? ?|?]|]; reflexivity.
Qed.

Lemma takesMarkup_insertAdjacentHTML (t : Ref) (html : string) (d : Document) :
  takesMarkup t (Dom.insertAdjacentHTML t html d) = takesMarkup t d.
Proof. unfold takesMarkup. now rewrite tagOf_insertAdjacentHTML. Qed.

Lemma takesMarkup_clearInnerHTML (t : Ref) (d : Document) :
  takesMarkup t (Dom.clearInnerHTML t d) = takesMarkup t d.
Proof. unfold takesMarkup. cbn [Dom.clearInnerHTML root]. now rewrite tagOf_updateChildren. Qed.

(** *** Pages without duplicate references *)

Lemma distinct_NoDup (l : list Ref) : distinct l = true -> NoDup l.
Proof.
  induction l as [|x l IH]; cbn; [constructor|].
  intros H. apply andb_prop in H. destruct H as [Hx Hl].
  constructor; [|auto]. intros Hin. apply negb_true_iff in Hx.
  assert (existsb (Nat.eqb x) l = true)
    by (apply existsb_exists; exists x; split; [exact Hin|apply Nat.eqb_refl]).
  congruence.
Qed.

Lemma NoDup_distinct (l : list Ref) : NoDup l -> distinct l = true.
Proof.
  induction 1 as [|x l Hx _ IH]; cbn; [reflexivity|].
  rewrite IH, andb_true_r. apply negb_true_iff.
  destruct (existsb (Nat.eqb x) l) eqn:E; [|reflexivity].
  apply existsb_exists in E. destruct E as (y & Hy & Ey).
  apply Nat.eqb_eq in Ey. now subst.
Qed.

Lemma findElement_in_refs (c : Ref) (n e : Node) :
  findElement c n = Some e -> In c (refs n).
Proof.
  revert e. induction n as [d|r t i cs IH] using Node_induction; intros e; cbn;
    [discriminate|].
  destruct (Nat.eqb_spec r c) as [->|_]; [auto|].
  intros H. right. apply firstSome_map_Some in H. destruct H as (x & Hx & Ex).
  rewrite Forall_forall in IH. apply in_flat_map. exists x. eauto.
Qed.

Lemma findElement_not_in_refs (c : Ref) (n : Node) :
  ~ In c (refs n) -> findElement c n = None.
Proof.
  intros H. destruct (findElement c n) as [e|] eqn:E; [|reflexivity].
  exfalso. apply H. eapply findElement_in_refs. exact E.
Qed.

Lemma NoDup_app_disjoint {A : Type} (a b : list A) (x : A) :
  NoDup (a ++ b) -> In x a -> In x b -> False.
Proof.
  induction a as [|y a IH]; cbn; [tauto|].
  intros Hnd [->|Ha] Hb.
  - apply NoDup_cons_iff in Hnd. destruct Hnd as [Hx _].
    apply Hx. apply in_or_app. now right.
  - apply NoDup_cons_iff in Hnd. destruct Hnd as [_ Hnd]. now apply IH.
Qed.

Lemma NoDup_flat_map_first {A : Type} (f : A -> list Ref) (l1 l2 : list A) (x : A)
    (c : Ref) :
  NoDup (flat_map f (l1 ++ x :: l2)) -> In c (f x) ->
  Forall (fun y => ~ In c (f y)) l1.
Proof.
  induction l1 as [|y l1 IH]; cbn; [constructor|].
  intros Hnd Hc. apply NoDup_app_remove_l in Hnd as Hrest.
  constructor; [|now apply IH].
  intros Hy. apply (NoDup_app_disjoint _ _ c Hnd Hy).
  apply in_flat_map. exists x. split; [|exact Hc].
  apply in_or_app. right. left. reflexivity.
Qed.





Lemma length_charAt (s : string) (i : nat) : String.length (charAt s i) <= 1.
Proof. unfold charAt. destruct (String.get i s); simpl; lia. Qed.

Lemma length_chars (s : string) : Forall (fun c => String.length c <= 1) (chars s).
Proof. induction s; simpl; constructor; simpl; auto. Qed.

Lemma chars_length (s : string) : List.length (chars s) = String.length s.
Proof. induction s; simpl; congruence. Qed.

(** The loop index visits the characters from left to right. *)
Lemma charAt_seq (s : string) :
  map (charAt s) (seq 0 (String.length s)) = chars s.
Proof.
  induction s as [|c s IH]; simpl; [reflexivity|].
  f_equal. rewrite <- seq_shift, map_map. exact IH.
Qed.

Section ContentInduction.
Variable P : Content -> Prop.
Hypothesis PStr : forall s, P (Str s).
Hypothesis PArr : forall items, Forall P items -> P (Arr items).

Fixpoint Content_induction (c : Content) : P c :=
  match c with
  | Str s => PStr s
  | Arr items =>
      PArr items ((fix all (l : list Content) : Forall P l :=
               match l with
               | [] => Forall_nil P
               | x :: rest => Forall_cons x (Content_induction x) (all rest)
               end) items)
  end.
End ContentInduction.

(* ================================================================= *)
(** ** Facts about asynchronous functions *)

Section AsyncInduction.
Variable A : Type.
Variable P : Async A -> Prop.
Hypothesis PResolved : forall a, P (Resolved a).
Hypothesis PRejected : forall e, P (Rejected e).
Hypothesis PAwaiting : forall wt k, (forall w, P (snd (k w))) -> P (Awaiting wt k).

Fixpoint Async_induction (p : Async A) : P p :=
  match p with
  | Resolved a => PResolved a
  | Rejected e => PRejected e
  | Awaiting wt k => PAwaiting wt k (fun w => Async_induction (snd (k w)))
  end.
End AsyncInduction.

Lemma runAsync_bindAsync {A B : Type} (p : Async A) (f : A -> Task B) (w : World) :
  (let (w1, q) := bindAsync p f w in runAsync q w1)
  = andThen (runAsync p w) (fun a => run (f a)).
Proof.
  revert w. induction p as [a|e|wt k IH] using Async_induction; intros w; simpl.
  - reflexivity.
  - reflexivity.
  - specialize (IH w). destruct (k w) as [w'' p']. simpl in IH. apply IH.
Qed.

Lemma run_bind {A B : Type} (t : Task A) (f : A -> Task B) (w : World) :
  run (bind t f) w = andThen (run t w) (fun a => run (f a)).
Proof.
  unfold run, bind. destruct (t w) as [w' p]. apply runAsync_bindAsync.
Qed.

Lemma run_ret {A : Type} (a : A) (w : World) : run (ret a) w = (w, inr a).
Proof. reflexivity. Qed.

Lemma run_throw {A : Type} (e : Exn) (w : World) : run (throw e : Task A) w = (w, inl e).
Proof. reflexivity. Qed.

Lemma run_gets {A : Type} (f : World -> A) (w : World) : run (gets f) w = (w, inr (f w)).
Proof. reflexivity. Qed.

Lemma run_modify (f : World -> World) (w : World) : run (modify f) w = (f w, inr tt).
Proof. reflexivity. Qed.

Lemma run_await (v : Awaitable) (w : World) : run (await v) w = (w, inr tt).
Proof. reflexivity. Qed.

Lemma run_newTimeoutPromise (ms : float) (w : World) :
  run (newTimeoutPromise ms) w = (logCall (CallSetTimeout ms) w, inr (PromiseTimeout ms)).
Proof. reflexivity. Qed.

Lemma run_awaitPromise {A : Type} (t : Task A) (w : World) :
  run (awaitPromise t) w = run t w.
Proof.
  unfold awaitPromise. rewrite run_bind.
  destruct (run t w) as [w' [e|a]]; reflexivity.
Qed.

Lemma waitsAsync_bindAsync {A B : Type} (p : Async A) (f : A -> Task B) (w : World) :
  (let (w1, q) := bindAsync p f w in waitsAsync q w1)
  = (waitsAsync p w ++ match runAsync p w with
                       | (w', inr a) => waits (f a) w'
                       | (_, inl _) => []
                       end)%list.
Proof.
  revert w. induction p as [a|e|wt k IH] using Async_induction; intros w; simpl.
  - reflexivity.
  - reflexivity.
  - f_equal. specialize (IH w). destruct (k w) as [w'' p']. simpl in IH. apply IH.
Qed.

Lemma waits_bind {A B : Type} (t : Task A) (f : A -> Task B) (w : World) :
  waits (bind t f) w
  = (waits t w ++ match run t w with
                  | (w', inr a) => waits (f a) w'
                  | (_, inl _) => []
                  end)%list.
Proof.
  unfold waits, run, bind. destruct (t w) as [w' p]. apply waitsAsync_bindAsync.
Qed.

(** *** Stretches of composed functions *)

Lemma Stretches_bindAsync {A B : Type} (R : World -> World -> Prop)
    (p : Async A) (f : A -> Task B) :
  (forall w, R w w) ->
  (forall w1 w2 w3, R w1 w2 -> R w2 w3 -> R w1 w3) ->
  (forall a, TaskStretches R (f a)) ->
  Stretches R p ->
  forall w, R w (fst (bindAsync p f w)) /\ Stretches R (snd (bindAsync p f w)).
Proof.
  intros Hrefl Htrans Hf Hp.
  induction Hp as [a|e|wt k HR _ IH]; intros w; simpl.
  - apply Hf.
  - split; [apply Hrefl|constructor].
  - split; [apply Hrefl|].
    constructor; intros w'; specialize (HR w'); specialize (IH w');
      destruct (k w') as [w'' p']; simpl in *.
    + apply Htrans with w''; [exact HR|apply IH].
    + apply IH.
Qed.

Lemma TaskStretches_bind {A B : Type} (R : World -> World -> Prop)
    (t : Task A) (f : A -> Task B) :
  (forall w, R w w) ->
  (forall w1 w2 w3, R w1 w2 -> R w2 w3 -> R w1 w3) ->
  TaskStretches R t ->
  (forall a, TaskStretches R (f a)) ->
  TaskStretches R (bind t f).
Proof.
  intros Hrefl Htrans Ht Hf w. unfold bind.
  destruct (Ht w) as [H1 H2]. destruct (t w) as [w' p]. simpl in *.
  destruct (Stretches_bindAsync R p f Hrefl Htrans Hf H2 w') as [H3 H4].
  split; [apply Htrans with w'; assumption|assumption].
Qed.

Lemma TaskStretches_ret {A : Type} (R : World -> World -> Prop) (a : A) :
  (forall w, R w w) -> TaskStretches R (ret a).
Proof. intros Hrefl w. split; [apply Hrefl|constructor]. Qed.

Lemma TaskStretches_throw {A : Type} (R : World -> World -> Prop) (e : Exn) :
  (forall w, R w w) -> TaskStretches R (throw e : Task A).
Proof. intros Hrefl w. split; [apply Hrefl|constructor]. Qed.

Lemma TaskStretches_gets {A : Type} (R : World -> World -> Prop) (f : World -> A) :
  (forall w, R w w) -> TaskStretches R (gets f).
Proof. intros Hrefl w. split; [apply Hrefl|constructor]. Qed.

Lemma TaskStretches_modify (R : World -> World -> Prop) (f : World -> World) :
  (forall w, R w (f w)) -> TaskStretches R (modify f).
Proof. intros Hf w. split; [apply Hf|constructor]. Qed.

Lemma TaskStretches_await (R : World -> World -> Prop) (v : Awaitable) :
  (forall w, R w w) -> TaskStretches R (await v).
Proof.
  intros Hrefl w. split; [apply Hrefl|].
  constructor; intros w'; simpl; [apply Hrefl|constructor].
Qed.

Lemma TaskStretches_forRange (R : World -> World -> Prop) (body : nat -> Task unit) :
  (forall w, R w w) ->
  (forall w1 w2 w3, R w1 w2 -> R w2 w3 -> R w1 w3) ->
  (forall i, TaskStretches R (body i)) ->
  forall count start, TaskStretches R (forRange start count body).
Proof.
  intros Hrefl Htrans Hbody. induction count as [|count IH]; intros start; simpl.
  - now apply TaskStretches_ret.
  - apply TaskStretches_bind; auto.
Qed.

Lemma TaskStretches_forIn {X : Type} (R : World -> World -> Prop)
    (body : X -> Task unit) (l : list X) :
  (forall w, R w w) ->
  (forall w1 w2 w3, R w1 w2 -> R w2 w3 -> R w1 w3) ->
  Forall (fun x => TaskStretches R (body x)) l ->
  TaskStretches R (forIn body l).
Proof.
  intros Hrefl Htrans. induction 1 as [|x l Hx _ IH]; simpl.
  - now apply TaskStretches_ret.
  - apply TaskStretches_bind; auto.
Qed.

(** *** The configuration under the operations *)

Lemma sameThis_refl (w : World) : sameThis w w.
Proof. reflexivity. Qed.

Lemma sameThis_trans (w1 w2 w3 : World) :
  sameThis w1 w2 -> sameThis w2 w3 -> sameThis w1 w3.
Proof. unfold sameThis. congruence. Qed.

Create HintDb stretches.

Ltac stretches :=
  repeat match goal with
         | |- forall _, _ => intro
         | |- TaskStretches _ (bind _ _) =>
             apply TaskStretches_bind; [exact sameThis_refl|exact sameThis_trans| |]
         | |- TaskStretches _ (ret _) => apply TaskStretches_ret; exact sameThis_refl
         | |- TaskStretches _ (throw _) => apply TaskStretches_throw; exact sameThis_refl
         | |- TaskStretches _ (gets _) => apply TaskStretches_gets; exact sameThis_refl
         | |- TaskStretches _ (await _) => apply TaskStretches_await; exact sameThis_refl
         | |- TaskStretches _ (modify _) =>
             apply TaskStretches_modify; intros ?; reflexivity
         | |- TaskStretches _ (match ?x with _ => _ end) => destruct x
         | |- TaskStretches _ _ => solve [auto with stretches]
         end.

Lemma sameThis_insertAdjacentHTML (target : option Ref) (html : string) :
  TaskStretches sameThis (Page.insertAdjacentHTML target html).
Proof. unfold Page.insertAdjacentHTML. stretches. Qed.

Lemma sameThis_insertAdjacentText (target : option Ref) (text : string) :
  TaskStretches sameThis (Page.insertAdjacentText target text).
Proof. unfold Page.insertAdjacentText. stretches. Qed.

Lemma sameThis_clearInnerHTML (target : option Ref) :
  TaskStretches sameThis (Page.clearInnerHTML target).
Proof. unfold Page.clearInnerHTML. stretches. Qed.

Lemma sameThis_scrollToText : TaskStretches sameThis scrollToText.
Proof. unfold scrollToText, Page.scrollIntoView. stretches. Qed.

#[local] Hint Resolve sameThis_insertAdjacentHTML sameThis_insertAdjacentText
  sameThis_clearInnerHTML sameThis_scrollToText : stretches.

Lemma sameThis_writeHtmlChar (char : string) (target : option Ref) :
  TaskStretches sameThis (writeHtmlChar char target).
Proof. unfold writeHtmlChar. stretches. Qed.

Lemma sameThis_writeChar (char : string) (target : option Ref) :
  TaskStretches sameThis (writeChar char target).
Proof. unfold writeChar. stretches. Qed.

Lemma sameThis_newTimeoutPromise (ms : float) :
  TaskStretches sameThis (newTimeoutPromise ms).
Proof. unfold newTimeoutPromise. stretches. Qed.

#[local] Hint Resolve sameThis_writeHtmlChar sameThis_writeChar
  sameThis_newTimeoutPromise : stretches.

Lemma sameThis_sleepAnimationDelay (multiplier : float) :
  TaskStretches sameThis (sleepAnimationDelay multiplier).
Proof. unfold sleepAnimationDelay. stretches. Qed.

Lemma sameThis_getTargetElement : TaskStretches sameThis getTargetElement.
Proof.
  unfold getTargetElement, Page.id, Page.documentQuerySelector. stretches.
Qed.

#[local] Hint Resolve sameThis_sleepAnimationDelay sameThis_getTargetElement : stretches.

Lemma sameThis_forRange (body : nat -> Task unit) (start count : nat) :
  (forall i, TaskStretches sameThis (body i)) ->
  TaskStretches sameThis (forRange start count body).
Proof.
  intros H. apply TaskStretches_forRange;
    [exact sameThis_refl|exact sameThis_trans|exact H].
Qed.

Lemma sameThis_write (text : Content) :
  forall multiplier delay replace,
    TaskStretches sameThis (write text multiplier delay replace).
Proof.
  induction text as [s|items IH] using Content_induction;
    intros multiplier delay replace; simpl.
  - stretches. apply sameThis_forRange. stretches.
  - stretches.
    apply TaskStretches_forIn; [exact sameThis_refl|exact sameThis_trans|].
    rewrite Forall_forall in *. intros x Hx. unfold awaitPromise. stretches.
Qed.

Lemma sameThis_writeJson {J : JSON} (text : JsonArg) (multiplier : float) :
  TaskStretches sameThis (writeJson text multiplier).
Proof.
  unfold writeJson, Page.querySelector. stretches.
  apply sameThis_forRange. stretches.
Qed.

(* ================================================================= *)
(** ** Runs of the methods *)

Lemma this_leadWorld (delay : float) (w : World) : this (leadWorld delay w) = this w.
Proof. unfold leadWorld. destruct (truthyNumber delay); reflexivity. Qed.

Lemma document_leadWorld (delay : float) (w : World) :
  document (leadWorld delay w) = document w.
Proof. unfold leadWorld. destruct (truthyNumber delay); reflexivity. Qed.

Lemma this_targetWorld (w : World) : this (targetWorld w) = this w.
Proof.
  unfold targetWorld.
  destruct (wrapperInForce (this w)), (textDestinationContainer (this w)); reflexivity.
Qed.

Lemma this_clearWorld (replace : bool) (t : Ref) (w : World) :
  this (clearWorld replace t w) = this w.
Proof. destruct replace; reflexivity. Qed.

Lemma surfaceReady_leadWorld (delay : float) (w : World) :
  surfaceReady (leadWorld delay w) = surfaceReady w.
Proof.
  unfold surfaceReady. now rewrite this_leadWorld, document_leadWorld.
Qed.

Lemma run_lead (delay : float) (w : World) :
  run (if truthyNumber delay
       then p <- newTimeoutPromise delay ;; await p
       else ret tt) w
  = (leadWorld delay w, inr tt).
Proof. unfold leadWorld. destruct (truthyNumber delay); reflexivity. Qed.

Ltac runs :=
  repeat (rewrite ?run_bind, ?run_gets, ?run_modify, ?run_ret, ?run_throw,
            ?run_await, ?run_newTimeoutPromise;
          cbn [andThen]).

Lemma run_getTargetElement_plain (w : World) :
  wrapperInForce (this w) = None ->
  run getTargetElement w = (w, inr (textDestinationContainer (this w))).
Proof.
  unfold wrapperInForce, getTargetElement. intros H. runs.
  destruct (htmlWrapperTag (this w)) as [tag|]; [|reflexivity].
  destruct (truthyString tag); [discriminate|reflexivity].
Qed.

Lemma run_getTargetElement_wrapper (w : World) (tag : string) (c : Ref) (i : string) :
  wrapperInForce (this w) = Some tag ->
  validTag tag = true ->
  textDestinationContainer (this w) = Some c ->
  takesMarkup c (document w) = true ->
  idOf c (root (document w)) = Some i ->
  cssIdentifier i = true ->
  exists t,
    run getTargetElement w = (targetWorld w, inr (Some t))
    /\ queryLastOfType (String.eqb i) tag false (root (document (targetWorld w)))
       = Some t.
Proof.
  intros Hwrap Hvalid Hc Hmarkup Hid Hi.
  unfold targetWorld. rewrite Hwrap, Hc.
  unfold wrapperInForce in Hwrap.
  unfold getTargetElement. runs.
  destruct (htmlWrapperTag (this w)) as [tag'|]; [|discriminate].
  destruct (truthyString tag') eqn:Htruthy; [|discriminate].
  injection Hwrap as ->. rewrite Hc.
  unfold Page.insertAdjacentHTML, Page.id, Page.documentQuerySelector. runs.
  unfold Dom.documentQuerySelector.
  cbn [logCall onDocument document this calls].
  rewrite idOf_insertAdjacentHTML_same, Hid, Hi.
  rewrite (plainName_cssIdentifier tag (validTag_plainName tag Hvalid)).
  cbn [andb]. rewrite (insertAdjacentHTML_wrapper c (document w) tag Hmarkup Hvalid).
  cbn [root].
  match goal with
  | |- context [queryLastOfType ?sc ?tg ?ins ?n] =>
      destruct (queryLastOfType sc tg ins n) as [t|] eqn:Q
  end.
  - exists t. split; reflexivity.
  - exfalso. revert Q. apply query_after_append with (i0 := i); [exact Hid|].
    apply String.eqb_refl.
Qed.

Lemma writable_surfaceReady (w : World) : writable w = true -> surfaceReady w = true.
Proof. unfold writable. intros H. now apply andb_prop in H. Qed.

Lemma writable_container (w : World) :
  writable w = true ->
  exists c, textDestinationContainer (this w) = Some c
            /\ takesMarkup c (document w) = true.
Proof.
  unfold writable. intros H. apply andb_prop in H. destruct H as [_ H].
  destruct (textDestinationContainer (this w)) as [c|]; [|discriminate].
  apply andb_prop in H. destruct H as [H _]. eauto.
Qed.

Lemma writable_leadWorld (delay : float) (w : World) :
  writable (leadWorld delay w) = writable w.
Proof.
  unfold writable.
  now rewrite surfaceReady_leadWorld, this_leadWorld, document_leadWorld.
Qed.

(** A writer that can write gets a target from [getTargetElement], an
    element of the page. *)
Lemma run_getTargetElement (w : World) :
  writable w = true ->
  exists t before,
    run getTargetElement w = (targetWorld w, inr (Some t))
    /\ childNodesOf t (root (document (targetWorld w))) = Some before.
Proof.
  intros Hw. pose proof (writable_surfaceReady w Hw) as Hready.
  unfold writable in Hw. apply andb_prop in Hw. destruct Hw as [_ Hw].
  unfold surfaceReady in Hready. apply andb_prop in Hready. destruct Hready as [_ Hvalid].
  destruct (textDestinationContainer (this w)) as [c|] eqn:Ec; [|discriminate].
  apply andb_prop in Hw. destruct Hw as [Hmarkup Hw].
  destruct (wrapperInForce (this w)) as [tag|] eqn:Ew.
  - destruct (idOf c (root (document w))) as [i|] eqn:Ei; [|discriminate].
    destruct (run_getTargetElement_wrapper w tag c i Ew Hvalid Ec Hmarkup Ei Hw)
      as (t & Hrun & Hquery).
    pose proof (queryLastOfType_attached _ _ _ _ _ Hquery) as Hfound.
    destruct (findElement t (root (document (targetWorld w)))) as [e|] eqn:Ef;
      [|contradiction].
    destruct (findElement_ref _ _ _ Ef) as (t' & i' & cs & ->).
    exists t, cs. split; [exact Hrun|]. unfold childNodesOf. now rewrite Ef.
  - unfold takesMarkup, tagOf in Hmarkup. 
    destruct (findElement c (root (document w))) as [[r tg i cs|]|] eqn:Ef;
      try discriminate.
    exists c, cs. rewrite (run_getTargetElement_plain w Ew), Ec.
    unfold targetWorld. rewrite Ew. split; [reflexivity|].
    unfold childNodesOf. now rewrite Ef.
Qed.

(** *** The target reads markup *)

Lemma wellFormed_fresh (d : Document) :
  wellFormed d = true -> findElement (nextRef d) (root d) = None.
Proof.
  unfold wellFormed. intros H. apply andb_prop in H. destruct H as [_ H].
  apply findElement_not_in_refs. intros Hin.
  rewrite forallb_forall in H. specialize (H _ Hin).
  apply Nat.ltb_lt in H. lia.
Qed.

Lemma wellFormed_below (d : Document) (c : Ref) (e : Node) :
  wellFormed d = true -> findElement c (root d) = Some e -> c < nextRef d.
Proof.
  unfold wellFormed. intros H Hf. apply andb_prop in H. destruct H as [_ H].
  rewrite forallb_forall in H. apply Nat.ltb_lt, H.
  eapply findElement_in_refs. exact Hf.
Qed.

Lemma wellFormed_NoDup (d : Document) : wellFormed d = true -> NoDup (refs (root d)).
Proof.
  unfold wellFormed. intros H. apply andb_prop in H. destruct H as [H _].
  now apply distinct_NoDup.
Qed.


Lemma takesMarkup_clearWorld (r : bool) (t : Ref) (w : World) :
  takesMarkup t (document (clearWorld r t w)) = takesMarkup t (document w).
Proof. destruct r; [apply takesMarkup_clearInnerHTML|reflexivity]. Qed.


(** *** One character *)

Lemma run_scrollToText (w : World) (c : Ref) :
  textDestinationContainer (this w) = Some c ->
  run scrollToText w
  = (mkWorld (this w) (document w) (calls w ++ scrollCalls (this w)), inr tt).
Proof.
  intros Hc. unfold scrollToText, scrollCalls. runs.
  destruct (scrollToTextEnabled (this w)); runs.
  - rewrite Hc. reflexivity.
  - rewrite app_nil_r. now destruct w.
Qed.

Lemma run_sleep (multiplier : float) (w : World) :
  run (sleepAnimationDelay multiplier) w
  = (mkWorld (this w) (document w) (calls w ++ sleepCalls (this w) multiplier),
     inr (if PrimFloat.eqb (PrimFloat.mul (animationDelay (this w)) multiplier) 0%float
          then ValueTrue
          else PromiseTimeout (PrimFloat.mul (animationDelay (this w)) multiplier))).
Proof.
  unfold sleepAnimationDelay, sleepCalls. runs.
  destruct (PrimFloat.eqb _ _); runs.
  - rewrite app_nil_r. now destruct w.
  - reflexivity.
Qed.

Lemma run_htmlChar (multiplier : float) (t : Ref) (char : string) (w : World) (c : Ref) :
  textDestinationContainer (this w) = Some c ->
  run (v <- sleepAnimationDelay multiplier ;; await v ;; writeHtmlChar char (Some t)) w
  = (htmlCharStep multiplier t w char, inr tt).
Proof.
  intros Hc. rewrite run_bind, run_sleep. cbn [andThen]. runs.
  unfold writeHtmlChar, Page.insertAdjacentHTML. runs.
  erewrite run_scrollToText by exact Hc.
  unfold htmlCharStep, logCall, onDocument. cbn [this document calls].
  now rewrite <- !app_assoc.
Qed.

Lemma run_textChar (multiplier : float) (t : Ref) (char : string) (w : World) (c : Ref) :
  textDestinationContainer (this w) = Some c ->
  run (v <- sleepAnimationDelay multiplier ;; await v ;; writeChar char (Some t)) w
  = (textCharStep multiplier t w char, inr tt).
Proof.
  intros Hc. rewrite run_bind, run_sleep. cbn [andThen]. runs.
  unfold writeChar, Page.insertAdjacentText. runs.
  erewrite run_scrollToText by exact Hc.
  unfold textCharStep, logCall, onDocument. cbn [this document calls].
  now rewrite <- !app_assoc.
Qed.

(** *** The loops *)

Lemma run_forRange (body : nat -> Task unit) (step : World -> string -> World)
    (char : nat -> string) (c : Ref) :
  (forall w ch, this (step w ch) = this w) ->
  (forall i w, textDestinationContainer (this w) = Some c ->
               run (body i) w = (step w (char i), inr tt)) ->
  forall count start w,
    textDestinationContainer (this w) = Some c ->
    run (forRange start count body) w
    = (fold_left step (map char (seq start count)) w, inr tt).
Proof.
  intros Hthis Hbody. induction count as [|count IH]; intros start w Hc.
  - reflexivity.
  - cbn [forRange seq map fold_left]. rewrite run_bind, Hbody by exact Hc.
    cbn [andThen]. apply IH. now rewrite Hthis.
Qed.

Lemma this_htmlCharStep (m : float) (t : Ref) (w : World) (ch : string) :
  this (htmlCharStep m t w ch) = this w.
Proof. reflexivity. Qed.

Lemma this_textCharStep (m : float) (t : Ref) (w : World) (ch : string) :
  this (textCharStep m t w ch) = this w.
Proof. reflexivity. Qed.

Lemma this_fold_htmlCharStep (m : float) (t : Ref) (cs : list string) (w : World) :
  this (fold_left (htmlCharStep m t) cs w) = this w.
Proof. revert w. induction cs as [|ch cs IH]; intros w; simpl; [reflexivity|now rewrite IH]. Qed.

Lemma this_fold_textCharStep (m : float) (t : Ref) (cs : list string) (w : World) :
  this (fold_left (textCharStep m t) cs w) = this w.
Proof. revert w. induction cs as [|ch cs IH]; intros w; simpl; [reflexivity|now rewrite IH]. Qed.

Lemma calls_fold_htmlCharStep (m : float) (t : Ref) (cs : list string) (w : World) :
  calls (fold_left (htmlCharStep m t) cs w)
  = calls w ++ flat_map (htmlCharCalls (this w) m t) cs.
Proof.
  revert w. induction cs as [|ch cs IH]; intros w; simpl.
  - now rewrite app_nil_r.
  - rewrite IH. cbn [htmlCharStep this calls]. unfold htmlCharCalls.
    now rewrite <- !app_assoc.
Qed.

Lemma calls_fold_textCharStep (m : float) (t : Ref) (cs : list string) (w : World) :
  calls (fold_left (textCharStep m t) cs w)
  = calls w ++ flat_map (textCharCalls (this w) m t) cs.
Proof.
  revert w. induction cs as [|ch cs IH]; intros w; simpl.
  - now rewrite app_nil_r.
  - rewrite IH. cbn [textCharStep this calls]. unfold textCharCalls.
    now rewrite <- !app_assoc.
Qed.

Lemma takesMarkup_fold_htmlCharStep (m : float) (t : Ref) (cs : list string) (w : World) :
  takesMarkup t (document (fold_left (htmlCharStep m t) cs w))
  = takesMarkup t (document w).
Proof.
  revert w. induction cs as [|ch cs IH]; intros w; simpl; [reflexivity|].
  rewrite IH. cbn [htmlCharStep document]. apply takesMarkup_insertAdjacentHTML.
Qed.

Lemma childNodesOf_fold_htmlCharStep (m : float) (t : Ref) (cs : list string) :
  Forall (fun ch => String.length ch <= 1) cs ->
  forall w,
    takesMarkup t (document w) = true ->
    childNodesOf t (root (document (fold_left (htmlCharStep m t) cs w)))
    = option_map (fun before => before ++ spanUnits (nextRef (document w)) cs)
                 (childNodesOf t (root (document w))).
Proof.
  induction 1 as [|ch cs Hch _ IH]; intros w Ht; simpl.
  - destruct (childNodesOf t (root (document w))); simpl; [now rewrite app_nil_r|reflexivity].
  - rewrite IH by (cbn [htmlCharStep document]; now rewrite takesMarkup_insertAdjacentHTML).
    cbn [htmlCharStep document].
    rewrite (insertAdjacentHTML_span t (document w) ch Ht Hch).
    cbn [root nextRef]. rewrite childNodesOf_updateChildren.
    destruct (childNodesOf t (root (document w))); simpl; [|reflexivity].
    now rewrite <- app_assoc.
Qed.

Lemma childNodesOf_fold_textCharStep (m : float) (t : Ref) (cs : list string) (w : World) :
  childNodesOf t (root (document (fold_left (textCharStep m t) cs w)))
  = option_map (fun before => before ++ map Text cs)
               (childNodesOf t (root (document w))).
Proof.
  revert w. induction cs as [|ch cs IH]; intros w; simpl.
  - destruct (childNodesOf t (root (document w))); simpl; [now rewrite app_nil_r|reflexivity].
  - rewrite IH. cbn [textCharStep document Dom.insertAdjacentText root].
    rewrite childNodesOf_updateChildren.
    destruct (childNodesOf t (root (document w))); simpl; [|reflexivity].
    now rewrite <- app_assoc.
Qed.

(** *** Reading the log *)

Lemma htmlInsertions_app (a b : list Call) :
  htmlInsertions (a ++ b) = htmlInsertions a ++ htmlInsertions b.
Proof. apply flat_map_app. Qed.

Lemma textInsertions_app (a b : list Call) :
  textInsertions (a ++ b) = textInsertions a ++ textInsertions b.
Proof. apply flat_map_app. Qed.

Lemma clears_app (a b : list Call) : clears (a ++ b) = clears a ++ clears b.
Proof. apply flat_map_app. Qed.

Lemma timers_app (a b : list Call) : timers (a ++ b) = timers a ++ timers b.
Proof. apply flat_map_app. Qed.

Lemma sleepCalls_cases (o : TextWriter) (m : float) :
  sleepCalls o m = [] \/ exists ms, sleepCalls o m = [CallSetTimeout ms].
Proof. unfold sleepCalls. destruct (PrimFloat.eqb _ _); eauto. Qed.

Lemma scrollCalls_cases (o : TextWriter) :
  scrollCalls o = [] \/ exists c, scrollCalls o = [CallScrollIntoView c].
Proof.
  unfold scrollCalls.
  destruct (scrollToTextEnabled o), (textDestinationContainer o); eauto.
Qed.

Ltac log_cases o m :=
  destruct (sleepCalls_cases o m) as [->|[? ->]];
  destruct (scrollCalls_cases o) as [->|[? ->]].

Lemma htmlInsertions_htmlCharCalls (o : TextWriter) (m : float) (t : Ref) (cs : list string) :
  htmlInsertions (flat_map (htmlCharCalls o m t) cs)
  = map (fun ch => (t, spanMarkup ch)) cs.
Proof.
  induction cs as [|ch cs IH]; [reflexivity|].
  cbn [flat_map map]. rewrite htmlInsertions_app, IH. f_equal.
  unfold htmlCharCalls. log_cases o m; reflexivity.
Qed.


Lemma clears_htmlCharCalls (o : TextWriter) (m : float) (t : Ref) (cs : list string) :
  clears (flat_map (htmlCharCalls o m t) cs) = [].
Proof.
  induction cs as [|ch cs IH]; [reflexivity|].
  cbn [flat_map]. rewrite clears_app, IH.
  unfold htmlCharCalls. log_cases o m; reflexivity.
Qed.

Lemma textInsertions_textCharCalls (o : TextWriter) (m : float) (t : Ref) (cs : list string) :
  textInsertions (flat_map (textCharCalls o m t) cs) = map (fun ch => (t, ch)) cs.
Proof.
  induction cs as [|ch cs IH]; [reflexivity|].
  cbn [flat_map map]. rewrite textInsertions_app, IH. f_equal.
  unfold textCharCalls. log_cases o m; reflexivity.
Qed.

Lemma htmlInsertions_textCharCalls (o : TextWriter) (m : float) (t : Ref) (cs : list string) :
  htmlInsertions (flat_map (textCharCalls o m t) cs) = [].
Proof.
  induction cs as [|ch cs IH]; [reflexivity|].
  cbn [flat_map]. rewrite htmlInsertions_app, IH.
  unfold textCharCalls. log_cases o m; reflexivity.
Qed.

(** *** [write] on a string, run to its end *)

Lemma surfaceReady_container (w : World) :
  surfaceReady w = true -> exists c, textDestinationContainer (this w) = Some c.
Proof.
  unfold surfaceReady. destruct (textDestinationContainer (this w)); [eauto|discriminate].
Qed.

Lemma run_clear (replace : bool) (t : Ref) (w : World) :
  run (if replace then Page.clearInnerHTML (Some t) else ret tt) w
  = (clearWorld replace t w, inr tt).
Proof. destruct replace; reflexivity. Qed.

Lemma run_write_Str (w : World) (s : string) (m d : float) (r : bool) :
  writable w = true ->
  exists t before,
    run getTargetElement (leadWorld d w) = (targetWorld (leadWorld d w), inr (Some t))
    /\ childNodesOf t (root (document (targetWorld (leadWorld d w)))) = Some before
    /\ run (write (Str s) m d r) w
       = (fold_left (htmlCharStep m t) (chars s)
            (clearWorld r t (targetWorld (leadWorld d w))), inr tt).
Proof.
  intros Hready.
  destruct (surfaceReady_container w (writable_surfaceReady w Hready)) as [c Hc].
  rewrite <- (writable_leadWorld d) in Hready.
  destruct (run_getTargetElement _ Hready) as (t & before & Hrun & Hbefore).
  exists t, before. split; [exact Hrun|]. split; [exact Hbefore|].
  cbn [write]. rewrite run_bind, run_lead. cbn [andThen].
  rewrite run_bind, Hrun. cbn [andThen].
  rewrite run_bind, run_clear. cbn [andThen].
  rewrite run_forRange with (step := htmlCharStep m t) (char := charAt s) (c := c).
  - now rewrite charAt_seq.
  - intros; apply this_htmlCharStep.
  - intros i w' Hw'. now apply run_htmlChar with (c := c).
  - now rewrite this_clearWorld, this_targetWorld, this_leadWorld.
Qed.

Lemma calls_clearWorld (r : bool) (t : Ref) (w : World) :
  calls (clearWorld r t w)
  = calls w ++ (if r then [CallSetInnerHTML t EmptyString] else []).
Proof. destruct r; simpl; [reflexivity|now rewrite app_nil_r]. Qed.

Lemma childNodesOf_clearWorld (r : bool) (t : Ref) (w : World) :
  childNodesOf t (root (document (clearWorld r t w)))
  = option_map (fun before => if r then [] else before)
               (childNodesOf t (root (document w))).
Proof.
  destruct r; simpl.
  - apply childNodesOf_updateChildren.
  - now destruct (childNodesOf t (root (document w))).
Qed.

Lemma nextRef_clearWorld (r : bool) (t : Ref) (w : World) :
  nextRef (document (clearWorld r t w)) = nextRef (document w).
Proof. destruct r; reflexivity. Qed.



(** *** [write] on a list *)

Lemma runEach_failed {X : Type} (call : X -> Task unit) (l : list X) (w : World) (e : Exn) :
  runEach call l (w, inl e) = (w, inl e).
Proof. destruct l; reflexivity. Qed.

Lemma run_forIn_awaitPromise (m : float) (r : bool) (L : list string) (w : World) :
  run (forIn (fun x => awaitPromise (write x m 0 r)) (map Str L)) w
  = runEach (fun s => write (Str s) m 0 r) L (w, inr tt).
Proof.
  revert w. induction L as [|s L IH]; intros w; [reflexivity|].
  cbn [map forIn runEach]. rewrite run_bind, run_awaitPromise.
  destruct (run (write (Str s) m 0 r) w) as [w' [e|[]]]; cbn [andThen].
  - now rewrite runEach_failed.
  - apply IH.
Qed.

Lemma run_write_list (w : World) (L : list string) (m d : float) (r : bool) :
  run (write (Arr (map Str L)) m d r) w
  = runEach (fun s => write (Str s) m 0 r) L (leadWorld d w, inr tt).
Proof.
  cbn [write]. rewrite run_bind, run_lead. cbn [andThen].
  apply run_forIn_awaitPromise.
Qed.

(** *** A list written onto the container itself *)

Lemma chars_app (a b : string) : chars (a ++ b) = chars a ++ chars b.
Proof. induction a as [|c a IH]; simpl; [reflexivity|now rewrite IH]. Qed.

Lemma spanUnits_app (start : Ref) (a b : list string) :
  spanUnits start (a ++ b) = spanUnits start a ++ spanUnits (start + List.length a) b.
Proof.
  revert start. induction a as [|c a IH]; intros start; simpl.
  - now rewrite Nat.add_0_r.
  - rewrite IH. do 3 f_equal. lia.
Qed.

Lemma nextRef_fold_htmlCharStep (m : float) (t : Ref) (cs : list string) :
  Forall (fun ch => String.length ch <= 1) cs ->
  forall w, takesMarkup t (document w) = true ->
            nextRef (document (fold_left (htmlCharStep m t) cs w))
            = nextRef (document w) + List.length cs.
Proof.
  induction 1 as [|ch cs Hch _ IH]; intros w Ht; simpl; [lia|].
  rewrite IH by (cbn [htmlCharStep document]; now rewrite takesMarkup_insertAdjacentHTML).
  cbn [htmlCharStep document].
  rewrite (insertAdjacentHTML_span t (document w) ch Ht Hch). cbn [nextRef]. lia.
Qed.

Lemma idOf_fold_htmlCharStep (m : float) (t : Ref) (cs : list string) (w : World) :
  idOf t (root (document (fold_left (htmlCharStep m t) cs w)))
  = idOf t (root (document w)).
Proof.
  revert w. induction cs as [|ch cs IH]; intros w; simpl; [reflexivity|].
  rewrite IH. cbn [htmlCharStep document]. apply idOf_insertAdjacentHTML_same.
Qed.

Lemma surfaceReady_fold_htmlCharStep (m : float) (c : Ref) (cs : list string) (w : World) :
  textDestinationContainer (this w) = Some c ->
  surfaceReady (fold_left (htmlCharStep m c) cs w) = surfaceReady w.
Proof.
  intros Hc. unfold surfaceReady.
  now rewrite this_fold_htmlCharStep, Hc, idOf_fold_htmlCharStep.
Qed.

Lemma writable_fold_htmlCharStep (m : float) (c : Ref) (cs : list string) (w : World) :
  textDestinationContainer (this w) = Some c ->
  writable (fold_left (htmlCharStep m c) cs w) = writable w.
Proof.
  intros Hc. unfold writable.
  rewrite (surfaceReady_fold_htmlCharStep m c cs w Hc).
  now rewrite this_fold_htmlCharStep, Hc, takesMarkup_fold_htmlCharStep,
    idOf_fold_htmlCharStep.
Qed.

(** Without a wrapper tag and without [replace], [write(L)] appends to
    the container the characters of [L[0]], then those of [L[1]], and so
    on: the units of the strings of [L] joined, in order. *)
Lemma write_list_appends_joined (L : list string) (m : float) :
  forall (w : World) (c : Ref) (before : list Node),
    writable w = true ->
    wrapperInForce (this w) = None ->
    textDestinationContainer (this w) = Some c ->
    childNodesOf c (root (document w)) = Some before ->
    exists w2 new,
      run (write (Arr (map Str L)) m 0 false) w = (w2, inr tt)
      /\ calls w2 = calls w ++ new
      /\ htmlInsertions new = map (fun ch => (c, spanMarkup ch)) (chars (joined L))
      /\ childNodesOf c (root (document w2))
         = Some (before ++ spanUnits (nextRef (document w)) (chars (joined L))).
Proof.
  intros w c before Hready Hwrap Hc Hbefore.
  rewrite run_write_list. change (leadWorld 0 w) with w.
  revert w before Hready Hwrap Hc Hbefore.
  induction L as [|s L IH]; intros w before Hready Hwrap Hc Hbefore.
  - exists w, []. cbn. rewrite !app_nil_r. auto.
  - cbn [runEach].
    assert (Hmarkup : takesMarkup c (document w) = true).
    { destruct (writable_container w Hready) as (c' & Hc' & Hm). congruence. }
    destruct (run_write_Str w s m 0 false Hready) as (t & _ & Hrun & _ & Hwrite).
    change (leadWorld 0 w) with w in *.
    rewrite (run_getTargetElement_plain w Hwrap), Hc in Hrun.
    injection Hrun as Htarget <-.
    rewrite <- Htarget in Hwrite. cbn [clearWorld] in Hwrite. rewrite Hwrite.
    set (w1 := fold_left (htmlCharStep m c) (chars s) w).
    destruct (IH w1 (before ++ spanUnits (nextRef (document w)) (chars s)))
      as (w2 & new & Heach & Hcalls & Hins & Hkids).
    + unfold w1. now rewrite writable_fold_htmlCharStep.
    + unfold w1. now rewrite this_fold_htmlCharStep.
    + unfold w1. now rewrite this_fold_htmlCharStep.
    + unfold w1.
      rewrite childNodesOf_fold_htmlCharStep by (try apply length_chars; exact Hmarkup).
      now rewrite Hbefore.
    + exists w2, (flat_map (htmlCharCalls (this w) m c) (chars s) ++ new).
      split; [exact Heach|]. split; [|split].
      * rewrite Hcalls. unfold w1. rewrite calls_fold_htmlCharStep.
        now rewrite app_assoc.
      * rewrite htmlInsertions_app, htmlInsertions_htmlCharCalls, Hins.
        cbn [joined fold_right]. now rewrite chars_app, map_app.
      * rewrite Hkids. unfold w1.
        rewrite nextRef_fold_htmlCharStep by (try apply length_chars; exact Hmarkup).
        cbn [joined fold_right]. rewrite chars_app, spanUnits_app.
        now rewrite <- app_assoc.
Qed.

(** C2: for every list of strings [L], running [write(L)] to its end is
    running the lead delay once and then, for the elements in order, the
    call [write(L[i], multiplier, 0, replace)] to its end, each in the
    world the one before left and the next only after it has ended, up to
    the first that fails.  In particular, written onto the container
    itself (no wrapper tag, no [replace]) by a writer that can write, the
    list leaves the character units of its strings joined, in order. *)
Theorem write_list_is_sequence (w : World) (L : list string) (m d : float) (r : bool) :
  run (write (Arr (map Str L)) m d r) w
  = runEach (fun s => write (Str s) m 0 r) L (leadWorld d w, inr tt)
  /\ forall (c : Ref) (before : list Node),
       writable w = true ->
       wrapperInForce (this w) = None ->
       textDestinationContainer (this w) = Some c ->
       childNodesOf c (root (document w)) = Some before ->
       exists w2 new,
         run (write (Arr (map Str L)) m 0 false) w = (w2, inr tt)
         /\ calls w2 = calls w ++ new
         /\ htmlInsertions new = map (fun ch => (c, spanMarkup ch)) (chars (joined L))
         /\ childNodesOf c (root (document w2))
            = Some (before ++ spanUnits (nextRef (document w)) (chars (joined L))).
Proof.
  split; [apply run_write_list|].
  intros c before. apply write_list_appends_joined.
Qed.

Lemma write_list_is_sequence_witness :
  writable Examples.writer = true
  /\ wrapperInForce (this Examples.writer) = None
  /\ textDestinationContainer (this Examples.writer) = Some 1
  /\ childNodesOf 1 (root (document Examples.writer)) = Some []
  /\ exists w2 new,
       run (write (Arr (map Str ["ab"; "c"])) 1 0 false) Examples.writer = (w2, inr tt)
       /\ calls w2 = calls Examples.writer ++ new
       /\ htmlInsertions new
          = map (fun ch => (1, spanMarkup ch)) (chars (joined ["ab"; "c"]))
       /\ childNodesOf 1 (root (document w2))
          = Some ([] ++ spanUnits (nextRef (document Examples.writer))
                          (chars (joined ["ab"; "c"]))).
Proof.
  repeat (split; [reflexivity|]).
  apply (proj2 (write_list_is_sequence Examples.writer ["ab"; "c"] 1 0 false) 1 []);
    reflexivity.
Defined.

(** *** [writeJson] *)

(** C3: when [JSON.parse] rejects the text, the promise of [writeJson] is
    rejected with that error in the first stretch of the call, and the
    world is the one the call found: no call to the page was made and no
    character was appended. *)
Theorem writeJson_malformed_is_rejected {J : JSON} (s : string) (m : float) (w : World) :
  JSON_parse s = None ->
  writeJson (ArgString s) m w = (w, Rejected SyntaxError)
  /\ run (writeJson (ArgString s) m) w = (w, inl SyntaxError).
Proof.
  intros H. unfold run, writeJson, bind. rewrite H. split; reflexivity.
Qed.

Lemma writeJson_malformed_is_rejected_witness :
  JSON_parse "{oops" = None
  /\ writeJson (ArgString "{oops") writeJson_animationMultiplier Examples.writer
     = (Examples.writer, Rejected SyntaxError)
  /\ run (writeJson (ArgString "{oops") writeJson_animationMultiplier) Examples.writer
     = (Examples.writer, inl SyntaxError).
Proof.
  split; [reflexivity|].
  apply (writeJson_malformed_is_rejected "{oops" writeJson_animationMultiplier
           Examples.writer).
  reflexivity.
Defined.

(** *** [skipAnimation] *)

Lemma zero_times_finite (m : float) :
  PrimFloat.is_finite m = true ->
  PrimFloat.eqb (PrimFloat.mul 0%float m) 0%float = true.
Proof.
  intros H. rewrite eqb_spec, mul_spec.
  unfold PrimFloat.is_finite in H.
  apply negb_true_iff, orb_false_iff in H. destruct H as [H1 H2].
  unfold PrimFloat.is_nan, PrimFloat.is_infinity in *.
  rewrite eqb_spec in H1. rewrite eqb_spec, abs_spec in H2.
  change (Prim2SF 0%float) with (SpecFloat.S754_zero false).
  change (Prim2SF infinity) with (SpecFloat.S754_infinity false) in H2.
  destruct (Prim2SF m) as [s|s| |s mm e]; simpl in *; try discriminate; reflexivity.
Qed.

(** C7: called while the delay is [D], [skipAnimation] sets the delay to
    zero, sets one timer of [D] and parks on it; in the world it leaves
    meanwhile the delay reads zero and [sleepAnimationDelay] answers
    [true] for every finite multiplier; resumed in whatever world, it
    sets the delay to [D] again, changes nothing else, and resolves. *)
Theorem skipAnimation_restores_delay (w : World) :
  exists k,
    skipAnimation w
    = (logCall (CallSetTimeout (animationDelay (this w))) (setAnimationDelay 0 w),
       Awaiting (Timeout (animationDelay (this w))) k)
    /\ animationDelay
         (this (logCall (CallSetTimeout (animationDelay (this w)))
                        (setAnimationDelay 0 w))) = 0%float
    /\ (forall m, PrimFloat.is_finite m = true ->
          sleepAnimationDelay m
            (logCall (CallSetTimeout (animationDelay (this w))) (setAnimationDelay 0 w))
          = (logCall (CallSetTimeout (animationDelay (this w))) (setAnimationDelay 0 w),
             Resolved ValueTrue))
    /\ (forall w', k w' = (setAnimationDelay (animationDelay (this w)) w', Resolved tt))
    /\ animationDelay (this (fst (run skipAnimation w))) = animationDelay (this w).
Proof.
  eexists. split; [reflexivity|]. split; [reflexivity|]. split; [|split].
  - intros m Hm. unfold sleepAnimationDelay, bind, gets. cbn.
    now rewrite (zero_times_finite m Hm).
  - intros w'. reflexivity.
  - reflexivity.
Qed.

Lemma skipAnimation_restores_delay_witness :
  PrimFloat.is_finite 1 = true
  /\ exists k,
    skipAnimation Examples.writer
    = (logCall (CallSetTimeout (animationDelay (this Examples.writer)))
               (setAnimationDelay 0 Examples.writer),
       Awaiting (Timeout (animationDelay (this Examples.writer))) k)
    /\ animationDelay
         (this (logCall (CallSetTimeout (animationDelay (this Examples.writer)))
                        (setAnimationDelay 0 Examples.writer))) = 0%float
    /\ (forall m, PrimFloat.is_finite m = true ->
          sleepAnimationDelay m
            (logCall (CallSetTimeout (animationDelay (this Examples.writer)))
                     (setAnimationDelay 0 Examples.writer))
          = (logCall (CallSetTimeout (animationDelay (this Examples.writer)))
                     (setAnimationDelay 0 Examples.writer),
             Resolved ValueTrue))
    /\ (forall w', k w' = (setAnimationDelay (animationDelay (this Examples.writer)) w',
                           Resolved tt))
    /\ animationDelay (this (fst (run skipAnimation Examples.writer)))
       = animationDelay (this Examples.writer).
Proof.
  split; [reflexivity|].
  exact (skipAnimation_restores_delay Examples.writer).
Defined.

(** *** The configuration *)

Lemma sameButDelay_skipAnimation : TaskStretches sameButDelay skipAnimation.
Proof.
  intros w. split.
  - cbn. repeat split.
  - cbn. constructor; intros w'; cbn.
    + repeat split.
    + constructor.
Qed.

Lemma this_run_skipAnimation (w : World) : this (fst (run skipAnimation w)) = this w.
Proof. cbn. now destruct (this w). Qed.

(** C10: every stretch of [write] and of [writeJson], in whatever world
    it is resumed, leaves the four fields of the writer as it found them;
    each setter changes its own field only; every stretch of
    [skipAnimation] leaves the three other fields alone, and run to its
    end it leaves the delay as it was too. *)
Theorem configuration_is_framed {J : JSON} :
  (forall text m d r, TaskStretches sameThis (write text m d r))
  /\ (forall (arg : JsonArg) m, TaskStretches sameThis (writeJson arg m))
  /\ TaskStretches sameButDelay skipAnimation
  /\ (forall w, this (fst (run skipAnimation w)) = this w)
  /\ (forall destinationId w,
        textDestinationContainer (this (setDestination destinationId w))
        = getElementById destinationId (document w)
        /\ animationDelay (this (setDestination destinationId w)) = animationDelay (this w)
        /\ htmlWrapperTag (this (setDestination destinationId w)) = htmlWrapperTag (this w)
        /\ scrollToTextEnabled (this (setDestination destinationId w))
           = scrollToTextEnabled (this w)
        /\ document (setDestination destinationId w) = document w)
  /\ (forall delay w, sameButDelay w (setAnimationDelay delay w)
        /\ animationDelay (this (setAnimationDelay delay w)) = delay
        /\ document (setAnimationDelay delay w) = document w)
  /\ (forall tag w,
        textDestinationContainer (this (setHtmlWrapperTag tag w))
        = textDestinationContainer (this w)
        /\ animationDelay (this (setHtmlWrapperTag tag w)) = animationDelay (this w)
        /\ scrollToTextEnabled (this (setHtmlWrapperTag tag w)) = scrollToTextEnabled (this w)
        /\ htmlWrapperTag (this (setHtmlWrapperTag tag w)) = tag
        /\ document (setHtmlWrapperTag tag w) = document w).
Proof.
  split; [intros; apply sameThis_write|].
  split; [intros; apply sameThis_writeJson|].
  split; [exact sameButDelay_skipAnimation|].
  split; [exact this_run_skipAnimation|].
  repeat (split || intro).
Qed.

(** *** Functions that never park *)

Lemma NeverParks_bind {A B : Type} (t : Task A) (f : A -> Task B) :
  NeverParks t -> (forall a, NeverParks (f a)) -> NeverParks (bind t f).
Proof.
  intros Ht Hf w. unfold bind. specialize (Ht w).
  destruct (t w) as [w' [a|e|wt k]]; cbn in *; [apply Hf|exact I|contradiction].
Qed.

Lemma waits_NeverParks {A : Type} (t : Task A) (w : World) :
  NeverParks t -> waits t w = [].
Proof.
  intros Ht. unfold waits. specialize (Ht w).
  destruct (t w) as [w' [a|e|wt k]]; cbn in *; [reflexivity|reflexivity|contradiction].
Qed.

Ltac never_parks :=
  repeat match goal with
         | |- forall _, _ => intro
         | |- NeverParks (bind _ _) => apply NeverParks_bind
         | |- NeverParks (ret _) => exact (fun _ => I)
         | |- NeverParks (throw _) => exact (fun _ => I)
         | |- NeverParks (gets _) => exact (fun _ => I)
         | |- NeverParks (modify _) => exact (fun _ => I)
         | |- NeverParks (match ?x with _ => _ end) => destruct x
         end.

Lemma NeverParks_getTargetElement : NeverParks getTargetElement.
Proof.
  unfold getTargetElement, Page.insertAdjacentHTML, Page.id,
    Page.documentQuerySelector.
  never_parks.
Qed.

Lemma NeverParks_writeHtmlChar (ch : string) (t : option Ref) :
  NeverParks (writeHtmlChar ch t).
Proof.
  unfold writeHtmlChar, scrollToText, Page.insertAdjacentHTML, Page.scrollIntoView.
  never_parks.
Qed.

Lemma NeverParks_clear (r : bool) (t : option Ref) :
  NeverParks (if r then Page.clearInnerHTML t else ret tt).
Proof. unfold Page.clearInnerHTML. never_parks. Qed.

Lemma NeverParks_sleepAnimationDelay (m : float) : NeverParks (sleepAnimationDelay m).
Proof. unfold sleepAnimationDelay, newTimeoutPromise. never_parks. Qed.

Lemma NeverParks_forIn {X : Type} (body : X -> Task unit) (l : list X) :
  (forall x, NeverParks (body x)) -> NeverParks (forIn body l).
Proof.
  intros H. induction l as [|x l IH]; cbn [forIn]; [exact (fun _ => I)|].
  apply NeverParks_bind; auto.
Qed.

(** A function that never parks completes before it returns, when it
    does not throw. *)
Lemma NeverParks_writeSynchronously (s : string) (r : bool) :
  NeverParks (writeSynchronously s r).
Proof.
  unfold writeSynchronously. apply NeverParks_bind; [apply NeverParks_getTargetElement|].
  intros t. apply NeverParks_bind; [apply NeverParks_clear|].
  intros _. apply NeverParks_forIn. intros ch. apply NeverParks_writeHtmlChar.
Qed.

(** *** A zero pause *)

Lemma sleepCalls_zero (o : TextWriter) (m : float) :
  PrimFloat.eqb (PrimFloat.mul (animationDelay o) m) 0%float = true ->
  sleepCalls o m = [].
Proof. unfold sleepCalls. now intros ->. Qed.

Lemma run_writeHtmlChar_zero (m : float) (t : Ref) (ch : string) (w : World) (c : Ref) :
  PrimFloat.eqb (PrimFloat.mul (animationDelay (this w)) m) 0%float = true ->
  textDestinationContainer (this w) = Some c ->
  run (writeHtmlChar ch (Some t)) w = (htmlCharStep m t w ch, inr tt).
Proof.
  intros Hzero Hc. unfold writeHtmlChar, Page.insertAdjacentHTML. runs.
  erewrite run_scrollToText by exact Hc.
  unfold htmlCharStep, logCall, onDocument. cbn [this document calls].
  rewrite (sleepCalls_zero _ m Hzero). now rewrite <- !app_assoc.
Qed.

Lemma run_forIn_zero (m : float) (t : Ref) (c : Ref) (o : TextWriter) (cs : list string) :
  PrimFloat.eqb (PrimFloat.mul (animationDelay o) m) 0%float = true ->
  textDestinationContainer o = Some c ->
  forall w, this w = o ->
    run (forIn (fun ch => writeHtmlChar ch (Some t)) cs) w
    = (fold_left (htmlCharStep m t) cs w, inr tt).
Proof.
  intros Hzero Hc. induction cs as [|ch cs IH]; intros w Hw; [reflexivity|].
  cbn [forIn fold_left]. rewrite run_bind.
  rewrite (run_writeHtmlChar_zero m t ch w c) by (rewrite Hw; assumption).
  cbn [andThen]. apply IH. now rewrite this_htmlCharStep.
Qed.

Lemma waits_htmlChar_zero (m : float) (t : Ref) (ch : string) (w : World) :
  PrimFloat.eqb (PrimFloat.mul (animationDelay (this w)) m) 0%float = true ->
  waits (v <- sleepAnimationDelay m ;; await v ;; writeHtmlChar ch (Some t)) w
  = [Microtask].
Proof.
  intros Hzero.
  rewrite waits_bind, (waits_NeverParks _ _ (NeverParks_sleepAnimationDelay m)).
  rewrite run_sleep, Hzero. cbn [app].
  rewrite waits_bind, run_await.
  now rewrite (waits_NeverParks _ _ (NeverParks_writeHtmlChar ch (Some t))).
Qed.

Lemma waits_forRange_zero (m : float) (t : Ref) (c : Ref) (s : string) (o : TextWriter) :
  PrimFloat.eqb (PrimFloat.mul (animationDelay o) m) 0%float = true ->
  textDestinationContainer o = Some c ->
  forall count start w, this w = o ->
    waits (forRange start count
             (fun i => v <- sleepAnimationDelay m ;; await v ;;
                       writeHtmlChar (charAt s i) (Some t))) w
    = repeat Microtask count.
Proof.
  intros Hzero Hc. induction count as [|count IH]; intros start w Hw; [reflexivity|].
  cbn [forRange repeat]. rewrite waits_bind.
  rewrite waits_htmlChar_zero by (rewrite Hw; exact Hzero).
  rewrite (run_htmlChar m t (charAt s start) w c) by (rewrite Hw; exact Hc).
  cbn [app]. f_equal. apply IH. now rewrite this_htmlCharStep.
Qed.

Lemma timers_htmlCharCalls_zero (o : TextWriter) (m : float) (t : Ref) (cs : list string) :
  PrimFloat.eqb (PrimFloat.mul (animationDelay o) m) 0%float = true ->
  timers (flat_map (htmlCharCalls o m t) cs) = [].
Proof.
  intros Hzero. induction cs as [|ch cs IH]; [reflexivity|].
  cbn [flat_map]. rewrite timers_app, IH.
  unfold htmlCharCalls. rewrite (sleepCalls_zero o m Hzero).
  destruct (scrollCalls_cases o) as [->|[? ->]]; reflexivity.
Qed.

Lemma timers_targetWorld (w : World) : timers (calls (targetWorld w)) = timers (calls w).
Proof.
  unfold targetWorld.
  destruct (wrapperInForce (this w)), (textDestinationContainer (this w));
    try reflexivity.
  cbn [logCall calls onDocument]. rewrite timers_app. cbn. now rewrite app_nil_r.
Qed.

Lemma NeverParks_run {A : Type} (t : Task A) (w w1 : World) (a : A) :
  NeverParks t -> run t w = (w1, inr a) -> t w = (w1, Resolved a).
Proof.
  intros Ht. specialize (Ht w). unfold run.
  destruct (t w) as [w' [a'|e|wt k]]; cbn in *; [|discriminate|contradiction].
  now intros [= -> ->].
Qed.

Lemma bind_resolved {A B : Type} (t : Task A) (f : A -> Task B) (w w1 : World) (a : A) :
  t w = (w1, Resolved a) -> bind t f w = f a w1.
Proof. intros H. unfold bind. now rewrite H. Qed.

Section Turns.
Variable o : TextWriter.
Variable m : float.
Variable t c : Ref.
Hypothesis Hzero : PrimFloat.eqb (PrimFloat.mul (animationDelay o) m) 0%float = true.
Hypothesis Hc : textDestinationContainer o = Some c.

Lemma writeHtmlChar_resolved (ch : string) (w : World) :
  this w = o ->
  writeHtmlChar ch (Some t) w = (htmlCharStep m t w ch, Resolved tt).
Proof.
  intros Hw. apply NeverParks_run; [apply NeverParks_writeHtmlChar|].
  apply run_writeHtmlChar_zero with c; now rewrite Hw.
Qed.

Lemma bind_parked {A B : Type} (u : Task A) (f : A -> Task B) (w w1 : World)
    (wt : Wait) (k : World -> World * Async A) :
  u w = (w1, Awaiting wt k) ->
  bind u f w = (w1, Awaiting wt (fun w' => let (w'', p') := k w' in bindAsync p' f w'')).
Proof. intros H. unfold bind. now rewrite H. Qed.

(** With a zero pause a step of the loop parks for a microtask turn, in
    the world it found; what is left of it is the insertion. *)
Lemma htmlChar_parks_zero (ch : string) (w : World) :
  this w = o ->
  exists k,
    (v <- sleepAnimationDelay m ;; await v ;; writeHtmlChar ch (Some t)) w
    = (w, Awaiting Microtask k)
    /\ forall w', k w' = writeHtmlChar ch (Some t) w'.
Proof.
  intros Hw.
  assert (Hsleep : sleepAnimationDelay m w = (w, Resolved ValueTrue)).
  { unfold sleepAnimationDelay, bind, gets. cbn [bindAsync]. rewrite Hw, Hzero.
    reflexivity. }
  eexists. split.
  - rewrite (bind_resolved _ _ _ _ _ Hsleep). unfold bind, await. cbn [bindAsync].
    reflexivity.
  - intros w'. cbn [bindAsync]. reflexivity.
Qed.

Lemma forRange_Appends (s : string) (count : nat) :
  forall start w, this w = o ->
    exists p,
      forRange start count
        (fun i => v <- sleepAnimationDelay m ;; await v ;;
                  writeHtmlChar (charAt s i) (Some t)) w = (w, p)
      /\ Appends o m t (map (charAt s) (seq start count)) p.
Proof.
  induction count as [|count IH]; intros start w Hw.
  - exists (Resolved tt). split; [reflexivity|constructor].
  - cbn [forRange seq map].
    destruct (htmlChar_parks_zero (charAt s start) w Hw) as (k & Hk & Hleft).
    eexists. split; [exact (bind_parked _ _ _ _ _ _ Hk)|].
    constructor; intros w' Hw'; rewrite Hleft, (writeHtmlChar_resolved _ w' Hw');
      cbn [bindAsync];
      destruct (IH (S start) (htmlCharStep m t w' (charAt s start)))
        as (p & Hp & HA); try (now rewrite this_htmlCharStep);
      rewrite Hp; [reflexivity|exact HA].
Qed.

Lemma runAsync_Appends (cs : list string) (p : Async unit) :
  Appends o m t cs p ->
  forall w, this w = o -> runAsync p w = (fold_left (htmlCharStep m t) cs w, inr tt).
Proof.
  induction 1 as [|ch cs k Hfst _ IH]; intros w Hw; [reflexivity|].
  cbn [runAsync fold_left]. specialize (Hfst w Hw). specialize (IH w Hw).
  destruct (k w) as [w1 p1]. cbn [fst snd] in *. subst w1.
  apply IH. now rewrite this_htmlCharStep.
Qed.

Lemma runAlternately_Appends (cs1 : list string) (p : Async unit) :
  Appends o m t cs1 p ->
  forall cs2 q w, Appends o m t cs2 q -> this w = o ->
    runAlternately p q w
    = (fold_left (htmlCharStep m t) (interleave cs1 cs2) w, (inr tt, inr tt)).
Proof.
  induction 1 as [|ch cs1 k Hfst Hsnd IH]; intros cs2 q w Hq Hw.
  - cbn [runAlternately interleave]. now rewrite (runAsync_Appends cs2 q Hq w Hw).
  - cbn [runAlternately].
    specialize (Hfst w Hw). specialize (Hsnd w Hw). specialize (IH w Hw).
    destruct (k w) as [w1 p1]. cbn [fst snd] in *. subst w1.
    assert (Hw1 : this (htmlCharStep m t w ch) = o) by now rewrite this_htmlCharStep.
    destruct Hq as [|ch2 cs2 k2 Hfst2 Hsnd2].
    + assert (Hi : interleave (ch :: cs1) [] = ch :: cs1) by reflexivity.
      rewrite Hi. cbn [fold_left].
      now rewrite (runAsync_Appends cs1 p1 Hsnd _ Hw1).
    + specialize (Hfst2 _ Hw1). specialize (Hsnd2 _ Hw1).
      destruct (k2 (htmlCharStep m t w ch)) as [w2 q2]. cbn [fst snd] in *. subst w2.
      cbn [interleave fold_left]. apply IH; [exact Hsnd2|].
      now rewrite this_htmlCharStep.
Qed.

End Turns.

(** With a zero pause, [write(s)] returns to its caller when the target
    is resolved (and cleared, when [replace] is set), parked on the await
    of its first character; what is left of it appends the characters of
    [s] one per turn, each after its own microtask turn. *)
Lemma write_Str_zero_Appends (w : World) (s : string) (m : float) (r : bool) :
  writable w = true ->
  PrimFloat.eqb (PrimFloat.mul (animationDelay (this w)) m) 0%float = true ->
  exists t p,
    run getTargetElement w = (targetWorld w, inr (Some t))
    /\ write (Str s) m 0 r w = (clearWorld r t (targetWorld w), p)
    /\ Appends (this w) m t (chars s) p.
Proof.
  intros Hready Hzero.
  destruct (surfaceReady_container w (writable_surfaceReady w Hready)) as [c Hc].
  destruct (run_getTargetElement w Hready) as (t & _ & Hrun & _).
  pose proof (NeverParks_run _ _ _ _ NeverParks_getTargetElement Hrun) as Htarget.
  pose proof (NeverParks_run _ _ _ _ (NeverParks_clear r (Some t))
                (run_clear r t (targetWorld w))) as Hclear.
  destruct (forRange_Appends (this w) m t c Hzero Hc s (String.length s) 0
              (clearWorld r t (targetWorld w)))
    as (p & Hp & HA); [now rewrite this_clearWorld, this_targetWorld|].
  exists t, p. split; [exact Hrun|]. split.
  - cbn [write].
    rewrite (bind_resolved _ _ w w tt eq_refl).
    rewrite (bind_resolved _ _ _ _ _ Htarget).
    rewrite (bind_resolved _ _ _ _ _ Hclear). exact Hp.
  - now rewrite charAt_seq in HA.
Qed.

(** A negative delay times a zero multiplier, and the other way round,
    is a zero the test [== 0] accepts. *)
Lemma negative_times_zero_is_zero :
  PrimFloat.eqb (PrimFloat.mul (-5) 0) 0%float = true
  /\ PrimFloat.eqb (PrimFloat.mul 0 (-5)) 0%float = true.
Proof. split; reflexivity. Qed.

(** C4, as the code has it: when [animationDelay * multiplier == 0],
    [write(s)] by a writer that can write sets no timer.  It returns to
    its caller once the target is resolved, parked on the [await] of the
    value [true] before the first character, nothing appended; each turn
    of what is left appends one character and parks again before the
    next, or resolves after the last, so that every append is preceded by
    a microtask turn of its own.  Run to its end with nothing in between,
    the call leaves the world a pause-free synchronous write of [s]
    leaves. *)
Theorem write_zero_delay_sets_no_timer (w : World) (s : string) (m : float) (r : bool) :
  writable w = true ->
  PrimFloat.eqb (PrimFloat.mul (animationDelay (this w)) m) 0%float = true ->
  (exists target p,
      run getTargetElement w = (targetWorld w, inr (Some target))
      /\ write (Str s) m 0 r w = (clearWorld r target (targetWorld w), p)
      /\ Appends (this w) m target (chars s) p)
  /\ run (write (Str s) m 0 r) w = run (writeSynchronously s r) w
  /\ timers (calls (fst (run (write (Str s) m 0 r) w))) = timers (calls w)
  /\ waits (write (Str s) m 0 r) w = repeat Microtask (String.length s).
Proof.
  intros Hready Hzero.
  split; [exact (write_Str_zero_Appends w s m r Hready Hzero)|].
  destruct (surfaceReady_container w (writable_surfaceReady w Hready)) as [c Hc].
  destruct (run_write_Str w s m 0 r Hready) as (t & before & Hrun & _ & Hwrite).
  change (leadWorld 0 w) with w in *.
  assert (Hthis : this (clearWorld r t (targetWorld w)) = this w)
    by now rewrite this_clearWorld, this_targetWorld.
  split; [|split].
  - rewrite Hwrite. unfold writeSynchronously.
    rewrite run_bind, Hrun. cbn [andThen].
    rewrite run_bind, run_clear. cbn [andThen].
    symmetry. now apply run_forIn_zero with (c := c) (o := this w).
  - rewrite Hwrite. cbn [fst].
    rewrite calls_fold_htmlCharStep, timers_app, Hthis.
    rewrite (timers_htmlCharCalls_zero _ m t _ Hzero), app_nil_r.
    rewrite calls_clearWorld, timers_app, timers_targetWorld.
    destruct r; cbn; now rewrite app_nil_r.
  - cbn [write].
    rewrite waits_bind, run_lead. change (leadWorld 0 w) with w.
    match goal with
    | |- context [waits ?lead w ++ _] => change (waits lead w) with (@nil Wait)
    end.
    cbn [app].
    rewrite waits_bind, (waits_NeverParks _ _ NeverParks_getTargetElement), Hrun.
    cbn [app].
    rewrite waits_bind, (waits_NeverParks _ _ (NeverParks_clear r (Some t))), run_clear.
    cbn [app].
    now apply waits_forRange_zero with (c := c) (o := this w).
Qed.

Lemma write_zero_delay_sets_no_timer_witness :
  writable Examples.instantWriter = true
  /\ PrimFloat.eqb (PrimFloat.mul (animationDelay (this Examples.instantWriter)) 1) 0%float
     = true
  /\ (exists target p,
         run getTargetElement Examples.instantWriter
         = (targetWorld Examples.instantWriter, inr (Some target))
         /\ write (Str "hi") 1 0 false Examples.instantWriter
            = (clearWorld false target (targetWorld Examples.instantWriter), p)
         /\ Appends (this Examples.instantWriter) 1 target (chars "hi") p)
  /\ run (write (Str "hi") 1 0 false) Examples.instantWriter
     = run (writeSynchronously "hi" false) Examples.instantWriter
  /\ timers (calls (fst (run (write (Str "hi") 1 0 false) Examples.instantWriter)))
     = timers (calls Examples.instantWriter)
  /\ waits (write (Str "hi") 1 0 false) Examples.instantWriter
     = repeat Microtask (String.length "hi").
Proof.
  split; [reflexivity|]. split; [reflexivity|].
  apply (write_zero_delay_sets_no_timer Examples.instantWriter "hi" 1 false);
    reflexivity.
Defined.

(** C4, as stated, fails: with a zero delay, [write('hi')] returns to its
    caller parked on its first [await], no character appended yet. *)
Lemma write_zero_delay_returns_parked :
  surfaceReady Examples.instantWriter = true
  /\ PrimFloat.eqb (PrimFloat.mul (animationDelay (this Examples.instantWriter)) 1) 0%float
     = true
  /\ ~ completesSynchronously (write (Str "hi") 1 0 false) Examples.instantWriter
  /\ fst (write (Str "hi") 1 0 false Examples.instantWriter) = Examples.instantWriter.
Proof.
  split; [reflexivity|]. split; [reflexivity|]. split; [|reflexivity].
  intros (w' & a & H). cbv in H. discriminate H.
Qed.

(** *** The lead delay of [write] *)










(** *** The empty string *)

Lemma surfaceReady_validTag (w : World) (tag : string) :
  surfaceReady w = true -> wrapperInForce (this w) = Some tag -> validTag tag = true.
Proof.
  unfold surfaceReady. intros H Hw. apply andb_prop in H. destruct H as [_ H].
  now rewrite Hw in H.
Qed.

Lemma surfaceReady_attached (w : World) (c : Ref) :
  surfaceReady w = true -> textDestinationContainer (this w) = Some c ->
  exists before, childNodesOf c (root (document w)) = Some before.
Proof.
  unfold surfaceReady. intros H Hc. rewrite Hc in H.
  destruct (idOf c (root (document w))) as [i|] eqn:Ei; [|discriminate].
  now apply idOf_Some_childNodesOf with i.
Qed.

(** C9, as the code has it: with a wrapper tag in force that names an
    ordinary element and a writer that can write, [write('')] runs to its
    end and makes one insertion, the empty wrapper element at the end of
    the container, and no other; the page it leaves is the page with that
    element appended (and the resolved target cleared, when [replace] is
    set); the writer is as it was. *)
Theorem write_empty_string_appends_wrapper (w : World) (m d : float) (r : bool)
    (tag : string) (c : Ref) :
  writable w = true ->
  wrapperInForce (this w) = Some tag ->
  textDestinationContainer (this w) = Some c ->
  exists target before w2,
    childNodesOf c (root (document w)) = Some before
    /\ run (write (Str "") m d r) w = (w2, inr tt)
    /\ calls w2
       = calls (leadWorld d w)
         ++ [CallInsertAdjacentHTML c (wrapperMarkup tag)]
         ++ (if r then [CallSetInnerHTML target EmptyString] else [])
    /\ document w2
       = (if r
          then Dom.clearInnerHTML target
                 (Dom.insertAdjacentHTML c (wrapperMarkup tag) (document w))
          else Dom.insertAdjacentHTML c (wrapperMarkup tag) (document w))
    /\ childNodesOf c (root (Dom.insertAdjacentHTML c (wrapperMarkup tag) (document w)))
       = Some (before ++ [Element (nextRef (document w)) tag EmptyString []])
    /\ this w2 = this w.
Proof.
  intros Hwritable Hwrap Hc.
  pose proof (writable_surfaceReady w Hwritable) as Hready.
  destruct (surfaceReady_attached w c Hready Hc) as [before Hbefore].
  destruct (run_write_Str w "" m d r Hwritable) as (t & _ & _ & _ & Hwrite).
  cbn [chars fold_left] in Hwrite.
  exists t, before, (clearWorld r t (targetWorld (leadWorld d w))).
  assert (Htarget : targetWorld (leadWorld d w)
                    = logCall (CallInsertAdjacentHTML c (wrapperMarkup tag))
                        (onDocument (Dom.insertAdjacentHTML c (wrapperMarkup tag))
                           (leadWorld d w))).
  { unfold targetWorld. now rewrite this_leadWorld, Hwrap, Hc. }
  split; [exact Hbefore|]. split; [exact Hwrite|]. split; [|split; [|split]].
  - rewrite calls_clearWorld, Htarget. cbn [logCall onDocument calls].
    now rewrite <- app_assoc.
  - rewrite Htarget. destruct r; cbn; now rewrite document_leadWorld.
  - destruct (writable_container w Hwritable) as (c' & Hc' & Hmarkup).
    assert (c' = c) by congruence. subst c'.
    rewrite (insertAdjacentHTML_wrapper c (document w) tag Hmarkup
               (surfaceReady_validTag w tag Hready Hwrap)).
    cbn [root]. now rewrite childNodesOf_updateChildren, Hbefore.
  - now rewrite this_clearWorld, this_targetWorld, this_leadWorld.
Qed.

Lemma write_empty_string_appends_wrapper_witness :
  writable Examples.paragraphWriter = true
  /\ exists target before w2,
    childNodesOf 1 (root (document Examples.paragraphWriter)) = Some before
    /\ run (write (Str "") 1 0 false) Examples.paragraphWriter = (w2, inr tt)
    /\ calls w2
       = calls (leadWorld 0 Examples.paragraphWriter)
         ++ [CallInsertAdjacentHTML 1 (wrapperMarkup "p")]
         ++ (if false then [CallSetInnerHTML target EmptyString] else [])
    /\ document w2
       = (if false
          then Dom.clearInnerHTML target
                 (Dom.insertAdjacentHTML 1 (wrapperMarkup "p")
                    (document Examples.paragraphWriter))
          else Dom.insertAdjacentHTML 1 (wrapperMarkup "p")
                 (document Examples.paragraphWriter))
    /\ childNodesOf 1
         (root (Dom.insertAdjacentHTML 1 (wrapperMarkup "p")
                  (document Examples.paragraphWriter)))
       = Some (before
               ++ [Element (nextRef (document Examples.paragraphWriter)) "p"
                     EmptyString []])
    /\ this w2 = this Examples.paragraphWriter.
Proof.
  split; [reflexivity|].
  apply (write_empty_string_appends_wrapper Examples.paragraphWriter 1 0 false "p" 1);
    reflexivity.
Defined.

(** C9, as stated, fails for a wrapper tag the parser drops: after
    [setHtmlWrapperTag('tr')], [write('')] on the empty [div] calls
    [insertAdjacentHTML] with [<tr></tr>], which inside a [div] makes no
    element; the selector finds nothing, the loop has nothing to write,
    and the call resolves with the page as it found it. *)
Lemma write_empty_string_with_dropped_tag_appends_nothing :
  let w := setHtmlWrapperTag (Some "tr") Examples.writer in
  wrapperInForce (this w) = Some "tr"
  /\ run (write (Str "") 1 0 false) w
     = (logCall (CallInsertAdjacentHTML 1 "<tr></tr>") w, inr tt)
  /\ document (fst (run (write (Str "") 1 0 false) w)) = document Examples.writer
  /\ childNodesOf 1 (root (document (fst (run (write (Str "") 1 0 false) w))))
     = Some [].
Proof. vm_compute. repeat split. Qed.

(** *** Where the writer cannot write

    The conditions of [writable] are needed: these are the calls they
    leave out, on a page with one empty element. *)

(** An id that is no identifier: the wrapper is appended, then the
    selector text [#1box p:last-of-type] is rejected and so is the
    promise. *)
Lemma write_with_numeric_id_is_rejected :
  let d := mkDocument (Element 0 "body" EmptyString [Element 1 "div" "1box" []]) 2 in
  let w := setHtmlWrapperTag (Some "p") (newTextWriter "1box" false d) in
  surfaceReady w = true
  /\ writable w = false
  /\ snd (run (write (Str "hi") 1 0 false) w) = inl SyntaxError
  /\ childNodesOf 1 (root (document (fst (run (write (Str "hi") 1 0 false) w))))
     = Some [Element 2 "p" EmptyString []].
Proof. vm_compute. repeat split. Qed.

(** The wrapper tag [image]: the parser appends an [img], the selector
    finds no [image] and the first character has no target. *)
Lemma write_with_image_tag_is_rejected :
  let w := setHtmlWrapperTag (Some "image") Examples.writer in
  writable w = false
  /\ snd (run (write (Str "hi") 1 0 false) w) = inl TypeError
  /\ childNodesOf 1 (root (document (fst (run (write (Str "hi") 1 0 false) w))))
     = Some [Element 2 "img" EmptyString []].
Proof. vm_compute. repeat split. Qed.

(** A [textarea] as container: the markup of each character is appended
    as text. *)
Lemma write_into_textarea_appends_text :
  let d := mkDocument (Element 0 "body" EmptyString [Element 1 "textarea" "box" []]) 2 in
  let w := newTextWriter "box" false d in
  surfaceReady w = true
  /\ writable w = false
  /\ snd (run (write (Str "hi") 1 0 false) w) = inr tt
  /\ childNodesOf 1 (root (document (fst (run (write (Str "hi") 1 0 false) w))))
     = Some [Text "<span>h</span>"; Text "<span>i</span>"].
Proof. vm_compute. repeat split. Qed.

(** A carriage return is kept as a line feed and U+0000 is not kept: the
    [span] of the one holds a line feed, the [span] of the other
    nothing. *)
Lemma write_reads_line_end_and_null :
  childNodesOf 1
    (root (document
             (fst (run (write (Str (String "013"%char (String "000"%char "a"))) 1 0 false)
                       Examples.writer))))
  = Some [Element 2 "span" EmptyString [Text (String "010"%char EmptyString)];
          Element 3 "span" EmptyString [];
          Element 4 "span" EmptyString [Text "a"]].
Proof. vm_compute. reflexivity. Qed.

(** *** Clearing *)

(** With [replace] set, a write of a string clears the resolved target
    once, after the target is resolved and before the first character. *)
Lemma write_replace_clears_once (w : World) (s : string) (m d : float) :
  writable w = true ->
  exists target w2 later,
    run getTargetElement (leadWorld d w) = (targetWorld (leadWorld d w), inr (Some target))
    /\ run (write (Str s) m d true) w = (w2, inr tt)
    /\ calls w2
       = calls (targetWorld (leadWorld d w))
         ++ CallSetInnerHTML target EmptyString :: later
    /\ clears later = []
    /\ htmlInsertions later = map (fun ch => (target, spanMarkup ch)) (chars s).
Proof.
  intros Hready.
  destruct (run_write_Str w s m d true Hready) as (t & before & Hrun & _ & Hwrite).
  exists t, (fold_left (htmlCharStep m t) (chars s)
               (clearWorld true t (targetWorld (leadWorld d w)))),
    (flat_map (htmlCharCalls (this (targetWorld (leadWorld d w))) m t) (chars s)).
  split; [exact Hrun|]. split; [exact Hwrite|]. split; [|split].
  - rewrite calls_fold_htmlCharStep, calls_clearWorld, this_clearWorld.
    now rewrite <- app_assoc.
  - apply clears_htmlCharCalls.
  - apply htmlInsertions_htmlCharCalls.
Qed.

(** The example of the README: with the wrapper tag [p],
    [write(['a', 'b'])] writes into two different [p] elements. *)
Lemma write_list_in_two_paragraphs :
  let w' := fst (run (write (Arr [Str "a"; Str "b"]) 1 0 false) Examples.paragraphWriter) in
  htmlInsertions (calls w')
  = [(1, "<p></p>"); (2, "<span>a</span>"); (1, "<p></p>"); (4, "<span>b</span>")]
  /\ root (document w')
     = Element 0 "body" EmptyString
         [Element 1 "div" "box"
            [Element 2 "p" EmptyString [Element 3 "span" EmptyString [Text "a"]];
             Element 4 "p" EmptyString [Element 5 "span" EmptyString [Text "b"]]]].
Proof. vm_compute. split; reflexivity. Qed.

(** C5 at [setHtmlWrapperTag('span'); write(['a', 'b'], 1, 0, true)] on
    an empty container: the second element's wrapper (reference 4) is
    appended but the selector resolves the target to the [span] of the
    character [a] (reference 3); that element is cleared, the text [a] is
    lost, and [b] is written into it; the new wrapper stays empty. *)
Theorem replace_on_list_clears_earlier_character :
  let w' := fst (run (write (Arr [Str "a"; Str "b"]) 1 0 true) Examples.spanWriter) in
  snd (run (write (Arr [Str "a"; Str "b"]) 1 0 true) Examples.spanWriter) = inr tt
  /\ htmlInsertions (calls w')
     = [(1, "<span></span>"); (2, "<span>a</span>");
        (1, "<span></span>"); (3, "<span>b</span>")]
  /\ clears (calls w') = [2; 3]
  /\ root (document w')
     = Element 0 "body" EmptyString
         [Element 1 "div" "box"
            [Element 2 "span" EmptyString
               [Element 3 "span" EmptyString
                  [Element 5 "span" EmptyString [Text "b"]]];
             Element 4 "span" EmptyString []]].
Proof. vm_compute. repeat split. Qed.

(** *** [writeJson] on well-formed input *)

Lemma elementQuerySelector_after_append (c : Ref) (tag : string) (d : Document)
    (before : list Node) :
  childNodesOf c (root d) = Some before ->
  exists e i,
    findElement c (root d) = Some (Element c e i before)
    /\ elementQuerySelector c tag
         (mkDocument
            (updateChildren c
               (fun cs => cs ++ [Element (nextRef d) tag EmptyString []]) (root d))
            (S (nextRef d)))
       = queryChildren tag true (queryLastOfType (fun _ => false) tag true)
           (before ++ [Element (nextRef d) tag EmptyString []]).
Proof.
  unfold childNodesOf, elementQuerySelector. intros H.
  destruct (findElement c (root d)) as [n|] eqn:E; [|discriminate].
  destruct (findElement_ref _ _ _ E) as (e & i & cs & ->).
  injection H as ->. exists e, i. split; [reflexivity|].
  cbn [root]. rewrite findElement_updateChildren, E. reflexivity.
Qed.

Lemma validTag_pre : validTag "pre" = true.
Proof. reflexivity. Qed.

Lemma document_preWorld (c : Ref) (w : World) :
  takesMarkup c (document w) = true ->
  document (preWorld c w)
  = mkDocument
      (updateChildren c
         (fun cs => cs ++ [Element (nextRef (document w)) "pre" EmptyString []])
         (root (document w)))
      (S (nextRef (document w))).
Proof.
  intros Hmarkup. unfold preWorld. cbn [logCall onDocument document].
  exact (insertAdjacentHTML_wrapper c (document w) "pre" Hmarkup validTag_pre).
Qed.

(** With the container on the page, reading markup, and a serializable
    value, [writeJson] runs to its end: it appends a [pre] to the
    container, resolves one target with the selector, and appends the
    characters of the serialization, with indentation 2, as text to that
    target, in order. *)
Lemma run_writeJson {J : JSON} (arg : JsonArg) (v : JsValue) (txt : string)
    (m : float) (w : World) (c : Ref) (before : list Node) :
  jsonValue arg = Some v ->
  JSON_stringify v 2 = Serialized txt ->
  textDestinationContainer (this w) = Some c ->
  takesMarkup c (document w) = true ->
  childNodesOf c (root (document w)) = Some before ->
  exists t,
    queryChildren "pre" true (queryLastOfType (fun _ => false) "pre" true)
      (before ++ [Element (nextRef (document w)) "pre" EmptyString []]) = Some t
    /\ run (writeJson arg m) w
       = (fold_left (textCharStep m t) (chars txt) (preWorld c w), inr tt).
Proof.
  intros Hv Hs Hc Hmarkup Hbefore.
  destruct (elementQuerySelector_after_append c "pre" (document w) before Hbefore)
    as (e & i & _ & Hq).
  destruct (queryChildren "pre" true (queryLastOfType (fun _ => false) "pre" true)
              (before ++ [Element (nextRef (document w)) "pre" EmptyString []]))
    as [t|] eqn:Q; [|exfalso; revert Q; apply queryChildren_last].
  exists t. split; [reflexivity|].
  unfold writeJson. rewrite run_bind.
  assert (Hfirst : run (match arg with
                        | ArgString s =>
                            match JSON_parse s with
                            | Some v0 => ret v0
                            | None => throw SyntaxError
                            end
                        | ArgValue v0 => ret v0
                        end) w = (w, inr v)).
  { destruct arg as [s|v0]; cbn in Hv; [rewrite Hv|injection Hv as ->]; reflexivity. }
  rewrite Hfirst. cbn [andThen]. rewrite Hs. runs. rewrite Hc.
  unfold Page.insertAdjacentHTML, Page.querySelector. runs.
  fold (preWorld c w).
  assert (Hsel : Dom.elementQuerySelector c "pre" (document (preWorld c w)) = Some t)
    by (rewrite (document_preWorld c w Hmarkup); exact Hq).
  rewrite Hsel.
  rewrite run_forRange with (step := textCharStep m t) (char := charAt txt) (c := c).
  - now rewrite charAt_seq.
  - intros; apply this_textCharStep.
  - intros j w' Hw'. now apply run_textChar with (c := c).
  - exact Hc.
Qed.

(** The target is the new [pre] when nothing below the container's
    children matches the selector. *)
Lemma queryChildren_new (tag : string) (below : Node -> option Ref)
    (before : list Node) (r : Ref) (i : string) (kids : list Node) :
  Forall (fun n => below n = None) before ->
  queryChildren tag true below (before ++ [Element r tag i kids]) = Some r.
Proof.
  induction 1 as [|n before Hn _ IH]; cbn.
  - unfold lastOfType. cbn. now rewrite String.eqb_refl.
  - unfold lastOfType. rewrite existsb_app. cbn. rewrite String.eqb_refl.
    rewrite orb_true_r, andb_false_r, Hn. exact IH.
Qed.

(** *** When the selector finds the new element *)

Lemma firstSome_map_first {A B : Type} (f : A -> option B) (l : list A) (b : B) :
  firstSome (map f l) = Some b ->
  exists l1 x l2, l = l1 ++ x :: l2 /\ Forall (fun y => f y = None) l1 /\ f x = Some b.
Proof.
  induction l as [|y l IH]; simpl; [discriminate|].
  destruct (f y) as [b'|] eqn:E.
  - intros [= <-]. exists [], y, l. auto.
  - intros H. destruct (IH H) as (l1 & x & l2 & -> & Hl1 & Hx).
    exists (y :: l1), x, l2. auto.
Qed.

Lemma queryChildren_ext (tag : string) (inside : bool)
    (below1 below2 : Node -> option Ref) (l : list Node) :
  Forall (fun x => below1 x = below2 x) l ->
  queryChildren tag inside below1 l = queryChildren tag inside below2 l.
Proof.
  induction 1 as [|x l Hx _ IH]; simpl; [reflexivity|].
  now rewrite Hx, IH.
Qed.

(** Inside the scope, the id the selector asks for plays no part. *)
Lemma queryLastOfType_inside (scope : string -> bool) (tag : string) (n : Node) :
  queryLastOfType scope tag true n = queryLastOfType (fun _ => false) tag true n.
Proof.
  induction n as [d|r t i cs IH] using Node_induction; simpl; [reflexivity|].
  now apply queryChildren_ext.
Qed.

(** Where no element has the id, the selector matches nothing. *)
Lemma queryLastOfType_out_of_scope (i tag : string) (n : Node) :
  elementById i n = None -> queryLastOfType (String.eqb i) tag false n = None.
Proof.
  induction n as [d|r t i0 cs IH] using Node_induction; simpl; [reflexivity|].
  rewrite (String.eqb_sym i i0).
  destruct (String.eqb i0 i); [discriminate|]. simpl.
  induction IH as [|x rest Hx _ IHrest]; simpl; [reflexivity|].
  destruct (elementById i x) eqn:E; [discriminate|].
  intros H. now rewrite Hx, IHrest.
Qed.

Lemma queryChildren_outside_skip (tag : string) (below : Node -> option Ref)
    (l1 l2 : list Node) :
  Forall (fun x => below x = None) l1 ->
  queryChildren tag false below (l1 ++ l2) = queryChildren tag false below l2.
Proof.
  induction 1 as [|x l1 Hx _ IH]; simpl; [reflexivity|]. now rewrite Hx.
Qed.

(** An element of the tree with the id [i] makes [elementById i] succeed. *)
Lemma elementById_of_found (c : Ref) (i : string) (n : Node) (t : string)
    (cs : list Node) :
  findElement c n = Some (Element c t i cs) -> elementById i n <> None.
Proof.
  induction n as [d|r t0 i0 cs0 IH] using Node_induction; simpl; [discriminate|].
  destruct (String.eqb_spec i0 i) as [->|Hi]; [discriminate|].
  destruct (Nat.eqb r c).
  - intros [= -> -> -> ->]. contradiction.
  - intros H. apply firstSome_map_Some in H. destruct H as (z & Hz & Ez).
    rewrite Forall_forall in IH.
    apply firstSome_map_In with z; [exact Hz|now apply IH].
Qed.

Lemma findElement_of_elementById (i : string) (c : Ref) (n : Node) :
  elementById i n = Some c -> findElement c n <> None.
Proof.
  induction n as [d|r t i0 cs IH] using Node_induction; simpl; [discriminate|].
  destruct (String.eqb i0 i).
  - intros [= ->]. now rewrite Nat.eqb_refl.
  - intros H. destruct (Nat.eqb r c); [discriminate|].
    apply firstSome_map_Some in H. destruct H as (z & Hz & Ez).
    rewrite Forall_forall in IH.
    apply firstSome_map_In with z; [exact Hz|now apply IH].
Qed.

(** The element just appended to the container is the one the selector of
    [getTargetElement] returns, when the container is the first element
    with its id and no element of the tag below one of its children is the
    last of its type. *)
Lemma query_returns_appended (i tag : string) (c new : Ref) (newId : string)
    (kids before : list Node) (n : Node) :
  elementById i n = Some c ->
  idOf c n = Some i ->
  childNodesOf c n = Some before ->
  Forall (fun x => queryLastOfType (fun _ => false) tag true x = None) before ->
  queryLastOfType (String.eqb i) tag false
    (updateChildren c (fun cs => cs ++ [Element new tag newId kids]) n)
  = Some new.
Proof.
  intros Hby Hid Hkids Hnone. revert Hby Hid Hkids.
  induction n as [d|r t i0 cs IH] using Node_induction; [discriminate|].
  unfold idOf, childNodesOf. simpl.
  destruct (Nat.eqb_spec r c) as [->|Hne].
  - intros _ [= ->] [= ->]. simpl. rewrite String.eqb_refl. simpl.
    apply queryChildren_new.
    revert Hnone. apply Forall_impl. intros x Hx.
    now rewrite queryLastOfType_inside.
  - destruct (String.eqb_spec i0 i) as [->|Hi].
    + intros [= Hrc]. contradiction.
    + intros Hby Hid Hkids. simpl.
      destruct (String.eqb_spec i i0) as [Heq|_]; [now subst|]. simpl.
      apply firstSome_map_first in Hby.
      destruct Hby as (l1 & x & l2 & -> & Hl1 & Hx).
      rewrite map_app. cbn [map].
      assert (Hfind : Forall (fun y => findElement c y = None) l1).
      { clear - Hl1 Hid.
        induction Hl1 as [|y l1 Hy _ IHl1]; [constructor|].
        cbn [map app firstSome] in Hid.
        destruct (findElement c y) as [e|] eqn:E.
        - exfalso. destruct (findElement_ref _ _ _ E) as (t' & i' & cs' & ->).
          injection Hid as ->.
          now apply (elementById_of_found c i y t' cs' E).
        - constructor; [exact E|]. apply IHl1. exact Hid. }
      rewrite queryChildren_outside_skip.
      * cbn [queryChildren].
        rewrite Forall_forall in IH.
        assert (Hin : In x (l1 ++ x :: l2)) by (apply in_or_app; right; left; reflexivity).
        assert (Hfx : firstSome (map (findElement c) (l1 ++ x :: l2)) = findElement c x).
        { clear - Hfind Hx. induction Hfind as [|y l1 Hy _ IHl1]; simpl.
          - pose proof (findElement_of_elementById i c x Hx) as Hfound.
            destruct (findElement c x); [reflexivity|contradiction].
          - now rewrite Hy. }
        rewrite Hfx in Hid, Hkids.
        rewrite (IH x Hin Hx Hid Hkids). reflexivity.
      * rewrite Forall_map.
        clear - Hl1 Hfind. induction Hl1 as [|y l1 Hy _ IHl1]; [constructor|].
        inversion Hfind as [|? ? Hfy Hfl1]; subst.
        constructor; [|now apply IHl1].
        rewrite updateChildren_absent by exact Hfy.
        now apply queryLastOfType_out_of_scope.
Qed.

(** [getTargetElement] returns the wrapper it has just created when the
    container is the first element of the page with its id and no element
    of the wrapper tag below one of its children is the last of its type;
    an empty container is the plainest case. *)
Lemma getTargetElement_returns_new_wrapper (w : World) (tag : string) (c : Ref)
    (i : string) (before : list Node) :
  wrapperInForce (this w) = Some tag ->
  validTag tag = true ->
  textDestinationContainer (this w) = Some c ->
  takesMarkup c (document w) = true ->
  cssIdentifier i = true ->
  elementById i (root (document w)) = Some c ->
  idOf c (root (document w)) = Some i ->
  childNodesOf c (root (document w)) = Some before ->
  Forall (fun x => queryLastOfType (fun _ => false) tag true x = None) before ->
  run getTargetElement w = (targetWorld w, inr (Some (nextRef (document w)))).
Proof.
  intros Hwrap Hvalid Hc Hmarkup Hi Hby Hid Hkids Hnone.
  destruct (run_getTargetElement_wrapper w tag c i Hwrap Hvalid Hc Hmarkup Hid Hi)
    as (t & Hrun & Hquery).
  rewrite Hrun. unfold targetWorld in Hquery. rewrite Hwrap, Hc in Hquery.
  cbn [logCall onDocument document] in Hquery.
  rewrite (insertAdjacentHTML_wrapper c (document w) tag Hmarkup Hvalid) in Hquery.
  cbn [root] in Hquery.
  rewrite (query_returns_appended i tag c (nextRef (document w)) EmptyString
             [] before (root (document w)) Hby Hid Hkids Hnone) in Hquery.
  now injection Hquery as <-.
Qed.

(** C6 on a container that already holds [<div><pre>old</pre></div>]:
    [writeJson('{"a":1}')] appends a new [pre] (reference 4), but the
    selector resolves the target to the [pre] inside the [div] (reference
    3); the serialization is appended there, after [old], and the new
    [pre] stays empty. *)
Theorem writeJson_writes_into_earlier_pre :
  let result := run (writeJson (ArgString Examples.jsonText) writeJson_animationMultiplier)
                    Examples.preWriter in
  let serialized := MiniJSON.serialize "  " EmptyString
                      (MiniJSON.VObject [("a", MiniJSON.VNumber 1)]) in
  snd result = inr tt
  /\ htmlInsertions (calls (fst result)) = [(1, "<pre></pre>")]
  /\ textInsertions (calls (fst result)) = map (fun ch => (3, ch)) (chars serialized)
  /\ childNodesOf 4 (root (document (fst result))) = Some []
  /\ childNodesOf 3 (root (document (fst result)))
     = Some (Text "old" :: map Text (chars serialized)).
Proof. vm_compute. repeat split. Qed.

(* ================================================================= *)
(** * More of the class

    The rest of this file follows the methods through the cases the
    properties above leave aside: the order of the calls, the pauses and
    the scrolling, a surface that is not resolved, the constructor, and
    calls that overlap. *)

(** ** The order of the calls of [write] *)

Lemma scrolls_app (a b : list Call) : scrolls (a ++ b) = scrolls a ++ scrolls b.
Proof. apply flat_map_app. Qed.

Lemma calls_leadWorld (d : float) (w : World) :
  calls (leadWorld d w) = calls w ++ leadCalls d.
Proof.
  unfold leadWorld, leadCalls. destruct (truthyNumber d); cbn; [reflexivity|].
  now rewrite app_nil_r.
Qed.

Lemma calls_targetWorld (w : World) :
  calls (targetWorld w) = calls w ++ wrapperCalls (this w).
Proof.
  unfold targetWorld, wrapperCalls.
  destruct (wrapperInForce (this w)), (textDestinationContainer (this w));
    cbn; now rewrite ?app_nil_r.
Qed.

(** X1: a writer that can write makes these calls for [write(s)], and
    no other, in this order: the timer of the lead delay when [delay] is
    truthy; the insertion of the wrapper when a wrapper tag is in force;
    the clearing of the target when [replace] is set; then for each
    character of [s], left to right, the timer of the pause unless the
    pause is zero, the insertion of the wrapped character into the target,
    and the scroll when scrolling is enabled. *)
Theorem write_call_sequence (w : World) (s : string) (m d : float) (r : bool) :
  writable w = true ->
  exists target w2,
    run getTargetElement (leadWorld d w) = (targetWorld (leadWorld d w), inr (Some target))
    /\ run (write (Str s) m d r) w = (w2, inr tt)
    /\ calls w2
       = calls w ++ leadCalls d ++ wrapperCalls (this w) ++ clearCalls r target
         ++ flat_map (fun ch => sleepCalls (this w) m
                                ++ [CallInsertAdjacentHTML target (spanMarkup ch)]
                                ++ scrollCalls (this w)) (chars s).
Proof.
  intros Hready.
  destruct (run_write_Str w s m d r Hready) as (t & before & Hrun & _ & Hwrite).
  exists t, (fold_left (htmlCharStep m t) (chars s)
               (clearWorld r t (targetWorld (leadWorld d w)))).
  split; [exact Hrun|]. split; [exact Hwrite|].
  rewrite calls_fold_htmlCharStep, calls_clearWorld, calls_targetWorld, calls_leadWorld.
  rewrite this_clearWorld, this_targetWorld, this_leadWorld.
  unfold clearCalls. rewrite <- !app_assoc. reflexivity.
Qed.

Lemma write_call_sequence_witness :
  writable Examples.spanWriter = true
  /\ exists target w2,
    run getTargetElement (leadWorld 30 Examples.spanWriter)
    = (targetWorld (leadWorld 30 Examples.spanWriter), inr (Some target))
    /\ run (write (Str "hi") 2 30 true) Examples.spanWriter = (w2, inr tt)
    /\ calls w2
       = calls Examples.spanWriter ++ leadCalls 30
         ++ wrapperCalls (this Examples.spanWriter) ++ clearCalls true target
         ++ flat_map (fun ch => sleepCalls (this Examples.spanWriter) 2
                                ++ [CallInsertAdjacentHTML target (spanMarkup ch)]
                                ++ scrollCalls (this Examples.spanWriter)) (chars "hi").
Proof.
  split; [reflexivity|].
  apply (write_call_sequence Examples.spanWriter "hi" 2 30 true). reflexivity.
Defined.

(** ** Pauses and scrolling *)

Lemma timers_htmlCharCalls (o : TextWriter) (m : float) (t : Ref) (cs : list string) :
  timers (flat_map (htmlCharCalls o m t) cs)
  = if PrimFloat.eqb (PrimFloat.mul (animationDelay o) m) 0%float then []
    else repeat (PrimFloat.mul (animationDelay o) m) (List.length cs).
Proof.
  induction cs as [|ch cs IH].
  - cbn. now destruct (PrimFloat.eqb _ _).
  - cbn [flat_map List.length repeat]. rewrite timers_app, IH.
    unfold htmlCharCalls, sleepCalls.
    destruct (PrimFloat.eqb _ _);
      destruct (scrollCalls_cases o) as [->|[? ->]]; reflexivity.
Qed.

Lemma timers_textCharCalls (o : TextWriter) (m : float) (t : Ref) (cs : list string) :
  timers (flat_map (textCharCalls o m t) cs)
  = if PrimFloat.eqb (PrimFloat.mul (animationDelay o) m) 0%float then []
    else repeat (PrimFloat.mul (animationDelay o) m) (List.length cs).
Proof.
  induction cs as [|ch cs IH].
  - cbn. now destruct (PrimFloat.eqb _ _).
  - cbn [flat_map List.length repeat]. rewrite timers_app, IH.
    unfold textCharCalls, sleepCalls.
    destruct (PrimFloat.eqb _ _);
      destruct (scrollCalls_cases o) as [->|[? ->]]; reflexivity.
Qed.

Lemma scrolls_htmlCharCalls (o : TextWriter) (m : float) (t : Ref) (cs : list string) :
  scrolls (flat_map (htmlCharCalls o m t) cs)
  = flat_map (fun _ => scrolls (scrollCalls o)) cs.
Proof.
  induction cs as [|ch cs IH]; [reflexivity|].
  cbn [flat_map]. rewrite scrolls_app, IH. f_equal.
  unfold htmlCharCalls. rewrite !scrolls_app.
  destruct (sleepCalls_cases o m) as [->|[? ->]]; reflexivity.
Qed.

Lemma scrolls_textCharCalls (o : TextWriter) (m : float) (t : Ref) (cs : list string) :
  scrolls (flat_map (textCharCalls o m t) cs)
  = flat_map (fun _ => scrolls (scrollCalls o)) cs.
Proof.
  induction cs as [|ch cs IH]; [reflexivity|].
  cbn [flat_map]. rewrite scrolls_app, IH. f_equal.
  unfold textCharCalls. rewrite !scrolls_app.
  destruct (sleepCalls_cases o m) as [->|[? ->]]; reflexivity.
Qed.

Lemma flat_map_const_repeat {A B : Type} (b : B) (l : list A) :
  flat_map (fun _ => [b]) l = repeat b (List.length l).
Proof. induction l as [|a l IH]; [reflexivity|]. cbn. now rewrite IH. Qed.

Lemma flat_map_const_nil {A B : Type} (l : list A) :
  flat_map (fun _ => @nil B) l = [].
Proof. induction l as [|a l IH]; [reflexivity|exact IH]. Qed.

Lemma timers_wrapperCalls (o : TextWriter) : timers (wrapperCalls o) = [].
Proof.
  unfold wrapperCalls. now destruct (wrapperInForce o), (textDestinationContainer o).
Qed.

Lemma scrolls_wrapperCalls (o : TextWriter) : scrolls (wrapperCalls o) = [].
Proof.
  unfold wrapperCalls. now destruct (wrapperInForce o), (textDestinationContainer o).
Qed.

(** X2: the timers [write(s)] sets, for a writer that can write, are the lead
    delay, when it is truthy, followed by one timer of
    [animationDelay * multiplier] per character of [s]; none per character
    when that product is zero. *)
Theorem write_sets_one_timer_per_character (w : World) (s : string) (m d : float)
    (r : bool) :
  writable w = true ->
  exists w2,
    run (write (Str s) m d r) w = (w2, inr tt)
    /\ timers (calls w2)
       = timers (calls w)
         ++ (if truthyNumber d then [d] else [])
         ++ (if PrimFloat.eqb (PrimFloat.mul (animationDelay (this w)) m) 0%float
             then []
             else repeat (PrimFloat.mul (animationDelay (this w)) m) (String.length s)).
Proof.
  intros Hready.
  destruct (run_write_Str w s m d r Hready) as (t & before & _ & _ & Hwrite).
  eexists. split; [exact Hwrite|].
  rewrite calls_fold_htmlCharStep, calls_clearWorld, calls_targetWorld, calls_leadWorld.
  rewrite this_clearWorld, this_targetWorld, this_leadWorld.
  rewrite !timers_app, timers_htmlCharCalls, timers_wrapperCalls, chars_length.
  unfold leadCalls. rewrite <- !app_assoc.
  destruct (truthyNumber d), r; reflexivity.
Qed.

Lemma write_sets_one_timer_per_character_witness :
  writable Examples.writer = true
  /\ exists w2,
    run (write (Str "hi") 2 30 false) Examples.writer = (w2, inr tt)
    /\ timers (calls w2)
       = timers (calls Examples.writer)
         ++ (if truthyNumber 30 then [30%float] else [])
         ++ (if PrimFloat.eqb (PrimFloat.mul (animationDelay (this Examples.writer)) 2)
                  0%float
             then []
             else repeat (PrimFloat.mul (animationDelay (this Examples.writer)) 2)
                    (String.length "hi")).
Proof.
  split; [reflexivity|].
  apply (write_sets_one_timer_per_character Examples.writer "hi" 2 30 false).
  reflexivity.
Defined.

(** X3: with scrolling enabled, [write(s)] by a writer that can write calls
    [scrollIntoView] once per character, each time on the container (not
    on the target); with scrolling disabled it never scrolls. *)
Theorem write_scrolls_container_per_character (w : World) (s : string) (m d : float)
    (r : bool) (c : Ref) :
  writable w = true ->
  textDestinationContainer (this w) = Some c ->
  exists w2,
    run (write (Str s) m d r) w = (w2, inr tt)
    /\ scrolls (calls w2)
       = scrolls (calls w)
         ++ (if scrollToTextEnabled (this w) then repeat c (String.length s) else []).
Proof.
  intros Hready Hc.
  destruct (run_write_Str w s m d r Hready) as (t & before & _ & _ & Hwrite).
  eexists. split; [exact Hwrite|].
  rewrite calls_fold_htmlCharStep, calls_clearWorld, calls_targetWorld, calls_leadWorld.
  rewrite this_clearWorld, this_targetWorld, this_leadWorld.
  rewrite !scrolls_app, scrolls_htmlCharCalls, scrolls_wrapperCalls.
  unfold scrollCalls. rewrite Hc.
  assert (Hlead : scrolls (leadCalls d) = [])
    by (unfold leadCalls; now destruct (truthyNumber d)).
  assert (Hclear : scrolls (if r then [CallSetInnerHTML t EmptyString] else []) = [])
    by now destruct r.
  rewrite Hlead, Hclear, !app_nil_r.
  destruct (scrollToTextEnabled (this w)); cbn [scrolls flat_map app].
  - now rewrite flat_map_const_repeat, chars_length.
  - now rewrite flat_map_const_nil.
Qed.

Lemma write_scrolls_container_per_character_witness :
  writable (newTextWriter "box" true Examples.page) = true
  /\ textDestinationContainer (this (newTextWriter "box" true Examples.page)) = Some 1
  /\ exists w2,
    run (write (Str "hi") 1 0 false) (newTextWriter "box" true Examples.page)
    = (w2, inr tt)
    /\ scrolls (calls w2)
       = scrolls (calls (newTextWriter "box" true Examples.page))
         ++ (if scrollToTextEnabled (this (newTextWriter "box" true Examples.page))
             then repeat 1 (String.length "hi") else []).
Proof.
  split; [reflexivity|]. split; [reflexivity|].
  apply (write_scrolls_container_per_character
           (newTextWriter "box" true Examples.page) "hi" 1 0 false 1);
    reflexivity.
Defined.

(** ** A surface that is not resolved *)

Lemma run_getTargetElement_unresolved (w : World) :
  textDestinationContainer (this w) = None ->
  run getTargetElement w
  = (w, match wrapperInForce (this w) with
        | Some _ => inl TypeError
        | None => inr None
        end).
Proof.
  intros Hc. unfold getTargetElement, wrapperInForce. runs. rewrite Hc.
  destruct (htmlWrapperTag (this w)) as [tag|]; [|reflexivity].
  destruct (truthyString tag); reflexivity.
Qed.

(** X4: when the container is not resolved ([getElementById] found
    nothing), [write(s)] never touches the page.  It resolves, having done
    nothing, only for the empty string with no wrapper tag in force and
    [replace] unset; in every other case its promise is rejected with a
    TypeError, after the lead delay and, when the failure is the first
    character's insertion, after the first pause. *)
Theorem write_on_unresolved_surface (w : World) (s : string) (m d : float) (r : bool) :
  textDestinationContainer (this w) = None ->
  run (write (Str s) m d r) w
  = match wrapperInForce (this w) with
    | Some _ => (leadWorld d w, inl TypeError)
    | None =>
        if r then (leadWorld d w, inl TypeError)
        else match s with
             | EmptyString => (leadWorld d w, inr tt)
             | String _ _ => (firstPauseWorld s m (leadWorld d w), inl TypeError)
             end
    end
  /\ document (fst (run (write (Str s) m d r) w)) = document w
  /\ htmlInsertions (calls (fst (run (write (Str s) m d r) w))) = htmlInsertions (calls w).
Proof.
  intros Hc.
  assert (Hc' : textDestinationContainer (this (leadWorld d w)) = None)
    by now rewrite this_leadWorld.
  assert (Hrun : run (write (Str s) m d r) w
                 = match wrapperInForce (this w) with
                   | Some _ => (leadWorld d w, inl TypeError)
                   | None =>
                       if r then (leadWorld d w, inl TypeError)
                       else match s with
                            | EmptyString => (leadWorld d w, inr tt)
                            | String _ _ =>
                                (firstPauseWorld s m (leadWorld d w), inl TypeError)
                            end
                   end).
  { cbn [write]. rewrite run_bind, run_lead. cbn [andThen].
    rewrite run_bind, (run_getTargetElement_unresolved _ Hc'), this_leadWorld.
    destruct (wrapperInForce (this w)); cbn [andThen]; [reflexivity|].
    destruct r; [reflexivity|]. runs.
    destruct s as [|a s]; [reflexivity|].
    cbn [String.length forRange]. rewrite run_bind, run_bind, run_sleep.
    cbn [andThen]. runs. reflexivity. }
  split; [exact Hrun|]. rewrite Hrun.
  assert (Hlead : htmlInsertions (calls (leadWorld d w)) = htmlInsertions (calls w)).
  { rewrite calls_leadWorld, htmlInsertions_app. unfold leadCalls.
    destruct (truthyNumber d); cbn; now rewrite app_nil_r. }
  destruct (wrapperInForce (this w)); [|destruct r; [|destruct s as [|a s]]];
    cbn [fst firstPauseWorld document calls]; rewrite ?document_leadWorld;
    try (split; [reflexivity|exact Hlead]).
  split; [reflexivity|].
  rewrite htmlInsertions_app, Hlead.
  destruct (sleepCalls_cases (this (leadWorld d w)) m) as [->|[? ->]];
    cbn; now rewrite app_nil_r.
Qed.

Lemma write_on_unresolved_surface_witness :
  textDestinationContainer (this (newTextWriter "nowhere" false Examples.page)) = None
  /\ run (write (Str "hi") 1 0 false) (newTextWriter "nowhere" false Examples.page)
     = (firstPauseWorld "hi" 1 (newTextWriter "nowhere" false Examples.page),
        inl TypeError).
Proof.
  split; [reflexivity|].
  exact (proj1 (write_on_unresolved_surface
                  (newTextWriter "nowhere" false Examples.page) "hi" 1 0 false
                  eq_refl)).
Defined.

(** ** Failures of [writeJson] *)

(** X5: [writeJson] fails in three more ways, each at its own point.
    When [JSON.stringify] throws, the promise is rejected in the first
    stretch and the world is untouched.  When the container is not
    resolved, the promise is rejected with a TypeError and the world is
    untouched.  When [JSON.stringify] returns [undefined] and the
    container is resolved, the [pre] has been appended by the time reading
    [toWrite.length] throws: the promise is rejected with a TypeError and
    the world is the one with the [pre] appended. *)
Theorem writeJson_failures {J : JSON} (arg : JsonArg) (v : JsValue) (m : float)
    (w : World) :
  jsonValue arg = Some v ->
  match JSON_stringify v 2, textDestinationContainer (this w) with
  | Throws, _ => writeJson arg m w = (w, Rejected TypeError)
  | Serialized _, None => writeJson arg m w = (w, Rejected TypeError)
  | Undefined, None => writeJson arg m w = (w, Rejected TypeError)
  | Undefined, Some c => writeJson arg m w = (preWorld c w, Rejected TypeError)
  | Serialized _, Some _ => True
  end.
Proof.
  intros Hv.
  assert (Hfirst : forall f : JsValue -> Task unit,
            bind (match arg with
                  | ArgString s =>
                      match JSON_parse s with
                      | Some v0 => ret v0
                      | None => throw SyntaxError
                      end
                  | ArgValue v0 => ret v0
                  end) f w = f v w).
  { intros f. destruct arg as [s|v0]; cbn in Hv;
      [rewrite Hv|injection Hv as ->]; reflexivity. }
  unfold writeJson. rewrite Hfirst.
  destruct (JSON_stringify v 2) as [txt| |];
    destruct (textDestinationContainer (this w)) as [c|] eqn:Hc;
    try exact I; unfold bind, ret, gets at 1; cbn; rewrite ?Hc; reflexivity.
Qed.

Lemma writeJson_failures_witness :
  @jsonValue edgeJSON (@ArgValue edgeJSON EdgeUndefined) = Some EdgeUndefined
  /\ @writeJson edgeJSON (@ArgValue edgeJSON EdgeUndefined)
       writeJson_animationMultiplier Examples.writer
     = (preWorld 1 Examples.writer, Rejected TypeError).
Proof.
  split; [reflexivity|].
  exact (@writeJson_failures edgeJSON (@ArgValue edgeJSON EdgeUndefined) EdgeUndefined
           writeJson_animationMultiplier Examples.writer eq_refl).
Defined.

(** ** Well-formed pages and the constructor *)

Lemma elementById_in_refs (i : string) (c : Ref) (n : Node) :
  elementById i n = Some c -> In c (refs n).
Proof.
  intros H. pose proof (findElement_of_elementById i c n H) as Hf.
  destruct (findElement c n) as [e|] eqn:E; [|contradiction].
  eapply findElement_in_refs. exact E.
Qed.

(** On a page without duplicate references, the element [getElementById]
    returns bears the id asked for. *)
Lemma idOf_elementById (i : string) (c : Ref) (n : Node) :
  NoDup (refs n) -> elementById i n = Some c -> idOf c n = Some i.
Proof.
  induction n as [d|r t i0 cs IH] using Node_induction; [discriminate|].
  unfold idOf. cbn. intros Hnd.
  apply NoDup_cons_iff in Hnd. destruct Hnd as [Hr Hnd].
  destruct (String.eqb_spec i0 i) as [->|Hi].
  - intros [= ->]. now rewrite Nat.eqb_refl.
  - intros Hby. pose proof Hby as Hfirst.
    apply firstSome_map_first in Hfirst.
    destruct Hfirst as (l1 & x & l2 & -> & Hl1 & Hx).
    pose proof (elementById_in_refs i c x Hx) as Hcx.
    destruct (Nat.eqb_spec r c) as [->|Hrc].
    { exfalso. apply Hr. apply in_flat_map. exists x. split; [|exact Hcx].
      apply in_or_app. right. left. reflexivity. }
    pose proof (NoDup_flat_map_first refs l1 l2 x c Hnd Hcx) as Hnone.
    assert (Hskip : firstSome (map (findElement c) (l1 ++ x :: l2)) = findElement c x).
    { clear - Hnone Hx. induction Hnone as [|y l1 Hy _ IHl1]; cbn.
      - pose proof (findElement_of_elementById i c x Hx).
        destruct (findElement c x); [reflexivity|contradiction].
      - now rewrite (findElement_not_in_refs c y Hy). }
    rewrite Hskip. rewrite Forall_forall in IH.
    apply (IH x); [apply in_or_app; right; left; reflexivity| |exact Hx].
    clear - Hnd. induction l1 as [|y l1 IHl1]; cbn in Hnd.
    + now apply NoDup_app_remove_r in Hnd.
    + apply IHl1. now apply NoDup_app_remove_l in Hnd.
Qed.

Lemma container_newTextWriter (destinationId : string) (scroll : bool) (d : Document) :
  textDestinationContainer (this (newTextWriter destinationId scroll d))
  = (if truthyString destinationId then elementById destinationId (root d) else None).
Proof.
  cbn. unfold getElementById, truthyString.
  now destruct (String.eqb destinationId EmptyString).
Qed.

Lemma surfaceReady_newTextWriter (destinationId : string) (scroll : bool) (d : Document) :
  wellFormed d = true ->
  surfaceReady (newTextWriter destinationId scroll d)
  = match textDestinationContainer (this (newTextWriter destinationId scroll d)) with
    | Some _ => true
    | None => false
    end.
Proof.
  intros Hwf. pose proof (container_newTextWriter destinationId scroll d) as Hc.
  set (w := newTextWriter destinationId scroll d) in *.
  unfold surfaceReady. rewrite Hc.
  change (wrapperInForce (this w)) with (@None string).
  change (document w) with d. rewrite andb_true_r.
  destruct (truthyString destinationId) eqn:Hid; [|reflexivity].
  destruct (elementById destinationId (root d)) as [c|] eqn:Hby; [|reflexivity].
  apply andb_prop in Hwf. destruct Hwf as [Hnd _].
  now rewrite (idOf_elementById destinationId c (root d) (distinct_NoDup _ Hnd) Hby).
Qed.

(** X6: on a well-formed page, [new TextWriter(destinationId, scroll)]
    leaves the page alone and sets the delay to 100, no wrapper tag and
    the scroll flag as given; the surface is resolved exactly when the id
    is not empty and an element of the page has it, and the container is
    then the first such element in tree order.  Otherwise the container is
    left unset, silently. *)
Theorem constructor_resolves_surface (destinationId : string) (scroll : bool)
    (d : Document) :
  wellFormed d = true ->
  let w := newTextWriter destinationId scroll d in
  document w = d
  /\ calls w = []
  /\ animationDelay (this w) = 100%float
  /\ htmlWrapperTag (this w) = None
  /\ scrollToTextEnabled (this w) = scroll
  /\ textDestinationContainer (this w)
     = (if truthyString destinationId then elementById destinationId (root d) else None)
  /\ surfaceReady w
     = match textDestinationContainer (this w) with
       | Some _ => true
       | None => false
       end.
Proof.
  intros Hwf w. repeat (split; [reflexivity|]).
  split; [apply container_newTextWriter|now apply surfaceReady_newTextWriter].
Qed.

Lemma constructor_resolves_surface_witness :
  wellFormed Examples.page = true
  /\ surfaceReady (newTextWriter "box" true Examples.page) = true
  /\ surfaceReady (newTextWriter "nowhere" true Examples.page) = false.
Proof.
  split; [reflexivity|].
  pose proof (constructor_resolves_surface "box" true Examples.page eq_refl) as H1.
  pose proof (constructor_resolves_surface "nowhere" true Examples.page eq_refl) as H2.
  cbv zeta in H1, H2.
  destruct H1 as (_ & _ & _ & _ & _ & _ & H1).
  destruct H2 as (_ & _ & _ & _ & _ & _ & H2).
  split; [exact H1|exact H2].
Defined.

(** ** A writer that can write stays so *)

Lemma sameHead_firstSome (f g : Node -> option Node) (l : list Node) :
  Forall (fun x => sameHead (f x) (g x)) l ->
  sameHead (firstSome (map f l)) (firstSome (map g l)).
Proof.
  induction 1 as [|x l Hx _ IH]; cbn; [exact I|].
  unfold sameHead in Hx.
  destruct (f x) as [[? ? ? ?|?]|], (g x) as [[? ? ? ?|?]|]; try contradiction;
    [exact Hx|exact IH].
Qed.

Lemma firstSome_app_None {A : Type} (l l' : list (option A)) :
  Forall (fun x => x = None) l' -> firstSome (l ++ l') = firstSome l.
Proof.
  intros H. induction l as [|[a|] l IH]; cbn; auto.
  induction H as [|x l' -> _ IH]; cbn; auto.
Qed.

(** Appending nodes somewhere leaves the tag and the id of an element
    that is none of theirs. *)
Lemma sameHead_findElement_append (c t : Ref) (es : list Node) (n : Node) :
  Forall (fun e => findElement c e = None) es ->
  sameHead (findElement c (updateChildren t (fun cs => cs ++ es) n)) (findElement c n).
Proof.
  intros He. induction n as [d|r tg i cs IH] using Node_induction; cbn; [exact I|].
  destruct (Nat.eqb r t); cbn.
  - destruct (Nat.eqb r c); [split; reflexivity|].
    rewrite map_app, firstSome_app_None by (now rewrite Forall_map).
    destruct (firstSome (map (findElement c) cs)) as [[? ? ? ?|?]|] eqn:E; cbn; auto.
    apply firstSome_map_Some in E. destruct E as (x & _ & E).
    destruct (findElement_ref _ _ _ E) as (? & ? & ? & [=]).
  - destruct (Nat.eqb r c); [split; reflexivity|].
    rewrite map_map. now apply sameHead_firstSome.
Qed.

Lemma sameHead_refl (a : option Node) :
  match a with Some (Text _) => False | _ => True end -> sameHead a a.
Proof. destruct a as [[? ? ? ?|?]|]; cbn; auto. Qed.

Lemma sameHead_findElement_refl (c : Ref) (n : Node) :
  sameHead (findElement c n) (findElement c n).
Proof.
  apply sameHead_refl. destruct (findElement c n) as [e|] eqn:E; [|exact I].
  now destruct (findElement_ref _ _ _ E) as (? & ? & ? & ->).
Qed.

Lemma idOf_sameHead (c : Ref) (n n' : Node) :
  sameHead (findElement c n') (findElement c n) -> idOf c n' = idOf c n.
Proof.
  unfold idOf, sameHead.
  destruct (findElement c n') as [[? ? ? ?|?]|], (findElement c n) as [[? ? ? ?|?]|];
    try contradiction; intuition congruence.
Qed.

Lemma tagOf_sameHead (c : Ref) (n n' : Node) :
  sameHead (findElement c n') (findElement c n) -> tagOf c n' = tagOf c n.
Proof.
  unfold tagOf, sameHead.
  destruct (findElement c n') as [[? ? ? ?|?]|], (findElement c n) as [[? ? ? ?|?]|];
    try contradiction; intuition congruence.
Qed.

Lemma fragmentNodes_fresh (c start : Ref) (name content : string) :
  c < start ->
  Forall (fun e => findElement c e = None) (fragmentNodes start name content).
Proof.
  intros Hc. unfold fragmentNodes, textNodes.
  assert (H0 : Nat.eqb start c = false) by (apply Nat.eqb_neq; lia).
  assert (H1 : Nat.eqb (S start) c = false) by (apply Nat.eqb_neq; lia).
  destruct (existsb (String.eqb name) droppedTags); [constructor|].
  destruct (String.eqb name "image");
    [constructor; [cbn [findElement map firstSome]; now rewrite H0|constructor]|].
  destruct (String.eqb name "br");
    [constructor; [cbn [findElement map firstSome]; now rewrite H0|
     constructor; [cbn [findElement map firstSome]; now rewrite H1|constructor]]|].
  destruct (String.eqb name "plaintext");
    [constructor; [cbn [findElement map firstSome]; now rewrite H0|constructor]|].
  constructor; [|constructor]. cbn [findElement]. rewrite H0.
  now destruct (String.eqb (characterData content) EmptyString).
Qed.

(** An insertion of markup, into whatever element, leaves the tag and the
    id of an element that was there before, and takes no reference
    back. *)
Lemma sameHead_insertAdjacentHTML (c t : Ref) (html : string) (d : Document) :
  c < nextRef d ->
  sameHead (findElement c (root (Dom.insertAdjacentHTML t html d)))
           (findElement c (root d))
  /\ nextRef d <= nextRef (Dom.insertAdjacentHTML t html d).
Proof.
  intros Hc. unfold Dom.insertAdjacentHTML.
  destruct (tagOf t (root d)) as [context|];
    [|split; [apply sameHead_findElement_refl|lia]].
  destruct (contentModel context).
  - destruct (parseFragment html) as [[name content]|]; cbn [root nextRef];
      [|split; [apply sameHead_findElement_refl|lia]].
    split; [|lia].
    apply sameHead_findElement_append. now apply fragmentNodes_fresh.
  - cbn [root nextRef]. split; [|lia].
    apply sameHead_findElement_append. now repeat constructor.
  - split; [apply sameHead_findElement_refl|lia].
Qed.

Lemma sameHead_trans (a b c : option Node) :
  sameHead a b -> sameHead b c -> sameHead a c.
Proof.
  unfold sameHead.
  destruct a as [[? ? ? ?|?]|], b as [[? ? ? ?|?]|], c as [[? ? ? ?|?]|];
    try contradiction; intuition congruence.
Qed.

Lemma sameHead_fold_htmlCharStep (m : float) (c t : Ref) (cs : list string) :
  forall w, c < nextRef (document w) ->
    sameHead (findElement c (root (document (fold_left (htmlCharStep m t) cs w))))
             (findElement c (root (document w)))
    /\ nextRef (document w) <= nextRef (document (fold_left (htmlCharStep m t) cs w)).
Proof.
  induction cs as [|ch cs IH]; intros w Hc; cbn [fold_left];
    [split; [apply sameHead_findElement_refl|lia]|].
  destruct (sameHead_insertAdjacentHTML c t (spanMarkup ch) (document w) Hc)
    as [Hid Hnext].
  destruct (IH (htmlCharStep m t w ch)) as [Hid' Hnext'].
  - cbn [htmlCharStep document]. lia.
  - cbn [htmlCharStep document] in *. split; [|lia].
    eapply sameHead_trans; [exact Hid'|exact Hid].
Qed.

(** What decides whether a writer can write: the writer and the tag and
    id of its container. *)
Lemma writable_sameHead (w w' : World) (c : Ref) :
  this w' = this w ->
  textDestinationContainer (this w) = Some c ->
  sameHead (findElement c (root (document w'))) (findElement c (root (document w))) ->
  writable w' = writable w.
Proof.
  intros Hthis Hc Hsame.
  unfold writable, surfaceReady, takesMarkup.
  now rewrite Hthis, Hc, (idOf_sameHead _ _ _ Hsame), (tagOf_sameHead _ _ _ Hsame).
Qed.

Lemma write_Str_keeps_writable (s : string) (m d : float) (r : bool) (w : World)
    (c : Ref) :
  writable w = true ->
  textDestinationContainer (this w) = Some c ->
  c < nextRef (document w) ->
  r = false \/ wrapperInForce (this w) = None ->
  exists w2,
    run (write (Str s) m d r) w = (w2, inr tt)
    /\ writable w2 = true
    /\ this w2 = this w
    /\ nextRef (document w) <= nextRef (document w2).
Proof.
  intros Hready Hc Hnext Hr.
  destruct (run_write_Str w s m d r Hready) as (t & before & Hrun & _ & Hwrite).
  eexists. split; [exact Hwrite|].
  set (w0 := leadWorld d w) in *.
  assert (H0 : this w0 = this w /\ document w0 = document w)
    by (unfold w0; now rewrite this_leadWorld, document_leadWorld).
  destruct H0 as [Hthis0 Hdoc0].
  assert (H1 : sameHead (findElement c (root (document (targetWorld w0))))
                        (findElement c (root (document w)))
               /\ nextRef (document w) <= nextRef (document (targetWorld w0))).
  { unfold targetWorld. rewrite Hthis0, Hc.
    destruct (wrapperInForce (this w)) as [tag|];
      cbn [logCall onDocument document]; rewrite Hdoc0;
      [|split; [apply sameHead_findElement_refl|lia]].
    now apply sameHead_insertAdjacentHTML. }
  destruct H1 as [Hid1 Hnext1].
  assert (H2 : sameHead (findElement c (root (document (clearWorld r t (targetWorld w0)))))
                        (findElement c (root (document w)))
               /\ nextRef (document w)
                  <= nextRef (document (clearWorld r t (targetWorld w0)))).
  { destruct Hr as [->|Hwrap]; [cbn [clearWorld]; auto|].
    rewrite nextRef_clearWorld. split; [|exact Hnext1].
    destruct r; [|exact Hid1].
    assert (Hwrap0 : wrapperInForce (this w0) = None) by now rewrite Hthis0.
    rewrite (run_getTargetElement_plain w0 Hwrap0), Hthis0, Hc in Hrun.
    injection Hrun as Hw0 <-.
    cbn [clearWorld logCall onDocument document Dom.clearInnerHTML root].
    rewrite <- Hw0, Hdoc0. rewrite findElement_updateChildren.
    destruct (findElement c (root (document w))) as [e|] eqn:E; [|exact I].
    destruct (findElement_ref _ _ _ E) as (? & ? & ? & ->). cbn. auto. }
  destruct H2 as [Hid2 Hnext2].
  destruct (sameHead_fold_htmlCharStep m c t (chars s)
              (clearWorld r t (targetWorld w0))) as [Hid3 Hnext3]; [lia|].
  assert (Hthis : this (fold_left (htmlCharStep m t) (chars s)
                          (clearWorld r t (targetWorld w0))) = this w)
    by now rewrite this_fold_htmlCharStep, this_clearWorld, this_targetWorld.
  split; [|split; [exact Hthis|lia]].
  rewrite (writable_sameHead w _ c Hthis Hc (sameHead_trans _ _ _ Hid3 Hid2)).
  unfold w0 in Hready. exact Hready.
Qed.

(** X7: a writer that can write, whose container is an element the page
    already holds, can write again after [write], on a string or on a
    list, nested or not: the call runs to its end without error and leaves
    the writer as it was, the container with its tag and id, so that the
    next call finds it ready; this holds when [replace] is unset or no
    wrapper tag is in force. *)
Theorem write_keeps_surface_ready (text : Content) (r : bool) (c : Ref) (o : TextWriter) :
  textDestinationContainer o = Some c ->
  r = false \/ wrapperInForce o = None ->
  forall (m d : float) (w : World),
    this w = o ->
    writable w = true ->
    c < nextRef (document w) ->
    exists w2,
      run (write text m d r) w = (w2, inr tt)
      /\ writable w2 = true
      /\ this w2 = o
      /\ nextRef (document w) <= nextRef (document w2).
Proof.
  intros Hc Hr.
  induction text as [s|items IH] using Content_induction; intros m d w Hw Hready Hnext.
  - subst o.
    destruct (write_Str_keeps_writable s m d r w c Hready Hc Hnext Hr)
      as (w2 & H1 & H2 & H3 & H4).
    exists w2. auto.
  - cbn [write]. rewrite run_bind, run_lead. cbn [andThen].
    assert (H0 : this (leadWorld d w) = o /\ writable (leadWorld d w) = true
                 /\ nextRef (document w) <= nextRef (document (leadWorld d w))).
    { now rewrite this_leadWorld, writable_leadWorld, document_leadWorld. }
    revert H0. generalize (leadWorld d w). clear Hw Hready. intros w0 (Hw0 & Hready0 & Hn0).
    assert (Hnext0 : c < nextRef (document w0)) by lia.
    cut (exists w2,
            run (forIn (fun x => awaitPromise (write x m 0 r)) items) w0 = (w2, inr tt)
            /\ writable w2 = true /\ this w2 = o
            /\ nextRef (document w0) <= nextRef (document w2)).
    { intros (w2 & H1 & H2 & H3 & H4). exists w2. repeat split; auto; lia. }
    clear Hn0 Hnext w. revert w0 Hw0 Hready0 Hnext0.
    induction IH as [|x rest Hx _ IHrest]; intros w0 Hw0 Hready0 Hnext0.
    + exists w0. cbn. auto.
    + cbn [forIn]. rewrite run_bind, run_awaitPromise.
      destruct (Hx m 0%float w0 Hw0 Hready0 Hnext0) as (w1 & H1 & H2 & H3 & H4).
      rewrite H1. cbn [andThen].
      destruct (IHrest w1 H3 H2) as (w2 & H5 & H6 & H7 & H8); [lia|].
      exists w2. repeat split; auto; lia.
Qed.

Lemma write_keeps_surface_ready_witness :
  textDestinationContainer (this Examples.paragraphWriter) = Some 1
  /\ writable Examples.paragraphWriter = true
  /\ 1 < nextRef (document Examples.paragraphWriter)
  /\ exists w2,
       run (write (Arr [Str "a"; Arr [Str "b"]]) 1 0 false) Examples.paragraphWriter
       = (w2, inr tt)
       /\ writable w2 = true
       /\ this w2 = this Examples.paragraphWriter
       /\ nextRef (document Examples.paragraphWriter) <= nextRef (document w2).
Proof.
  split; [reflexivity|]. split; [reflexivity|]. split; [cbn; lia|].
  apply (write_keeps_surface_ready (Arr [Str "a"; Arr [Str "b"]]) false 1
           (this Examples.paragraphWriter) eq_refl (or_introl eq_refl) 1 0
           Examples.paragraphWriter eq_refl eq_refl).
  cbn. lia.
Defined.

(** ** The new element as the target *)

Lemma noneNested_Forall (tag : string) (nodes : list Node) :
  noneNested tag nodes = true ->
  Forall (fun x => queryLastOfType (fun _ => false) tag true x = None) nodes.
Proof.
  unfold noneNested. rewrite forallb_forall, Forall_forall.
  intros H x Hx. specialize (H x Hx).
  now destruct (queryLastOfType (fun _ => false) tag true x).
Qed.

(** The element appended to [c] is found under its own reference when
    that reference was unused. *)
Lemma findElement_appended (c new : Ref) (e : Node) (n : Node) :
  refOf e = Some new ->
  findElement new n = None ->
  findElement c n <> None ->
  findElement new (updateChildren c (fun cs => cs ++ [e]) n) = Some e.
Proof.
  intros He. induction n as [d|r t i cs IH] using Node_induction; cbn;
    [contradiction|].
  destruct (Nat.eqb_spec r new) as [->|Hrn]; [discriminate|].
  intros Hnew Hc.
  destruct (Nat.eqb_spec r c) as [->|Hrc]; cbn.
  - destruct (Nat.eqb_spec c new) as [|_]; [contradiction|].
    rewrite map_app. cbn.
    assert (He' : findElement new e = Some e).
    { destruct e as [r' t' i' cs'|]; [|discriminate].
      injection He as ->. cbn. now rewrite Nat.eqb_refl. }
    rewrite He'. clear - Hnew.
    induction cs as [|x cs IHcs]; cbn in *; [reflexivity|].
    destruct (findElement new x); [discriminate|auto].
  - destruct (Nat.eqb_spec r new) as [|_]; [contradiction|].
    rewrite map_map.
    induction IH as [|x rest Hx _ IHrest]; cbn in *; [contradiction|].
    destruct (findElement new x) eqn:Ex; [discriminate|].
    destruct (findElement c x) eqn:Ecx.
    + rewrite Hx; [reflexivity|reflexivity|discriminate].
    + rewrite (updateChildren_absent c _ x Ecx), Ex. now apply IHrest.
Qed.

(** X8: on a well-formed page, for a writer that can write, when the
    container is the element [getElementById] finds for its id and no
    element of the wrapper tag below one of its children is the last of
    its type, [write(s)] with a wrapper tag in force writes into the
    wrapper it has just appended: the new element is the target and ends
    up holding exactly one [span] per character of [s], in order. *)
Theorem write_fills_new_wrapper (w : World) (s : string) (m d : float) (r : bool)
    (tag i : string) (c : Ref) (before : list Node) :
  wellFormed (document w) = true ->
  writable w = true ->
  wrapperInForce (this w) = Some tag ->
  textDestinationContainer (this w) = Some c ->
  getElementById i (document w) = Some c ->
  childNodesOf c (root (document w)) = Some before ->
  noneNested tag before = true ->
  exists w2,
    run getTargetElement (leadWorld d w)
    = (targetWorld (leadWorld d w), inr (Some (nextRef (document w))))
    /\ run (write (Str s) m d r) w = (w2, inr tt)
    /\ childNodesOf (nextRef (document w)) (root (document w2))
       = Some (spanUnits (S (nextRef (document w))) (chars s)).
Proof.
  intros Hwf Hready Hwrap Hc Hget Hkids Hnone.
  unfold getElementById in Hget.
  destruct (String.eqb i EmptyString) eqn:Hi; [discriminate|].
  pose proof (idOf_elementById i c (root (document w)) (wellFormed_NoDup _ Hwf) Hget)
    as Hid.
  pose proof (surfaceReady_validTag w tag (writable_surfaceReady w Hready) Hwrap)
    as Hvalid.
  destruct (writable_container w Hready) as (c' & Hc' & Hmarkup).
  assert (c' = c) by congruence. subst c'.
  assert (Hcss : cssIdentifier i = true).
  { unfold writable in Hready. apply andb_prop in Hready. destruct Hready as [_ H].
    rewrite Hc, Hwrap, Hid in H. now apply andb_prop in H. }
  set (w0 := leadWorld d w).
  assert (Hdoc0 : document w0 = document w) by apply document_leadWorld.
  assert (Hthis0 : this w0 = this w) by apply this_leadWorld.
  assert (Htarget : run getTargetElement w0
                    = (targetWorld w0, inr (Some (nextRef (document w))))).
  { rewrite <- Hdoc0.
    apply getTargetElement_returns_new_wrapper with tag c i before;
      rewrite ?Hthis0, ?Hdoc0; auto.
    now apply noneNested_Forall. }
  destruct (run_write_Str w s m d r Hready) as (t & before' & Hrun & Hbefore' & Hwrite).
  fold w0 in Hrun, Hbefore', Hwrite.
  rewrite Htarget in Hrun. injection Hrun as <-.
  eexists. split; [exact Htarget|]. split; [exact Hwrite|].
  assert (Hworld : document (targetWorld w0)
                   = mkDocument
                       (updateChildren c
                          (fun cs => cs ++ [Element (nextRef (document w)) tag
                                              EmptyString []])
                          (root (document w)))
                       (S (nextRef (document w)))).
  { unfold targetWorld. rewrite Hthis0, Hwrap, Hc. cbn [logCall onDocument document].
    rewrite Hdoc0. now apply insertAdjacentHTML_wrapper. }
  assert (Hfound : findElement c (root (document w)) <> None).
  { unfold childNodesOf in Hkids. now destruct (findElement c (root (document w))). }
  pose proof (findElement_appended c (nextRef (document w))
                (Element (nextRef (document w)) tag EmptyString [])
                (root (document w)) eq_refl (wellFormed_fresh _ Hwf) Hfound) as Hnew.
  assert (Hnewmarkup : takesMarkup (nextRef (document w)) (document (targetWorld w0))
                       = true).
  { unfold takesMarkup, tagOf. rewrite Hworld. cbn [root]. rewrite Hnew.
    now rewrite (validTag_contentModel tag Hvalid). }
  rewrite childNodesOf_fold_htmlCharStep
    by (try apply length_chars; now rewrite takesMarkup_clearWorld).
  rewrite childNodesOf_clearWorld, nextRef_clearWorld, Hbefore'. cbn [option_map].
  rewrite Hworld in *. cbn [root nextRef] in *.
  unfold childNodesOf in Hbefore'. rewrite Hnew in Hbefore'.
  injection Hbefore' as <-. cbn. now destruct r.
Qed.

Lemma write_fills_new_wrapper_witness :
  wellFormed (document Examples.spanWriter) = true
  /\ writable Examples.spanWriter = true
  /\ wrapperInForce (this Examples.spanWriter) = Some "span"
  /\ textDestinationContainer (this Examples.spanWriter) = Some 1
  /\ getElementById "box" (document Examples.spanWriter) = Some 1
  /\ childNodesOf 1 (root (document Examples.spanWriter)) = Some []
  /\ noneNested "span" [] = true
  /\ exists w2,
       run getTargetElement (leadWorld 0 Examples.spanWriter)
       = (targetWorld (leadWorld 0 Examples.spanWriter),
          inr (Some (nextRef (document Examples.spanWriter))))
       /\ run (write (Str "hi") 1 0 false) Examples.spanWriter = (w2, inr tt)
       /\ childNodesOf (nextRef (document Examples.spanWriter)) (root (document w2))
          = Some (spanUnits (S (nextRef (document Examples.spanWriter))) (chars "hi")).
Proof.
  repeat (split; [reflexivity|]).
  apply (write_fills_new_wrapper Examples.spanWriter "hi" 1 0 false "span" "box" 1 []);
    reflexivity.
Defined.

(** X9: on a well-formed page, when the container is an element of the
    page that reads markup as markup (a [div], not a [textarea]) and no
    [pre] below one of its children is the last of its type, [writeJson]
    of a value that serializes runs to its end; it makes one markup
    insertion, the [pre] appended to the container, and then one text
    insertion per character of [JSON.stringify(value, null, 2)], in order,
    into that new [pre], which ends up holding these characters as text
    and no element; the writer is left as it was. *)
Theorem writeJson_fills_new_pre {J : JSON} (arg : JsonArg) (v : JsValue) (txt : string)
    (m : float) (w : World) (c : Ref) (before : list Node) :
  wellFormed (document w) = true ->
  jsonValue arg = Some v ->
  JSON_stringify v 2 = Serialized txt ->
  textDestinationContainer (this w) = Some c ->
  takesMarkup c (document w) = true ->
  childNodesOf c (root (document w)) = Some before ->
  noneNested "pre" before = true ->
  exists w2,
    run (writeJson arg m) w = (w2, inr tt)
    /\ htmlInsertions (calls w2) = htmlInsertions (calls w) ++ [(c, "<pre></pre>")]
    /\ textInsertions (calls w2)
       = textInsertions (calls w)
         ++ map (fun ch => (nextRef (document w), ch)) (chars txt)
    /\ childNodesOf (nextRef (document w)) (root (document w2))
       = Some (map Text (chars txt))
    /\ this w2 = this w.
Proof.
  intros Hwf Hv Hs Hc Hmarkup Hkids Hnone.
  destruct (run_writeJson arg v txt m w c before Hv Hs Hc Hmarkup Hkids)
    as (t & Hq & Hrun).
  rewrite (queryChildren_new "pre" _ before (nextRef (document w)) EmptyString []
             (noneNested_Forall _ _ Hnone)) in Hq.
  injection Hq as <-.
  eexists. split; [exact Hrun|].
  rewrite calls_fold_textCharStep.
  assert (Hpre : calls (preWorld c w) = calls w ++ [CallInsertAdjacentHTML c "<pre></pre>"])
    by reflexivity.
  rewrite Hpre, htmlInsertions_app, htmlInsertions_app, htmlInsertions_textCharCalls.
  rewrite textInsertions_app, textInsertions_app, textInsertions_textCharCalls.
  cbn [htmlInsertions textInsertions flat_map app]. rewrite !app_nil_r.
  split; [reflexivity|]. split; [reflexivity|].
  split; [|now rewrite this_fold_textCharStep].
  rewrite childNodesOf_fold_textCharStep.
  assert (Hfound : findElement c (root (document w)) <> None).
  { unfold childNodesOf in Hkids. now destruct (findElement c (root (document w))). }
  pose proof (findElement_appended c (nextRef (document w))
                (Element (nextRef (document w)) "pre" EmptyString [])
                (root (document w)) eq_refl (wellFormed_fresh _ Hwf) Hfound) as Hnew.
  pose proof (document_preWorld c w Hmarkup) as Hdoc.
  rewrite Hdoc. cbn [root]. unfold childNodesOf. now rewrite Hnew.
Qed.

Lemma writeJson_fills_new_pre_witness :
  wellFormed (document Examples.writer) = true
  /\ @jsonValue miniJSON (ArgString Examples.jsonText)
     = Some (MiniJSON.VObject [("a", MiniJSON.VNumber 1)] : @JsValue miniJSON)
  /\ textDestinationContainer (this Examples.writer) = Some 1
  /\ takesMarkup 1 (document Examples.writer) = true
  /\ childNodesOf 1 (root (document Examples.writer)) = Some []
  /\ exists w2,
       run (writeJson (ArgString Examples.jsonText) writeJson_animationMultiplier)
           Examples.writer = (w2, inr tt)
       /\ htmlInsertions (calls w2)
          = htmlInsertions (calls Examples.writer) ++ [(1, "<pre></pre>")]
       /\ textInsertions (calls w2)
          = textInsertions (calls Examples.writer)
            ++ map (fun ch => (nextRef (document Examples.writer), ch))
                   (chars (MiniJSON.serialize "  " EmptyString
                             (MiniJSON.VObject [("a", MiniJSON.VNumber 1)])))
       /\ childNodesOf (nextRef (document Examples.writer)) (root (document w2))
          = Some (map Text
                    (chars (MiniJSON.serialize "  " EmptyString
                              (MiniJSON.VObject [("a", MiniJSON.VNumber 1)]))))
       /\ this w2 = this Examples.writer.
Proof.
  repeat (split; [reflexivity|]).
  apply (@writeJson_fills_new_pre miniJSON (ArgString Examples.jsonText)
           (MiniJSON.VObject [("a", MiniJSON.VNumber 1)]) _
           writeJson_animationMultiplier Examples.writer 1 []);
    reflexivity.
Defined.

(** ** Nested arrays *)

Lemma runEach_app {X : Type} (call : X -> Task unit) (l1 l2 : list X)
    (start : World * Outcome unit) :
  runEach call (l1 ++ l2) start = runEach call l2 (runEach call l1 start).
Proof.
  revert start. induction l1 as [|x l1 IH]; intros [w [e|[]]]; cbn [app runEach].
  - reflexivity.
  - reflexivity.
  - now rewrite runEach_failed.
  - apply IH.
Qed.

Lemma run_write_lead (text : Content) (m d : float) (r : bool) (w : World) :
  run (write text m d r) w = run (write text m 0 r) (leadWorld d w).
Proof.
  destruct text; cbn [write]; rewrite !run_bind, !run_lead; reflexivity.
Qed.

Lemma run_write_Arr (items : list Content) (m d : float) (r : bool) (w : World) :
  run (write (Arr items) m d r) w
  = run (forIn (fun x => awaitPromise (write x m 0 r)) items) (leadWorld d w).
Proof. cbn [write]. now rewrite run_bind, run_lead. Qed.

(** X10: at run time [write] takes arrays within arrays (the test is
    [typeof toWrite == 'object']) and writes their strings in depth-first
    order: running [write(text)] is the lead delay of the outermost call,
    once, then [write(s, multiplier, 0, replace)] for each string [s] of
    [text] in that order, up to the first that fails. *)
Theorem write_flattens_nested_arrays (text : Content) (m : float) (r : bool) :
  forall (d : float) (w : World),
    run (write text m d r) w
    = runEach (fun s => write (Str s) m 0 r) (flatten text) (leadWorld d w, inr tt).
Proof.
  induction text as [s|items IH] using Content_induction; intros d w.
  - cbn [flatten runEach]. apply run_write_lead.
  - rewrite run_write_Arr. cbn [flatten].
    generalize (leadWorld d w). clear w. intros w. revert w.
    induction IH as [|x rest Hx _ IHrest]; intros w; [reflexivity|].
    cbn [forIn flat_map]. rewrite run_bind, run_awaitPromise, runEach_app.
    rewrite (Hx 0%float w). change (leadWorld 0 w) with w.
    destruct (runEach (fun s => write (Str s) m 0 r) (flatten x) (w, inr tt))
      as [w' [e|[]]]; cbn [andThen].
    + now rewrite runEach_failed.
    + apply IHrest.
Qed.

(** ** The first example of the README *)

(** X11: [new TextWriter(id)] followed by [write(s)] with the default
    arguments, on a well-formed page that holds an element with that id
    which reads markup as markup (a [div], not a [textarea]): the call
    runs to its end, the element ends up holding what it held followed by
    one [span] per character of [s], in order, each holding the text the
    parser keeps of its character, and one timer of 100 ms was set per
    character. *)
Theorem default_write_after_constructor (destinationId : string) (scroll : bool)
    (d : Document) (s : string) (c : Ref) :
  wellFormed d = true ->
  getElementById destinationId d = Some c ->
  takesMarkup c d = true ->
  exists before w2,
    childNodesOf c (root d) = Some before
    /\ run (write (Str s) write_animationMultiplier write_delay write_replace)
           (newTextWriter destinationId scroll d) = (w2, inr tt)
    /\ childNodesOf c (root (document w2))
       = Some (before ++ spanUnits (nextRef d) (chars s))
    /\ timers (calls w2) = repeat 100%float (String.length s).
Proof.
  intros Hwf Hget Hmarkup.
  set (w := newTextWriter destinationId scroll d).
  assert (Hdoc : document w = d) by reflexivity.
  assert (Hcalls : calls w = []) by reflexivity.
  assert (Hdelay : animationDelay (this w) = 100%float) by reflexivity.
  assert (Hwrap : htmlWrapperTag (this w) = None) by reflexivity.
  pose proof (container_newTextWriter destinationId scroll d) as Hc.
  pose proof (surfaceReady_newTextWriter destinationId scroll d Hwf) as Hready.
  fold w in Hc, Hready.
  assert (Hc' : textDestinationContainer (this w) = Some c).
  { rewrite Hc. unfold getElementById, truthyString in *.
    now destruct (String.eqb destinationId EmptyString). }
  rewrite Hc' in Hready.
  assert (Hplain : wrapperInForce (this w) = None)
    by (unfold wrapperInForce; now rewrite Hwrap).
  destruct (surfaceReady_attached w c Hready Hc') as [before Hbefore].
  rewrite Hdoc in Hbefore.
  assert (Hwritable : writable w = true).
  { unfold writable. now rewrite Hready, Hc', Hplain, Hdoc, Hmarkup. }
  destruct (run_write_Str w s write_animationMultiplier write_delay write_replace
              Hwritable)
    as (t & before' & Hrun & Hbefore' & Hwrite).
  change (leadWorld write_delay w) with w in *.
  assert (Hw : targetWorld w = w) by (unfold targetWorld; now rewrite Hplain).
  rewrite Hw in *.
  rewrite (run_getTargetElement_plain w Hplain), Hc' in Hrun.
  injection Hrun as <-.
  rewrite Hdoc, Hbefore in Hbefore'. injection Hbefore' as <-.
  exists before, (fold_left (htmlCharStep write_animationMultiplier c) (chars s)
                    (clearWorld write_replace c w)).
  split; [exact Hbefore|]. split; [exact Hwrite|].
  cbn [write_replace clearWorld]. split.
  - rewrite childNodesOf_fold_htmlCharStep
      by (try apply length_chars; now rewrite Hdoc).
    now rewrite Hdoc, Hbefore.
  - rewrite calls_fold_htmlCharStep, timers_app, timers_htmlCharCalls, Hcalls, Hdelay.
    now rewrite chars_length.
Qed.

Lemma default_write_after_constructor_witness :
  wellFormed Examples.page = true
  /\ getElementById "box" Examples.page = Some 1
  /\ takesMarkup 1 Examples.page = true
  /\ exists before w2,
    childNodesOf 1 (root Examples.page) = Some before
    /\ run (write (Str "Hello") write_animationMultiplier write_delay write_replace)
           (newTextWriter "box" false Examples.page) = (w2, inr tt)
    /\ childNodesOf 1 (root (document w2))
       = Some (before ++ spanUnits (nextRef Examples.page) (chars "Hello"))
    /\ timers (calls w2) = repeat 100%float (String.length "Hello").
Proof.
  split; [reflexivity|]. split; [reflexivity|]. split; [reflexivity|].
  apply (default_write_after_constructor "box" false Examples.page "Hello" 1);
    reflexivity.
Defined.

(** ** A call resumed in another world *)

Lemma resume_bind_resolved {A B : Type} (t : Task A) (f : A -> Task B)
    (w w1 w' : World) (a : A) :
  t w = (w1, Resolved a) -> resume (bind t f) w w' = resume (f a) w1 w'.
Proof. intros H. unfold resume, bind. now rewrite H. Qed.

Lemma resume_bind_parked {A B : Type} (t : Task A) (f : A -> Task B)
    (w w1 w' : World) (wt : Wait) (k : World -> World * Async A) :
  t w = (w1, Awaiting wt k) ->
  resume (bind t f) w w' = andThen (resume t w w') (fun a => run (f a)).
Proof.
  intros H. unfold resume, bind. rewrite H. cbn [bindAsync snd runAsync].
  destruct (k w') as [w'' p']. apply runAsync_bindAsync.
Qed.

(** A step of the loop parks on its pause when the pause is not zero;
    what is left of it is the insertion. *)
Lemma htmlChar_parks (m : float) (t : option Ref) (ch : string) (w : World) :
  PrimFloat.eqb (PrimFloat.mul (animationDelay (this w)) m) 0%float = false ->
  exists w1 k,
    (v <- sleepAnimationDelay m ;; await v ;; writeHtmlChar ch t) w
    = (w1, Awaiting (Timeout (PrimFloat.mul (animationDelay (this w)) m)) k)
    /\ forall w', resume (v <- sleepAnimationDelay m ;; await v ;; writeHtmlChar ch t) w w'
                  = run (writeHtmlChar ch t) w'.
Proof.
  intros Hpause.
  assert (Hsleep : sleepAnimationDelay m w
                   = (logCall (CallSetTimeout (PrimFloat.mul (animationDelay (this w)) m)) w,
                      Resolved (PromiseTimeout (PrimFloat.mul (animationDelay (this w)) m)))).
  { unfold sleepAnimationDelay, bind, gets. cbn [bindAsync]. rewrite Hpause. reflexivity. }
  eexists _, _. split.
  - unfold bind at 1. rewrite Hsleep. cbn [bindAsync]. reflexivity.
  - intros w'. rewrite (resume_bind_resolved _ _ _ _ _ _ Hsleep).
    unfold resume, run. cbn. destruct (writeHtmlChar ch t w') as [w'' p]. reflexivity.
Qed.

(** X12: a write in flight is finished off by [skipAnimation].  When the
    pause is not zero, [write(s)] of a non-empty [s] by a writer that can
    write returns to its caller parked on the timer of its first pause.  If it
    is resumed in a world where the delay reads zero, as it does while
    [skipAnimation] is in flight, it appends all the characters of [s], in
    order, and sets no timer any more. *)
Theorem write_resumed_with_zero_delay (w w' : World) (s : string) (m : float) (r : bool)
    (c' : Ref) :
  writable w = true ->
  s <> EmptyString ->
  PrimFloat.eqb (PrimFloat.mul (animationDelay (this w)) m) 0%float = false ->
  PrimFloat.eqb (PrimFloat.mul (animationDelay (this w')) m) 0%float = true ->
  textDestinationContainer (this w') = Some c' ->
  exists target k w3,
    run getTargetElement w = (targetWorld w, inr (Some target))
    /\ snd (write (Str s) m 0 r w)
       = Awaiting (Timeout (PrimFloat.mul (animationDelay (this w)) m)) k
    /\ htmlInsertions (calls (fst (write (Str s) m 0 r w)))
       = htmlInsertions (calls (targetWorld w))
    /\ resume (write (Str s) m 0 r) w w' = (w3, inr tt)
    /\ timers (calls w3) = timers (calls w')
    /\ htmlInsertions (calls w3)
       = htmlInsertions (calls w') ++ map (fun ch => (target, spanMarkup ch)) (chars s).
Proof.
  intros Hready Hs Hpause Hzero Hc'.
  destruct s as [|a rest]; [contradiction|].
  destruct (run_write_Str w (String a rest) m 0 r Hready) as (t & _ & Hrun & _ & _).
  change (leadWorld 0 w) with w in *.
  pose proof (NeverParks_run _ _ _ _ NeverParks_getTargetElement Hrun) as Htarget.
  pose proof (NeverParks_run _ _ _ _ (NeverParks_clear r (Some t))
                (run_clear r t (targetWorld w))) as Hclear.
  set (w0 := clearWorld r t (targetWorld w)) in *.
  set (body := fun i : nat =>
         v <- sleepAnimationDelay m ;; await v ;;
         writeHtmlChar (charAt (String a rest) i) (Some t)).
  assert (Hpause0 : PrimFloat.eqb (PrimFloat.mul (animationDelay (this w0)) m) 0%float
                    = false).
  { unfold w0. now rewrite this_clearWorld, this_targetWorld. }
  destruct (htmlChar_parks m (Some t) (charAt (String a rest) 0) w0 Hpause0)
    as (w1 & k0 & Hpark & Hleft).
  assert (Hwrite : write (Str (String a rest)) m 0 r w
                   = forRange 0 (S (String.length rest)) body w0).
  { cbn [write String.length].
    rewrite (bind_resolved _ _ w w tt eq_refl).
    rewrite (bind_resolved _ _ _ _ _ Htarget).
    rewrite (bind_resolved _ _ _ _ _ Hclear). reflexivity. }
  assert (Hfirst : forRange 0 (S (String.length rest)) body w0
                   = (w1, Awaiting
                            (Timeout (PrimFloat.mul (animationDelay (this w0)) m))
                            (fun x => let (w'', p') := k0 x in
                                      bindAsync p'
                                        (fun _ => forRange 1 (String.length rest) body)
                                        w''))).
  { cbn [forRange]. unfold bind at 1. fold (body 0). unfold body at 1.
    rewrite Hpark. reflexivity. }
  assert (Hthis0 : this w0 = this w)
    by (unfold w0; now rewrite this_clearWorld, this_targetWorld).
  assert (Hresume : resume (write (Str (String a rest)) m 0 r) w w'
                    = (fold_left (htmlCharStep m t) (chars (String a rest)) w', inr tt)).
  { unfold resume. rewrite Hwrite. fold (resume (forRange 0 (S (String.length rest)) body) w0 w').
    cbn [forRange].
    rewrite (resume_bind_parked (body 0) _ w0 w1 w' _ k0 Hpark).
    unfold body at 1. rewrite Hleft.
    rewrite (run_writeHtmlChar_zero m t _ w' c' Hzero Hc'). cbn [andThen].
    rewrite run_forRange with (step := htmlCharStep m t) (char := charAt (String a rest))
                              (c := c').
    - rewrite <- (charAt_seq (String a rest)). reflexivity.
    - intros; apply this_htmlCharStep.
    - intros i w2 Hw2. now apply run_htmlChar with (c := c').
    - exact Hc'. }
  exists t. eexists. exists (fold_left (htmlCharStep m t) (chars (String a rest)) w').
  split; [exact Hrun|]. split; [rewrite Hwrite, Hfirst, Hthis0; reflexivity|].
  split.
  { rewrite Hwrite, Hfirst. cbn [fst].
    assert (Hw1 : calls w1 = calls w0 ++ sleepCalls (this w0) m).
    { pose proof Hpark as Hp. unfold bind at 1 in Hp.
      unfold sleepAnimationDelay, bind, gets in Hp. cbn [bindAsync] in Hp.
      rewrite Hpause0 in Hp. cbn in Hp. injection Hp as <- _.
      unfold sleepCalls. now rewrite Hpause0. }
    rewrite Hw1, htmlInsertions_app. unfold w0. rewrite calls_clearWorld, htmlInsertions_app.
    destruct (sleepCalls_cases (this (clearWorld r t (targetWorld w))) m) as [->|[? ->]];
      destruct r; cbn; now rewrite ?app_nil_r. }
  split; [exact Hresume|]. split.
  - rewrite calls_fold_htmlCharStep, timers_app.
    now rewrite (timers_htmlCharCalls_zero _ m t _ Hzero), app_nil_r.
  - now rewrite calls_fold_htmlCharStep, htmlInsertions_app, htmlInsertions_htmlCharCalls.
Qed.

Lemma write_resumed_with_zero_delay_witness :
  writable Examples.writer = true
  /\ "hi" <> EmptyString
  /\ PrimFloat.eqb (PrimFloat.mul (animationDelay (this Examples.writer)) 1) 0%float = false
  /\ PrimFloat.eqb
       (PrimFloat.mul
          (animationDelay
             (this (fst (skipAnimation (fst (write (Str "hi") 1 0 false Examples.writer))))))
          1) 0%float = true
  /\ exists target k w3,
    run getTargetElement Examples.writer = (targetWorld Examples.writer, inr (Some target))
    /\ snd (write (Str "hi") 1 0 false Examples.writer)
       = Awaiting (Timeout (PrimFloat.mul (animationDelay (this Examples.writer)) 1)) k
    /\ htmlInsertions (calls (fst (write (Str "hi") 1 0 false Examples.writer)))
       = htmlInsertions (calls (targetWorld Examples.writer))
    /\ resume (write (Str "hi") 1 0 false) Examples.writer
         (fst (skipAnimation (fst (write (Str "hi") 1 0 false Examples.writer))))
       = (w3, inr tt)
    /\ timers (calls w3)
       = timers (calls (fst (skipAnimation
                               (fst (write (Str "hi") 1 0 false Examples.writer)))))
    /\ htmlInsertions (calls w3)
       = htmlInsertions
           (calls (fst (skipAnimation (fst (write (Str "hi") 1 0 false Examples.writer)))))
         ++ map (fun ch => (target, spanMarkup ch)) (chars "hi").
Proof.
  split; [reflexivity|]. split; [discriminate|]. split; [reflexivity|].
  split; [reflexivity|].
  apply (write_resumed_with_zero_delay Examples.writer
           (fst (skipAnimation (fst (write (Str "hi") 1 0 false Examples.writer))))
           "hi" 1 false 1);
    [reflexivity|discriminate|reflexivity|reflexivity|reflexivity].
Defined.

(** ** Two calls at once *)

Lemma interleave_Forall {X : Type} (P : X -> Prop) (a : list X) :
  forall b, Forall P a -> Forall P b -> Forall P (interleave a b).
Proof.
  induction a as [|x a IH]; intros b Ha Hb; [exact Hb|].
  destruct b as [|y b]; [exact Ha|].
  cbn [interleave]. inversion Ha; inversion Hb; subst.
  constructor; [assumption|]. constructor; [assumption|]. now apply IH.
Qed.

Lemma write_Str_zero_plain (w : World) (s : string) (m : float) (c : Ref) :
  writable w = true ->
  wrapperInForce (this w) = None ->
  textDestinationContainer (this w) = Some c ->
  PrimFloat.eqb (PrimFloat.mul (animationDelay (this w)) m) 0%float = true ->
  exists p, write (Str s) m 0 false w = (w, p) /\ Appends (this w) m c (chars s) p.
Proof.
  intros Hready Hplain Hc Hzero.
  destruct (write_Str_zero_Appends w s m false Hready Hzero) as (t & p & Hrun & Hp & HA).
  rewrite (run_getTargetElement_plain w Hplain), Hc in Hrun.
  injection Hrun as Hw <-. cbn [clearWorld] in Hp. rewrite <- Hw in Hp. eauto.
Qed.

(** X13: two writes started one after the other, without waiting for the
    first, share the surface turn by turn.  With a zero pause and no
    wrapper tag, for a writer that can write, [w.write(s1); w.write(s2)]
    both resolve, set no timer, and the container receives the characters
    of the two texts alternately, [s1] first: the first text is not
    written before the second. *)
Theorem overlapping_writes_interleave (w : World) (s1 s2 : string) (m : float) (c : Ref) :
  writable w = true ->
  wrapperInForce (this w) = None ->
  textDestinationContainer (this w) = Some c ->
  PrimFloat.eqb (PrimFloat.mul (animationDelay (this w)) m) 0%float = true ->
  exists w2,
    runTogether (write (Str s1) m 0 false) (write (Str s2) m 0 false) w
    = (w2, (inr tt, inr tt))
    /\ htmlInsertions (calls w2)
       = htmlInsertions (calls w)
         ++ map (fun ch => (c, spanMarkup ch)) (interleave (chars s1) (chars s2))
    /\ timers (calls w2) = timers (calls w)
    /\ childNodesOf c (root (document w2))
       = option_map
           (fun before =>
              before ++ spanUnits (nextRef (document w))
                          (interleave (chars s1) (chars s2)))
           (childNodesOf c (root (document w))).
Proof.
  intros Hready Hplain Hc Hzero.
  destruct (write_Str_zero_plain w s1 m c Hready Hplain Hc Hzero) as (p & Hp & HAp).
  destruct (write_Str_zero_plain w s2 m c Hready Hplain Hc Hzero) as (q & Hq & HAq).
  exists (fold_left (htmlCharStep m c) (interleave (chars s1) (chars s2)) w).
  split.
  { unfold runTogether. rewrite Hp, Hq.
    exact (runAlternately_Appends (this w) m c _ p HAp _ q w HAq eq_refl). }
  split.
  { now rewrite calls_fold_htmlCharStep, htmlInsertions_app, htmlInsertions_htmlCharCalls. }
  split.
  { rewrite calls_fold_htmlCharStep, timers_app.
    now rewrite (timers_htmlCharCalls_zero _ m c _ Hzero), app_nil_r. }
  apply childNodesOf_fold_htmlCharStep.
  - apply interleave_Forall; apply length_chars.
  - destruct (writable_container w Hready) as (c' & Hc' & Hmarkup). congruence.
Qed.

Lemma overlapping_writes_interleave_witness :
  writable Examples.instantWriter = true
  /\ exists w2,
    runTogether (write (Str "ab") 1 0 false) (write (Str "xyz") 1 0 false)
      Examples.instantWriter
    = (w2, (inr tt, inr tt))
    /\ htmlInsertions (calls w2)
       = htmlInsertions (calls Examples.instantWriter)
         ++ map (fun ch => (1, spanMarkup ch)) ["a"; "x"; "b"; "y"; "z"]
    /\ timers (calls w2) = timers (calls Examples.instantWriter)
    /\ childNodesOf 1 (root (document w2))
       = option_map
           (fun before =>
              before ++ spanUnits (nextRef (document Examples.instantWriter))
                          ["a"; "x"; "b"; "y"; "z"])
           (childNodesOf 1 (root (document Examples.instantWriter))).
Proof.
  split; [reflexivity|].
  apply (overlapping_writes_interleave Examples.instantWriter "ab" "xyz" 1 1);
    reflexivity.
Defined.
